(** * Personaplex voice pipeline: resampler, frame codec, playback
      scheduler, voice-activity detector, capture lifecycle and transport.

    The development embeds the two hooks of the client,
    [usePersonaplexAudio.ts] and [usePersonaplexSocket.ts], and states and
    proves what they do.

    Number model.  The audio hook is embedded twice.  The first part
    takes the numbers that carry sample values, rates and clock readings
    as exact rationals ([Q]), with [Math.floor] as [Qfloor] and
    [Math.sqrt] related to the square root on the reals: it is the model
    of what the hook does to its references, to its callbacks and to the
    platform, and of the bounds on samples and times that rounding
    respects.  The second part, from [Number] on, gives the resampler,
    the scheduler, the loudness test and the capture lifecycle over the
    numbers JavaScript has, IEEE 754 binary64 and the binary32 elements
    of a [Float32Array], with the exceptions the calls throw; the lengths
    the resampler returns, the times the scheduler computes and the
    decision of the loudness test are stated over that part.  In both
    parts [Date.now()] is an integer number of milliseconds ([Z]), and
    the bytes of an inbound frame are decoded to binary32 values
    ([spec_float] of the standard library), which is exact. *)

From Stdlib Require Import ZArith QArith Qround Qminmax Qpower Lia Lqa List.
From Stdlib Require Import Reals Qreals Lra.
From Stdlib Require Import Floats.SpecFloat.
From Stdlib Require Import Strings.String Strings.Byte.
From stdpp Require Import base option list.

(** ** The resampler: [downsample] *)

Module Resampler.

Local Open Scope Q_scope.

(** A [Float32Array] is a fixed-length sequence of samples. *)
Abbreviation Float32Array := (list Q).

(** [new Float32Array(n)]: [n] zero samples; a negative length is a
    [RangeError] ([None]). *)
Definition newFloat32Array (n : Z) : option Float32Array :=
  if (n <? 0)%Z then None else Some (replicate (Z.to_nat n) 0).

(** [a[i]] for an integral index: outside the array the read gives
    [undefined] ([None]), which the arithmetic would turn into NaN. *)
Definition readAt (a : Float32Array) (i : Z) : option Q :=
  if (i <? 0)%Z then None else a !! Z.to_nat i.

(** The body of the loop, lines 20-25: the value stored at [output[i]]. *)
Definition interpolate (input : Float32Array) (ratio : Q) (i : nat)
  : option Q :=
  let srcIndex := inject_Z (Z.of_nat i) * ratio in
  let srcIndexFloor := Qfloor srcIndex in
  let srcIndexCeil :=
    Z.min (srcIndexFloor + 1) (Z.of_nat (length input) - 1) in
  let frac := srcIndex - inject_Z srcIndexFloor in
  lo ← readAt input srcIndexFloor;
  hi ← readAt input srcIndexCeil;
  Some (lo * (1 - frac) + hi * frac).

(** [for (let i = ...; i < outputLength; i++) output[i] = ...], with
    [n] the number of iterations that remain. *)
Fixpoint downsample_loop (input : Float32Array) (ratio : Q)
    (n i : nat) (output : Float32Array) : option Float32Array :=
  match n with
  | O => Some output
  | S n' =>
      v ← interpolate input ratio i;
      downsample_loop input ratio n' (S i) (<[i:=v]> output)
  end.

(** Lines 10-29.  The rates are positive in every use; at a zero rate the
    division of [Q] (which gives 0) departs from the one of JavaScript
    (which gives an infinity or NaN), so the properties below take
    positive rates.  [None] stands for the [RangeError] of a negative
    length, or for an output that would hold NaN.  The quotients are
    exact here: in binary64 the length can be one less than this floor
    (nine samples from 9 Hz to 7 Hz give six), and each stored sample is
    rounded to binary32; [Hook.downsample] below is the function over
    those numbers. *)
Definition downsample (input : Float32Array) (sourceRate targetRate : Q)
  : option Float32Array :=
  let ratio := sourceRate / targetRate in
  let outputLength :=
    Qfloor (inject_Z (Z.of_nat (length input)) / ratio) in
  output ← newFloat32Array outputLength;
  downsample_loop input ratio (Z.to_nat outputLength) 0 output.

End Resampler.

(** ** Typed-array views of an [ArrayBuffer] and binary32 values *)

Module TypedArrays.

Abbreviation ArrayBuffer := (list byte).

(** Exceptions the modelled calls can raise, and the outcome of a call. *)
Inductive Exception := RangeError | NotSupportedError.

Inductive Completion (A : Type) :=
| Normal (a : A)
| Throw (e : Exception).
Arguments Normal {A} a.
Arguments Throw {A} e.

Definition byteLength (data : ArrayBuffer) : Z := Z.of_nat (length data).

(** The unsigned integer held by a run of bytes, least significant byte
    first. *)
Fixpoint le_word (bs : list byte) : Z :=
  match bs with
  | [] => 0
  | b :: rest => Z.of_N (Byte.to_N b) + 256 * le_word rest
  end.

(** Two's complement reading of a 16-bit pattern. *)
Definition int16_of_bits (w : Z) : Z :=
  if (w <? 32768)%Z then w else (w - 65536)%Z.

(** IEEE 754 binary32 reading of a 32-bit pattern: sign bit 31, biased
    exponent in bits 30-23, fraction in bits 22-0. *)
Definition float32_of_bits (w : Z) : spec_float :=
  let s := Z.testbit w 31 in
  let e := Z.land (Z.shiftr w 23) 255 in
  let m := Z.land w 8388607 in
  if (e =? 0)%Z then
    if (m =? 0)%Z then S754_zero s else S754_finite s (Z.to_pos m) (-149)
  else if (e =? 255)%Z then
    if (m =? 0)%Z then S754_infinity s else S754_nan
  else S754_finite s (Z.to_pos (m + 8388608)) (e - 150).

(** The elements of a view over a buffer, in the byte order of the
    platform, which is little-endian wherever browsers run. *)
Fixpoint int16_elements (bs : list byte) : list Z :=
  match bs with
  | b0 :: b1 :: rest => int16_of_bits (le_word [b0; b1]) :: int16_elements rest
  | _ => []
  end.

Fixpoint float32_elements (bs : list byte) : list spec_float :=
  match bs with
  | b0 :: b1 :: b2 :: b3 :: rest =>
      float32_of_bits (le_word [b0; b1; b2; b3]) :: float32_elements rest
  | _ => []
  end.

(** [new Int16Array(data)] and [new Float32Array(data)]: a view of the
    whole buffer; a byte length that is not a multiple of the element
    size is a [RangeError]. *)
Definition newInt16Array (data : ArrayBuffer) : Completion (list Z) :=
  if (byteLength data mod 2 =? 0)%Z then Normal (int16_elements data)
  else Throw RangeError.

Definition newFloat32Array (data : ArrayBuffer)
  : Completion (list spec_float) :=
  if (byteLength data mod 4 =? 0)%Z then Normal (float32_elements data)
  else Throw RangeError.

(** [target.set(source)]: copies [source] over the start of [target]; a
    source longer than the target is a [RangeError]. *)
Definition typedArraySet {A} (target source : list A) : Completion (list A) :=
  if (length source <=? length target)%nat
  then Normal (source ++ drop (length source) target)
  else Throw RangeError.

(** JavaScript numbers in this part are binary64; a store into a
    [Float32Array] rounds to binary32 (ties to even). *)
Definition number_of_Z (z : Z) : spec_float := binary_normalize 53 1024 z 0 false.

Definition number_div : spec_float -> spec_float -> spec_float := SFdiv 53 1024.

Definition fround (x : spec_float) : spec_float :=
  match x with
  | S754_finite s m e => binary_normalize 24 128 (cond_Zopp s (Zpos m)) e s
  | _ => x
  end.

(** The integer of sign [s] (set for a negative one) and magnitude [p]. *)
Definition signed (s : bool) (p : positive) : Z := cond_Zopp s (Zpos p).

(** The rational a finite binary float denotes. *)
Definition value_of (x : spec_float) : option Q :=
  match x with
  | S754_zero _ => Some 0%Q
  | S754_finite s m e =>
      Some (inject_Z (cond_Zopp s (Zpos m)) * Qpower 2 e)%Q
  | _ => None
  end.

End TypedArrays.


(** ** The audio hook: [usePersonaplexAudio] *)

Module Audio.

Import TypedArrays.
Local Open Scope Q_scope.

Definition CAPTURE_SAMPLE_RATE : Q := 16000.
Definition CAPTURE_BUFFER_SIZE : Z := 2048.
Definition volumeThreshold : Q := 1 # 100.
Definition silenceTimeoutMs : Z := 300.

(** The rate the capture context is created with, [ctx.sampleRate]. *)
Definition captureContextRate : Q := 48000.

(** The options of the hook.  The two callbacks are optional: the field
    says whether the caller passed one.  [sendAudio] is mandatory; what
    it is given is recorded in [outbound] below. *)
Record Options := {
  isConnected : bool;
  onUserSpeakingChange : bool;
  onAiSpeakingChange : bool;
}.

(** A mono [AudioBuffer]; its [duration] is its length over its rate, an
    exact quotient here and a binary64 one in [Hook.duration] below. *)
Record AudioBuffer := {
  channelData : list spec_float;
  sampleRate : Q;
}.

Definition duration (b : AudioBuffer) : Q :=
  inject_Z (Z.of_nat (length (channelData b))) / sampleRate b.

Inductive MicPermission := unknown | granted | denied.

Inductive Notification :=
| UserSpeakingChange (v : bool)
| AiSpeakingChange (v : bool).

Inductive ConsoleEntry :=
| ConsoleWarn (msg : string)
| ConsoleError (msg : string).

(** A buffer source after [source.start(startTime)]; its [onended]
    handler is [playNextInQueue(ctx)] for [ctx = sourceContext]. *)
Record ScheduledSource := {
  sourceContext : nat;
  sourceBuffer : AudioBuffer;
  startTime : Q;
}.

Record CaptureRefs := {
  audioContextRef : option nat;
  sourceRef : option nat;
  processorRef : option nat;
  streamRef : option nat;
}.

Record PlaybackRefs := {
  playbackQueueRef : list AudioBuffer;
  isPlayingRef : bool;
  nextPlayTimeRef : Q;
  playbackContextRef : option nat;
}.

Record VadRefs := {
  lastSpeakTimeRef : Z;
  isUserSpeakingRef : bool;
}.

Record ReactState := {
  micPermission : MicPermission;
  isUserSpeaking : bool;
  isAiSpeaking : bool;
}.

(** What the hook does to the platform and to its caller.  Contexts,
    streams and nodes are numbered in the order of their creation. *)
Record World := {
  objects : nat;
  closedContexts : list nat;
  stoppedStreams : list nat;
  disconnectedNodes : list nat;
  started : list ScheduledSource;
  notifications : list Notification;
  console : list ConsoleEntry;
  outbound : list Resampler.Float32Array;
}.

Record State := {
  capture : CaptureRefs;
  playback : PlaybackRefs;
  vad : VadRefs;
  view : ReactState;
  world : World;
}.

Definition initial : State := {|
  capture := {| audioContextRef := None; sourceRef := None;
                processorRef := None; streamRef := None |};
  playback := {| playbackQueueRef := []; isPlayingRef := false;
                 nextPlayTimeRef := 0; playbackContextRef := None |};
  vad := {| lastSpeakTimeRef := 0; isUserSpeakingRef := false |};
  view := {| micPermission := unknown; isUserSpeaking := false;
             isAiSpeaking := false |};
  world := {| objects := 0; closedContexts := []; stoppedStreams := [];
              disconnectedNodes := []; started := []; notifications := [];
              console := []; outbound := [] |};
|}.

(** *** Assignments *)

Definition set_capture (c : CaptureRefs) (st : State) : State :=
  {| capture := c; playback := playback st; vad := vad st;
     view := view st; world := world st |}.

Definition set_playback (p : PlaybackRefs) (st : State) : State :=
  {| capture := capture st; playback := p; vad := vad st;
     view := view st; world := world st |}.

Definition set_vad (v : VadRefs) (st : State) : State :=
  {| capture := capture st; playback := playback st; vad := v;
     view := view st; world := world st |}.

Definition set_view (v : ReactState) (st : State) : State :=
  {| capture := capture st; playback := playback st; vad := vad st;
     view := v; world := world st |}.

Definition set_world (w : World) (st : State) : State :=
  {| capture := capture st; playback := playback st; vad := vad st;
     view := view st; world := w |}.

Definition setMicPermission (m : MicPermission) (st : State) : State :=
  set_view {| micPermission := m;
              isUserSpeaking := isUserSpeaking (view st);
              isAiSpeaking := isAiSpeaking (view st) |} st.

Definition setIsUserSpeaking (v : bool) (st : State) : State :=
  set_view {| micPermission := micPermission (view st);
              isUserSpeaking := v;
              isAiSpeaking := isAiSpeaking (view st) |} st.

Definition setIsAiSpeaking (v : bool) (st : State) : State :=
  set_view {| micPermission := micPermission (view st);
              isUserSpeaking := isUserSpeaking (view st);
              isAiSpeaking := v |} st.

(** *** Calls into the platform and the caller *)

(** Creating a context, a stream or a node: the new object's number. *)
Definition create (st : State) : nat * State :=
  let w := world st in
  (objects w,
   set_world {| objects := S (objects w);
                closedContexts := closedContexts w;
                stoppedStreams := stoppedStreams w;
                disconnectedNodes := disconnectedNodes w;
                started := started w;
                notifications := notifications w;
                console := console w;
                outbound := outbound w |} st).

Definition closeContext (ctx : nat) (st : State) : State :=
  let w := world st in
  set_world {| objects := objects w;
               closedContexts := closedContexts w ++ [ctx];
               stoppedStreams := stoppedStreams w;
               disconnectedNodes := disconnectedNodes w;
               started := started w;
               notifications := notifications w;
               console := console w;
               outbound := outbound w |} st.

Definition stopTracks (stream : nat) (st : State) : State :=
  let w := world st in
  set_world {| objects := objects w;
               closedContexts := closedContexts w;
               stoppedStreams := stoppedStreams w ++ [stream];
               disconnectedNodes := disconnectedNodes w;
               started := started w;
               notifications := notifications w;
               console := console w;
               outbound := outbound w |} st.

Definition disconnectNode (node : nat) (st : State) : State :=
  let w := world st in
  set_world {| objects := objects w;
               closedContexts := closedContexts w;
               stoppedStreams := stoppedStreams w;
               disconnectedNodes := disconnectedNodes w ++ [node];
               started := started w;
               notifications := notifications w;
               console := console w;
               outbound := outbound w |} st.

Definition startSource (s : ScheduledSource) (st : State) : State :=
  let w := world st in
  set_world {| objects := objects w;
               closedContexts := closedContexts w;
               stoppedStreams := stoppedStreams w;
               disconnectedNodes := disconnectedNodes w;
               started := started w ++ [s];
               notifications := notifications w;
               console := console w;
               outbound := outbound w |} st.

Definition notify (n : Notification) (st : State) : State :=
  let w := world st in
  set_world {| objects := objects w;
               closedContexts := closedContexts w;
               stoppedStreams := stoppedStreams w;
               disconnectedNodes := disconnectedNodes w;
               started := started w;
               notifications := notifications w ++ [n];
               console := console w;
               outbound := outbound w |} st.

Definition consoleLog (e : ConsoleEntry) (st : State) : State :=
  let w := world st in
  set_world {| objects := objects w;
               closedContexts := closedContexts w;
               stoppedStreams := stoppedStreams w;
               disconnectedNodes := disconnectedNodes w;
               started := started w;
               notifications := notifications w;
               console := console w ++ [e];
               outbound := outbound w |} st.

Definition sendAudio (frame : Resampler.Float32Array) (st : State) : State :=
  let w := world st in
  set_world {| objects := objects w;
               closedContexts := closedContexts w;
               stoppedStreams := stoppedStreams w;
               disconnectedNodes := disconnectedNodes w;
               started := started w;
               notifications := notifications w;
               console := console w;
               outbound := outbound w ++ [frame] |} st.

(** *** The hook's functions *)

(** Lines 62-69. *)
Definition setUserSpeaking (opts : Options) (v : bool) (st : State)
  : State :=
  let st :=
    set_vad {| lastSpeakTimeRef := lastSpeakTimeRef (vad st);
               isUserSpeakingRef := v |} st in
  let st := setIsUserSpeaking v st in
  if onUserSpeakingChange opts then notify (UserSpeakingChange v) st else st.

(** [setIsAiSpeaking(v); onAiSpeakingChange?.(v)]. *)
Definition signalAiSpeaking (opts : Options) (v : bool) (st : State)
  : State :=
  let st := setIsAiSpeaking v st in
  if onAiSpeakingChange opts then notify (AiSpeakingChange v) st else st.

(** Lines 71-99.  [now] is the reading of [ctx.currentTime]. *)
Definition playNextInQueue (opts : Options) (ctx : nat) (now : Q)
    (st : State) : State :=
  let p := playback st in
  match playbackQueueRef p with
  | [] =>
      let st :=
        set_playback {| playbackQueueRef := [];
                        isPlayingRef := false;
                        nextPlayTimeRef := nextPlayTimeRef p;
                        playbackContextRef := playbackContextRef p |} st in
      signalAiSpeaking opts false st
  | buffer :: rest =>
      let '(_, st) := create st in
      let start := Qmax now (nextPlayTimeRef p) in
      let st :=
        startSource {| sourceContext := ctx; sourceBuffer := buffer;
                       startTime := start |} st in
      let st :=
        set_playback {| playbackQueueRef := rest;
                        isPlayingRef := true;
                        nextPlayTimeRef := start + duration buffer;
                        playbackContextRef := playbackContextRef p |} st in
      signalAiSpeaking opts true st
  end.

(** Line 119: [int16[i] / 32768], as stored into [samples[i]]. *)
Definition normalized (x : Z) : spec_float :=
  fround (number_div (number_of_Z x) (number_of_Z 32768)).

(** Lines 111-124: the samples of a frame; [None] is the branch that
    warns and returns. *)
Definition decodeSamples (data : ArrayBuffer)
  : Completion (option (list spec_float)) :=
  if (byteLength data mod 4 =? 0)%Z then
    match newFloat32Array data with
    | Normal samples => Normal (Some samples)
    | Throw e => Throw e
    end
  else if (byteLength data mod 2 =? 0)%Z then
    match newInt16Array data with
    | Normal int16 =>
        Normal (Some (map normalized int16))
    | Throw e => Throw e
    end
  else Normal None.

Section Platform.

(** The sample rates [createBuffer] accepts depend on the browser. *)
Variable supportedRate : Q -> bool.

(** [ctx.createBuffer(numberOfChannels, length, sampleRate)]: a
    zero-filled buffer; a zero count or length, or a rate outside the
    supported range, is a [NotSupportedError]. *)
Definition createBuffer (numberOfChannels length : nat) (rate : Q)
  : Completion AudioBuffer :=
  if (numberOfChannels =? 0)%nat || (length =? 0)%nat
     || negb (supportedRate rate)
  then Throw NotSupportedError
  else Normal {| channelData := replicate length (S754_zero false);
                 sampleRate := rate |}.

(** Lines 103-142.  [sampleRate = None] is a call without the second
    argument; [now] is the reading of [ctx.currentTime], should
    [playNextInQueue] be reached. *)
Definition playAudioChunk (opts : Options) (data : ArrayBuffer)
    (sampleRate : option Q) (now : Q) (st : State)
  : Completion unit * State :=
  let rate := default CAPTURE_SAMPLE_RATE sampleRate in
  let '(ctx, st) :=
    match audioContextRef (capture st) with
    | Some c => (c, st)
    | None =>
        match playbackContextRef (playback st) with
        | Some c => (c, st)
        | None =>
            let '(c, st) := create st in
            let p := playback st in
            (c, set_playback
                  {| playbackQueueRef := playbackQueueRef p;
                     isPlayingRef := isPlayingRef p;
                     nextPlayTimeRef := nextPlayTimeRef p;
                     playbackContextRef := Some c |} st)
        end
    end in
  match decodeSamples data with
  | Throw e => (Throw e, st)
  | Normal None =>
      (Normal tt,
       consoleLog (ConsoleWarn "Unknown audio format, skipping chunk") st)
  | Normal (Some samples) =>
      match createBuffer 1 (length samples) rate with
      | Throw e => (Throw e, st)
      | Normal buffer =>
          match typedArraySet (channelData buffer) samples with
          | Throw e => (Throw e, st)
          | Normal filled =>
              let buffer :=
                {| channelData := filled;
                   sampleRate := Audio.sampleRate buffer |} in
              let p := playback st in
              let st :=
                set_playback
                  {| playbackQueueRef := playbackQueueRef p ++ [buffer];
                     isPlayingRef := isPlayingRef p;
                     nextPlayTimeRef := nextPlayTimeRef p;
                     playbackContextRef := playbackContextRef p |} st in
              if isPlayingRef p then (Normal tt, st)
              else
                (Normal tt,
                 playNextInQueue opts ctx now
                   (signalAiSpeaking opts true st))
          end
      end
  end.

End Platform.

(** Lines 166-168: the mean of the squares, and its square root. *)
Definition meanSquare (input : list Q) : Q :=
  fold_left (fun sum s => sum + s * s) input 0
  / inject_Z (Z.of_nat (length input)).

Definition rms (input : list Q) : R := sqrt (Q2R (meanSquare input)).

(** [rms > volumeThreshold], decided on the squares (the threshold is
    not negative); [isLoud_rms] below relates it to [rms].  The test is
    exact here; [Hook.rms] below is the binary64 value the code
    compares with the literal [0.01]. *)
Definition isLoud (input : list Q) : bool :=
  negb (Qle_bool (meanSquare input) (volumeThreshold * volumeThreshold)).

(** Lines 163-184, the handler of the processor node.  [now] is the
    reading of [Date.now()].  The resampler always returns for these two
    rates ([capture_downsample_defined] below). *)
Definition onaudioprocess (opts : Options) (input : list Q) (now : Z)
    (st : State) : State :=
  let st :=
    if isLoud input then
      let st :=
        set_vad {| lastSpeakTimeRef := now;
                   isUserSpeakingRef := isUserSpeakingRef (vad st) |} st in
      if isUserSpeakingRef (vad st) then st
      else setUserSpeaking opts true st
    else st in
  if isConnected opts then
    match Resampler.downsample input captureContextRate CAPTURE_SAMPLE_RATE with
    | Some downsampled => sendAudio downsampled st
    | None => st
    end
  else st.

(** The outcome of [navigator.mediaDevices.getUserMedia].  [Resolved] is
    a run of the [try] block in which no later call throws either;
    [Hook.startCapture] below has the runs in which one does. *)
Inductive UserMedia := Resolved | Rejected.

(** Lines 144-198, from the moment the promise of [getUserMedia]
    settles.  The connections between the nodes are not recorded. *)
Definition startCapture (media : UserMedia) (st : State) : bool * State :=
  match media with
  | Resolved =>
      let '(stream, st) := create st in
      let st := setMicPermission granted st in
      let c := capture st in
      let st :=
        set_capture {| audioContextRef := audioContextRef c;
                       sourceRef := sourceRef c;
                       processorRef := processorRef c;
                       streamRef := Some stream |} st in
      let '(ctx, st) := create st in
      let c := capture st in
      let st :=
        set_capture {| audioContextRef := Some ctx;
                       sourceRef := sourceRef c;
                       processorRef := processorRef c;
                       streamRef := streamRef c |} st in
      let '(source, st) := create st in
      let c := capture st in
      let st :=
        set_capture {| audioContextRef := audioContextRef c;
                       sourceRef := Some source;
                       processorRef := processorRef c;
                       streamRef := streamRef c |} st in
      let '(processor, st) := create st in
      let c := capture st in
      let st :=
        set_capture {| audioContextRef := audioContextRef c;
                       sourceRef := sourceRef c;
                       processorRef := Some processor;
                       streamRef := streamRef c |} st in
      let '(_, st) := create st in
      (true, st)
  | Rejected =>
      let st := consoleLog (ConsoleError "Failed to start audio capture:") st in
      let st := setMicPermission denied st in
      (false, st)
  end.

(** Lines 200-223. *)
Definition stopCapture (opts : Options) (st : State) : State :=
  let st :=
    match processorRef (capture st) with
    | Some processor =>
        let st := disconnectNode processor st in
        let c := capture st in
        set_capture {| audioContextRef := audioContextRef c;
                       sourceRef := sourceRef c;
                       processorRef := None;
                       streamRef := streamRef c |} st
    | None => st
    end in
  let st :=
    match sourceRef (capture st) with
    | Some source =>
        let st := disconnectNode source st in
        let c := capture st in
        set_capture {| audioContextRef := audioContextRef c;
                       sourceRef := None;
                       processorRef := processorRef c;
                       streamRef := streamRef c |} st
    | None => st
    end in
  let st :=
    match streamRef (capture st) with
    | Some stream =>
        let st := stopTracks stream st in
        let c := capture st in
        set_capture {| audioContextRef := audioContextRef c;
                       sourceRef := sourceRef c;
                       processorRef := processorRef c;
                       streamRef := None |} st
    | None => st
    end in
  let st :=
    match audioContextRef (capture st) with
    | Some ctx =>
        let st := closeContext ctx st in
        let c := capture st in
        set_capture {| audioContextRef := None;
                       sourceRef := sourceRef c;
                       processorRef := processorRef c;
                       streamRef := streamRef c |} st
    | None => st
    end in
  let p := playback st in
  let st :=
    set_playback {| playbackQueueRef := [];
                    isPlayingRef := isPlayingRef p;
                    nextPlayTimeRef := nextPlayTimeRef p;
                    playbackContextRef := playbackContextRef p |} st in
  let st :=
    match playbackContextRef (playback st) with
    | Some ctx =>
        let st := closeContext ctx st in
        let p := playback st in
        set_playback {| playbackQueueRef := playbackQueueRef p;
                        isPlayingRef := isPlayingRef p;
                        nextPlayTimeRef := nextPlayTimeRef p;
                        playbackContextRef := None |} st
    | None => st
    end in
  setUserSpeaking opts false st.

(** Lines 226-232, one tick of the interval.  [now] is the reading of
    [Date.now()]. *)
Definition checkSilence (opts : Options) (now : Z) (st : State) : State :=
  if (silenceTimeoutMs <? now - lastSpeakTimeRef (vad st))%Z then
    if isUserSpeakingRef (vad st) then setUserSpeaking opts false st
    else st
  else st.

(** *** Runs of the hook *)

(** What can happen to the hook: calls of its functions and the events
    its handlers are registered for.  [SourceEnded k] is the [onended]
    event of the [k]-th source that was started. *)
Inductive Action :=
| PlayAudioChunk (data : ArrayBuffer) (sampleRate : option Q) (now : Q)
| SourceEnded (k : nat) (now : Q)
| StartCapture (media : UserMedia)
| StopCapture
| AudioProcess (input : list Q) (now : Z)
| CheckSilence (now : Z).

Definition step (supportedRate : Q -> bool) (opts : Options)
    (st : State) (a : Action) : State :=
  match a with
  | PlayAudioChunk data rate now =>
      snd (playAudioChunk supportedRate opts data rate now st)
  | SourceEnded k now =>
      match started (world st) !! k with
      | Some s => playNextInQueue opts (sourceContext s) now st
      | None => st
      end
  | StartCapture media => snd (startCapture media st)
  | StopCapture => stopCapture opts st
  | AudioProcess input now => onaudioprocess opts input now st
  | CheckSilence now => checkSilence opts now st
  end.

Definition run (supportedRate : Q -> bool) (opts : Options)
    (actions : list Action) (st : State) : State :=
  fold_left (step supportedRate opts) actions st.

End Audio.

(** ** The transport hook: [usePersonaplexSocket] *)

Module Socket.

Import TypedArrays.

Inductive PersonaplexConnectionStatus :=
| disconnected
| connecting
| connected
| error.

(** [WebSocket.readyState]. *)
Inductive ReadyState := CONNECTING | OPEN | CLOSING | CLOSED.

(** A [WebSocket] object: its state and the messages handed to its
    [send] so far. *)
Record WebSocket := {
  url : string;
  readyState : ReadyState;
  transmitted : list ArrayBuffer;
}.

(** The options of the hook.  The three callbacks are optional: the
    field says whether the caller passed one. *)
Record Options := {
  uri : string;
  onMessage : bool;
  onConnect : bool;
  onDisconnect : bool;
}.

Inductive Notification :=
| Connected
| Disconnected
| Message (data : ArrayBuffer).

(** The payload of a [message] event. *)
Inductive MessageData :=
| Binary (data : ArrayBuffer)
| Text (data : string).

(** [sockets] holds every socket the hook has created, in the order of
    creation; a socket is referred to by its position. *)
Record State := {
  socketRef : option nat;
  status : PersonaplexConnectionStatus;
  errorMessage : option string;
  sockets : list WebSocket;
  notifications : list Notification;
}.

Definition initial : State := {|
  socketRef := None;
  status := disconnected;
  errorMessage := None;
  sockets := [];
  notifications := [];
|}.

(** *** Assignments *)

Definition set_socketRef (r : option nat) (st : State) : State :=
  {| socketRef := r; status := status st; errorMessage := errorMessage st;
     sockets := sockets st; notifications := notifications st |}.

Definition setStatus (s : PersonaplexConnectionStatus) (st : State)
  : State :=
  {| socketRef := socketRef st; status := s;
     errorMessage := errorMessage st;
     sockets := sockets st; notifications := notifications st |}.

Definition setErrorMessage (m : option string) (st : State) : State :=
  {| socketRef := socketRef st; status := status st; errorMessage := m;
     sockets := sockets st; notifications := notifications st |}.

Definition set_sockets (l : list WebSocket) (st : State) : State :=
  {| socketRef := socketRef st; status := status st;
     errorMessage := errorMessage st;
     sockets := l; notifications := notifications st |}.

Definition notify (n : Notification) (st : State) : State :=
  {| socketRef := socketRef st; status := status st;
     errorMessage := errorMessage st;
     sockets := sockets st; notifications := notifications st ++ [n] |}.

(** *** The [WebSocket] interface *)

Definition set_readyState (r : ReadyState) (ws : WebSocket) : WebSocket :=
  {| url := url ws; readyState := r; transmitted := transmitted ws |}.

Definition readyStateOf (st : State) (id : nat) : option ReadyState :=
  readyState <$> sockets st !! id.

(** [new WebSocket(uri)]. *)
Definition newWebSocket (u : string) (st : State) : nat * State :=
  (length (sockets st),
   set_sockets (sockets st ++ [{| url := u; readyState := CONNECTING;
                                  transmitted := [] |}]) st).

(** [ws.close()]: starts the closing handshake unless the socket is
    closing or closed already. *)
Definition wsClose (id : nat) (st : State) : State :=
  match sockets st !! id with
  | Some ws =>
      match readyState ws with
      | CONNECTING | OPEN =>
          set_sockets (<[id := set_readyState CLOSING ws]> (sockets st)) st
      | CLOSING | CLOSED => st
      end
  | None => st
  end.

(** [ws.send(data)] on an open socket. *)
Definition wsSend (id : nat) (data : ArrayBuffer) (st : State) : State :=
  match sockets st !! id with
  | Some ws =>
      set_sockets
        (<[id := {| url := url ws; readyState := readyState ws;
                    transmitted := transmitted ws ++ [data] |}]>
           (sockets st)) st
  | None => st
  end.

(** *** The hook's functions *)

(** Lines 26-60.  The four listeners are [onOpen], [onClose], [onError]
    and [onMessageEvent] below. *)
Definition connect (opts : Options) (st : State) : State :=
  match socketRef st ≫= readyStateOf st with
  | Some OPEN => st
  | _ =>
      let st := setStatus connecting st in
      let st := setErrorMessage None st in
      let '(ws, st) := newWebSocket (uri opts) st in
      set_socketRef (Some ws) st
  end.

(** Lines 37-40. *)
Definition onOpen (opts : Options) (st : State) : State :=
  let st := setStatus connected st in
  if onConnect opts then notify Connected st else st.

(** Lines 42-46. *)
Definition onClose (opts : Options) (st : State) : State :=
  let st := set_socketRef None st in
  let st := setStatus disconnected st in
  if onDisconnect opts then notify Disconnected st else st.

(** Lines 48-51. *)
Definition onError (st : State) : State :=
  let st := setStatus error st in
  setErrorMessage (Some "Connection failed"%string) st.

(** Lines 53-57. *)
Definition onMessageEvent (opts : Options) (data : MessageData)
    (st : State) : State :=
  match data with
  | Binary bytes => if onMessage opts then notify (Message bytes) st else st
  | Text _ => st
  end.

(** Lines 62-70. *)
Definition disconnect (opts : Options) (st : State) : State :=
  let st :=
    match socketRef st with
    | Some ws =>
        let st := wsClose ws st in
        set_socketRef None st
    | None => st
    end in
  let st := setStatus disconnected st in
  let st := setErrorMessage None st in
  if onDisconnect opts then notify Disconnected st else st.

(** Lines 72-82. *)
Definition send (data : ArrayBuffer) (st : State) : bool * State :=
  match socketRef st with
  | Some socket =>
      match readyStateOf st socket with
      | Some OPEN => (true, wsSend socket data st)
      | _ => (false, st)
      end
  | None => (false, st)
  end.

Definition isConnected (st : State) : bool :=
  match status st with connected => true | _ => false end.

(** *** Runs of the hook *)

(** Calls of the hook's functions, and the events of a socket: the
    platform changes the socket's [readyState] and then runs the
    listeners [connect] registered on it. *)
Inductive Action :=
| Connect
| Disconnect
| Send (data : ArrayBuffer)
| OpenEvent (ws : nat)
| CloseEvent (ws : nat)
| ErrorEvent (ws : nat)
| MessageEvent (ws : nat) (data : MessageData).

Definition platform_set (id : nat) (r : ReadyState) (st : State) : State :=
  match sockets st !! id with
  | Some ws => set_sockets (<[id := set_readyState r ws]> (sockets st)) st
  | None => st
  end.

(** [open] comes to a connecting socket, [close] to a socket that is not
    closed yet, [message] to an open one; an event the platform cannot
    raise leaves the state as it is. *)
Definition step (opts : Options) (st : State) (a : Action) : State :=
  match a with
  | Connect => connect opts st
  | Disconnect => disconnect opts st
  | Send data => snd (send data st)
  | OpenEvent ws =>
      match readyStateOf st ws with
      | Some CONNECTING => onOpen opts (platform_set ws OPEN st)
      | _ => st
      end
  | CloseEvent ws =>
      match readyStateOf st ws with
      | Some CLOSED | None => st
      | Some _ => onClose opts (platform_set ws CLOSED st)
      end
  | ErrorEvent ws =>
      match readyStateOf st ws with
      | Some _ => onError st
      | None => st
      end
  | MessageEvent ws data =>
      match readyStateOf st ws with
      | Some OPEN => onMessageEvent opts data st
      | _ => st
      end
  end.

Definition run (opts : Options) (actions : list Action) (st : State)
  : State :=
  fold_left (step opts) actions st.

End Socket.

(** ** Notions used to state the properties *)

Module Bounds.



End Bounds.

Module Timeline.

Import Audio.

(** Every buffer the scheduler has taken so far, in the order it plays
    them: those already started, then those still queued. *)
Definition buffersInOrder (st : State) : list AudioBuffer :=
  map sourceBuffer (started (world st)) ++ playbackQueueRef (playback st).

(** The end of the interval a started source plays in. *)
Definition endTime (s : ScheduledSource) : Q :=
  (startTime s + duration (sourceBuffer s))%Q.

(** Two started sources whose intervals share an instant. *)
Definition overlap (a b : ScheduledSource) : Prop :=
  (startTime a < endTime b /\ startTime b < endTime a)%Q.

(** The invariant of the scheduler, on the started sources, the cursor
    [nextPlayTimeRef] and the queue. *)
Record inOrder (sources : list ScheduledSource) (next : Q)
    (queue : list AudioBuffer) : Prop := {
  ends_by_cursor :
    forall a, a ∈ sources -> (endTime a <= next)%Q;
  starts_after_earlier :
    forall i j a b, (i < j)%nat ->
      sources !! i = Some a -> sources !! j = Some b ->
      (endTime a <= startTime b)%Q;
  durations_not_negative :
    forall b, b ∈ map sourceBuffer sources ++ queue -> (0 <= duration b)%Q;
}.

Definition scheduledInOrder (st : State) : Prop :=
  inOrder (started (world st)) (nextPlayTimeRef (playback st))
          (playbackQueueRef (playback st)).

(** The reading of [Date.now()] at the last loud block of a run (0, the
    initial value of [lastSpeakTimeRef], when there was none). *)
Definition lastLoud (actions : list Action) : Z :=
  fold_left (fun t a =>
               match a with
               | AudioProcess input now => if isLoud input then now else t
               | _ => t
               end) actions 0%Z.

End Timeline.

Module Channel.

Import Socket.

(** The hook holds a socket and that socket is open: the condition
    [send] tests. *)
Definition channelOpen (st : State) : Prop :=
  exists ws, socketRef st = Some ws /\ readyStateOf st ws = Some OPEN.

Definition isOpenEvent (a : Action) : bool :=
  match a with OpenEvent _ => true | _ => false end.

(** How often [onDisconnect] has been called. *)
Definition disconnections (st : State) : nat :=
  length (List.filter
            (fun n => match n with Disconnected => true | _ => false end)
            (notifications st)).

(** Everything handed to some socket's [send] so far. *)
Definition outboundFrames (st : State) : list (list byte) :=
  concat (map transmitted (sockets st)).

(** No socket is open and nothing has been written: the state of the
    sockets as long as no [open] event has come. *)
Definition neverOpened (st : State) : Prop :=
  Forall (fun sock => readyState sock <> OPEN /\ transmitted sock = [])
         (sockets st).

End Channel.

(** ** The page: [Personaplex] *)

Module Personaplex.

(** [OrbState] of the orb component. *)
Inductive OrbState := userSpeaking | aiSpeaking | idle.

(** The two hooks the page holds. *)
Record State := {
  audio : Audio.State;
  socket : Socket.State;
}.

(** Lines 25-28: the socket hook is given [uri] and [onMessage] only. *)
Definition socketOptions (WS_URI : string) : Socket.Options :=
  {| Socket.uri := WS_URI; Socket.onMessage := true;
     Socket.onConnect := false; Socket.onDisconnect := false |}.

(** Lines 33-42: the audio hook is given both callbacks, and the
    [isConnected] of the socket hook. *)
Definition audioOptions (st : State) : Audio.Options :=
  {| Audio.isConnected := Socket.isConnected (socket st);
     Audio.onUserSpeakingChange := true;
     Audio.onAiSpeakingChange := true |}.

(** Lines 46-50. *)
Definition orbState (st : State) : OrbState :=
  if Audio.isUserSpeaking (Audio.view (audio st)) then userSpeaking
  else if Audio.isAiSpeaking (Audio.view (audio st)) then aiSpeaking
  else idle.

(** Lines 56-59. *)
Definition handleDisconnect (WS_URI : string) (st : State) : State :=
  let a := Audio.stopCapture (audioOptions st) (audio st) in
  let s := Socket.disconnect (socketOptions WS_URI) (socket st) in
  {| audio := a; socket := s |}.

(** Lines 14-16 and 44: an inbound frame goes to [playAudioChunk], with
    no sample rate given. *)
Definition handleMessage (supportedRate : Q -> bool)
    (data : list byte) (now : Q) (st : State)
  : TypedArrays.Completion unit * State :=
  let '(outcome, a) :=
    Audio.playAudioChunk supportedRate (audioOptions st) data None now
      (audio st) in
  (outcome, {| audio := a; socket := socket st |}).

End Personaplex.

(** ** Further notions used to state the properties *)

Module Observed.

(** The value of the last [onUserSpeakingChange] call ([false] before the
    first), and of the last [onAiSpeakingChange] call. *)
Definition lastUserSpeaking (ns : list Audio.Notification) : bool :=
  fold_left (fun last n =>
               match n with
               | Audio.UserSpeakingChange v => v
               | _ => last
               end) ns false.

Definition lastAiSpeaking (ns : list Audio.Notification) : bool :=
  fold_left (fun last n =>
               match n with
               | Audio.AiSpeakingChange v => v
               | _ => last
               end) ns false.

(** The payloads [onMessage] was called with, in order. *)
Definition deliveredMessages (st : Socket.State) : list (list byte) :=
  omap (fun n => match n with
                 | Socket.Message data => Some data
                 | _ => None
                 end) (Socket.notifications st).

(** The binary payloads of the [message] events among some actions. *)
Definition binaryPayloads (actions : list Socket.Action) : list (list byte) :=
  omap (fun a => match a with
                 | Socket.MessageEvent _ (Socket.Binary data) => Some data
                 | _ => None
                 end) actions.

End Observed.

Module Invariants.

Import Audio.

(** The React state mirrors the references, and the callbacks the caller
    passed have been told the current value last. *)
Record mirrored (opts : Options) (st : State) : Prop := {
  user_mirrored : isUserSpeaking (view st) = isUserSpeakingRef (vad st);
  ai_mirrored : isAiSpeaking (view st) = isPlayingRef (playback st);
  user_told :
    onUserSpeakingChange opts = true ->
    Observed.lastUserSpeaking (notifications (world st))
    = isUserSpeakingRef (vad st);
  ai_told :
    onAiSpeakingChange opts = true ->
    Observed.lastAiSpeaking (notifications (world st))
    = isPlayingRef (playback st);
}.

(** The cursor is the end of the source started last (0 before the
    first), and nothing waits in the queue while nothing plays. *)
Record cursorAtEnd (st : State) : Prop := {
  cursor_last :
    match last (started (world st)) with
    | Some s => nextPlayTimeRef (playback st) = Timeline.endTime s
    | None => nextPlayTimeRef (playback st) = 0%Q
    end;
  idle_empty :
    isPlayingRef (playback st) = false -> playbackQueueRef (playback st) = [];
}.

End Invariants.

Module SocketInvariants.

Import Socket.

(** The hook refers to the socket created last, if to any; and the status
    and the error message go together. *)
Record coherent (st : State) : Prop := {
  ref_newest :
    forall ws, socketRef st = Some ws -> S ws = length (sockets st);
  error_has_message :
    status st = error -> errorMessage st = Some "Connection failed"%string;
  connecting_has_none : status st = connecting -> errorMessage st = None;
  message_is_fixed :
    errorMessage st = None \/
    errorMessage st = Some "Connection failed"%string;
}.

(** The calls of the hook's own functions, as opposed to the events of
    the platform. *)
Definition isCall (a : Action) : bool :=
  match a with
  | Connect | Disconnect | Send _ => true
  | _ => false
  end.

(** A callback of the socket hook that hands over a message. *)
Definition isMessage (n : Notification) : bool :=
  match n with Message _ => true | _ => false end.

End SocketInvariants.

(** * The audio hook over JavaScript's numbers

    The model above computes with exact rationals.  That is enough for
    what the hook does to its references and callbacks, and for bounds
    that rounding respects.  The lengths the resampler returns, the times
    the scheduler computes and the loudness test depend on the rounding
    itself, so the functions they come from are given once more here,
    over the numbers JavaScript has: IEEE 754 binary64 values, and
    binary32 values for the elements of a [Float32Array].  The operations
    are those of [SpecFloat], rounding to nearest, ties to even.  Calls
    that throw for some arguments are modelled with the exception they
    throw. *)

(** ** Numbers *)

Module Number.

Abbreviation number := (spec_float).

Definition zero : number := S754_zero false.
Definition NaN : number := S754_nan.

(** The number an integer converts to. *)
Definition ofZ (z : Z) : number := binary_normalize 53 1024 z 0 false.
Definition ofNat (n : nat) : number := ofZ (Z.of_nat n).
Definition one : number := ofZ 1.

(** [+], [-], [*], [/] and the comparisons [<] and [<=]. *)
Definition add : number -> number -> number := SFadd 53 1024.
Definition sub : number -> number -> number := SFsub 53 1024.
Definition mul : number -> number -> number := SFmul 53 1024.
Definition div : number -> number -> number := SFdiv 53 1024.
Definition lt : number -> number -> bool := SFltb.
Definition le : number -> number -> bool := SFleb.

Definition signed (s : bool) (m : positive) : Z := cond_Zopp s (Zpos m).

(** An element of a [Float32Array] read as a number: the same value, with
    the mantissa of a binary64. *)
Definition widen (x : spec_float) : number :=
  match x with
  | S754_finite s m e => binary_normalize 53 1024 (signed s m) e s
  | _ => x
  end.

(** A number stored into a [Float32Array]: the nearest binary32. *)
Definition fround (x : number) : spec_float :=
  match x with
  | S754_finite s m e => binary_normalize 24 128 (signed s m) e s
  | _ => x
  end.

Definition isNaN (x : number) : bool :=
  match x with S754_nan => true | _ => false end.

Definition isFinite (x : number) : bool :=
  match x with S754_zero _ | S754_finite _ _ _ => true | _ => false end.

Definition signBit (x : number) : bool :=
  match x with
  | S754_zero s | S754_infinity s | S754_finite s _ _ => s
  | S754_nan => false
  end.

(** A number of the binary64 format: the mantissa has 53 digits, or fewer
    at the least exponent. *)
Definition valid (x : number) : bool := valid_binary 53 1024 x.

(** Zero, a positive number or the positive infinity. *)
Definition nonneg (x : number) : bool :=
  match x with
  | S754_zero _ | S754_finite false _ _ | S754_infinity false => true
  | _ => false
  end.

(** A binary32 that is a positive finite number. *)
Definition positiveRate (r : spec_float) : bool :=
  lt zero (widen r) && isFinite (widen r).

(** [ToIntegerOrInfinity]: NaN and the zeros give 0, a finite number is
    truncated towards zero; [None] stands for an infinity. *)
Definition truncate (x : number) : option Z :=
  match x with
  | S754_zero _ | S754_nan => Some 0%Z
  | S754_infinity _ => None
  | S754_finite s m e =>
      Some (if (0 <=? e)%Z then signed s m * 2 ^ e
            else Z.quot (signed s m) (2 ^ (- e)))%Z
  end.

(** [ToIndex]: the integer of a length or an offset; outside
    0 .. 2^53 - 1 it is a [RangeError] ([None]). *)
Definition toIndex (x : number) : option Z :=
  match truncate x with
  | Some k => if (0 <=? k)%Z && (k <=? 2 ^ 53 - 1)%Z then Some k else None
  | None => None
  end.

(** The position a number used as a key of an array denotes: the number
    has to be an integer that is not negative. *)
Definition arrayIndex (k : number) : option Z :=
  match k with
  | S754_zero _ => Some 0%Z
  | S754_finite false m e =>
      if (0 <=? e)%Z then Some (Zpos m * 2 ^ e)%Z
      else if (Zpos m mod 2 ^ (- e) =? 0)%Z then Some (Zpos m / 2 ^ (- e))%Z
      else None
  | _ => None
  end.

(** [a[k]] as an operand of arithmetic: outside the array the read gives
    [undefined], which converts to NaN. *)
Definition readAt (a : list spec_float) (k : number) : number :=
  match arrayIndex k with
  | Some i =>
      match a !! Z.to_nat i with
      | Some x => widen x
      | None => NaN
      end
  | None => NaN
  end.

End Number.

(** The order of the numbers as an order of triples: the comparisons of
    [SpecFloat] look at the sign first, then at the exponent, then at the
    mantissa. *)
Module Order.

Import Number.
Local Open Scope Z_scope.

Definition orderKey (x : number) : Z * Z * Z :=
  match x with
  | S754_nan => (0, 0, 0)
  | S754_zero _ => (0, 0, 0)
  | S754_infinity true => (-2, 0, 0)
  | S754_infinity false => (2, 0, 0)
  | S754_finite true m e => (-1, - e, Zneg m)
  | S754_finite false m e => (1, e, Zpos m)
  end.

Definition keyLe (a b : Z * Z * Z) : Prop :=
  let '(a1, a2, a3) := a in
  let '(b1, b2, b3) := b in
  a1 < b1 \/ (a1 = b1 /\ (a2 < b2 \/ (a2 = b2 /\ a3 <= b3))).

Definition keyLt (a b : Z * Z * Z) : Prop :=
  let '(a1, a2, a3) := a in
  let '(b1, b2, b3) := b in
  a1 < b1 \/ (a1 = b1 /\ (a2 < b2 \/ (a2 = b2 /\ a3 < b3))).

End Order.

(** The functions of [Math] the hook calls. *)
Module Math.

Import Number.

Definition floor (x : number) : number :=
  match x with
  | S754_finite s m e =>
      if (0 <=? e)%Z then x
      else binary_normalize 53 1024 (signed s m / 2 ^ (- e))%Z 0 s
  | _ => x
  end.

(** [Math.max] and [Math.min] of two numbers: NaN if either is NaN, and
    -0 counts as less than +0. *)
Definition max (x y : number) : number :=
  if isNaN x || isNaN y then NaN
  else if lt x y then y
  else if lt y x then x
  else if signBit x then y else x.

Definition min (x y : number) : number :=
  if isNaN x || isNaN y then NaN
  else if lt x y then x
  else if lt y x then y
  else if signBit x then x else y.

Definition sqrt : number -> number := SFsqrt 53 1024.

End Math.

(** ** The hook *)

Module Hook.

Import Number.

Inductive Exception := TypeError | RangeError | NotSupportedError.

Inductive Completion (A : Type) :=
| Normal (a : A)
| Throw (e : Exception).
Arguments Normal {A} a.
Arguments Throw {A} e.

(** The outcome of a call of the typed-array model above. *)
Definition ofTyped {A} (c : TypedArrays.Completion A) : Completion A :=
  match c with
  | TypedArrays.Normal a => Normal a
  | TypedArrays.Throw TypedArrays.RangeError => Throw RangeError
  | TypedArrays.Throw TypedArrays.NotSupportedError => Throw NotSupportedError
  end.

Definition CAPTURE_SAMPLE_RATE : number := ofZ 16000.
Definition CAPTURE_BUFFER_SIZE : Z := 2048.

(** The literal [0.01]: the binary64 nearest to one hundredth. *)
Definition volumeThreshold : number :=
  S754_finite false 5764607523034235 (-59).
Definition silenceTimeoutMs : Z := 300.

(** [ctx.sampleRate] of the capture context, created with
    [{ sampleRate: 48000 }]. *)
Definition captureContextRate : number := ofZ 48000.

(** A mono [AudioBuffer].  Its [sampleRate] is a binary32, and its
    [duration] is what the Web Audio interface defines: the length
    divided by the sample rate. *)
Record AudioBuffer := {
  channelData : list spec_float;
  sampleRate : spec_float;
}.

Definition duration (b : AudioBuffer) : number :=
  div (ofNat (length (channelData b))) (widen (sampleRate b)).

(** A buffer source after [source.start(startTime)]; its [onended]
    handler is [playNextInQueue(ctx)] for [ctx = sourceContext]. *)
Record ScheduledSource := {
  sourceContext : nat;
  sourceBuffer : AudioBuffer;
  startTime : number;
}.

Record PlaybackRefs := {
  playbackQueueRef : list AudioBuffer;
  isPlayingRef : bool;
  nextPlayTimeRef : number;
  playbackContextRef : option nat;
}.

(** What the hook does to the platform and to its caller, in the order
    in which it does it.  Contexts, streams and nodes are numbered in the
    order of their creation. *)
Inductive Effect :=
| ClosedContext (ctx : nat)
| StoppedStream (stream : nat)
| DisconnectedNode (node : nat)
| Started (s : ScheduledSource)
| Notified (n : Audio.Notification)
| Logged (e : Audio.ConsoleEntry)
| Sent (frame : list spec_float).

Record State := {
  capture : Audio.CaptureRefs;
  playback : PlaybackRefs;
  vad : Audio.VadRefs;
  view : Audio.ReactState;
  objects : nat;
  effects : list Effect;
}.

Definition initial : State := {|
  capture := {| Audio.audioContextRef := None; Audio.sourceRef := None;
                Audio.processorRef := None; Audio.streamRef := None |};
  playback := {| playbackQueueRef := []; isPlayingRef := false;
                 nextPlayTimeRef := zero; playbackContextRef := None |};
  vad := {| Audio.lastSpeakTimeRef := 0; Audio.isUserSpeakingRef := false |};
  view := {| Audio.micPermission := Audio.unknown;
             Audio.isUserSpeaking := false;
             Audio.isAiSpeaking := false |};
  objects := 0;
  effects := [];
|}.

(** *** What has been done so far *)

Definition started (st : State) : list ScheduledSource :=
  omap (fun e => match e with Started s => Some s | _ => None end)
       (effects st).

Definition notifications (st : State) : list Audio.Notification :=
  omap (fun e => match e with Notified n => Some n | _ => None end)
       (effects st).

Definition console (st : State) : list Audio.ConsoleEntry :=
  omap (fun e => match e with Logged l => Some l | _ => None end)
       (effects st).

Definition outbound (st : State) : list (list spec_float) :=
  omap (fun e => match e with Sent f => Some f | _ => None end)
       (effects st).

Definition closedContexts (st : State) : list nat :=
  omap (fun e => match e with ClosedContext c => Some c | _ => None end)
       (effects st).

Definition stoppedStreams (st : State) : list nat :=
  omap (fun e => match e with StoppedStream s => Some s | _ => None end)
       (effects st).

Definition disconnectedNodes (st : State) : list nat :=
  omap (fun e => match e with DisconnectedNode n => Some n | _ => None end)
       (effects st).

(** *** Assignments *)

Definition set_capture (c : Audio.CaptureRefs) (st : State) : State :=
  {| capture := c; playback := playback st; vad := vad st;
     view := view st; objects := objects st; effects := effects st |}.

Definition set_playback (p : PlaybackRefs) (st : State) : State :=
  {| capture := capture st; playback := p; vad := vad st;
     view := view st; objects := objects st; effects := effects st |}.

Definition set_vad (v : Audio.VadRefs) (st : State) : State :=
  {| capture := capture st; playback := playback st; vad := v;
     view := view st; objects := objects st; effects := effects st |}.

Definition set_view (v : Audio.ReactState) (st : State) : State :=
  {| capture := capture st; playback := playback st; vad := vad st;
     view := v; objects := objects st; effects := effects st |}.

Definition setMicPermission (m : Audio.MicPermission) (st : State) : State :=
  set_view {| Audio.micPermission := m;
              Audio.isUserSpeaking := Audio.isUserSpeaking (view st);
              Audio.isAiSpeaking := Audio.isAiSpeaking (view st) |} st.

Definition setIsUserSpeaking (v : bool) (st : State) : State :=
  set_view {| Audio.micPermission := Audio.micPermission (view st);
              Audio.isUserSpeaking := v;
              Audio.isAiSpeaking := Audio.isAiSpeaking (view st) |} st.

Definition setIsAiSpeaking (v : bool) (st : State) : State :=
  set_view {| Audio.micPermission := Audio.micPermission (view st);
              Audio.isUserSpeaking := Audio.isUserSpeaking (view st);
              Audio.isAiSpeaking := v |} st.

(** *** Calls into the platform and the caller *)

(** Creating a context, a stream or a node: the new object's number. *)
Definition create (st : State) : nat * State :=
  (objects st,
   {| capture := capture st; playback := playback st; vad := vad st;
      view := view st; objects := S (objects st); effects := effects st |}).

Definition emit (e : Effect) (st : State) : State :=
  {| capture := capture st; playback := playback st; vad := vad st;
     view := view st; objects := objects st; effects := effects st ++ [e] |}.

(** *** The resampler *)

Section Platform.

(** Whether the platform can allocate an array of so many elements, and
    the sample rates its [createBuffer] accepts: both depend on the
    browser. *)
Variable allocates : Z -> bool.
Variable supportedRate : spec_float -> bool.

(** [new Float32Array(n)] for a number [n]: zero samples; a length that
    is not an index, or too long an array, is a [RangeError]. *)
Definition newFloat32Array (n : number) : Completion (list spec_float) :=
  match toIndex n with
  | Some k =>
      if (k =? 0)%Z || allocates k
      then Normal (replicate (Z.to_nat k) zero)
      else Throw RangeError
  | None => Throw RangeError
  end.

(** The body of the loop, lines 20-25: the number assigned to
    [output[i]], before the store rounds it. *)
Definition interpolate (input : list spec_float) (ratio : number) (i : nat)
  : number :=
  let srcIndex := mul (ofNat i) ratio in
  let srcIndexFloor := Math.floor srcIndex in
  let srcIndexCeil :=
    Math.min (add srcIndexFloor one) (sub (ofNat (length input)) one) in
  let frac := sub srcIndex srcIndexFloor in
  add (mul (readAt input srcIndexFloor) (sub one frac))
      (mul (readAt input srcIndexCeil) frac).

(** [for (let i = ...; i < outputLength; i++) output[i] = ...], with [n]
    the number of iterations that remain. *)
Fixpoint downsample_loop (input : list spec_float) (ratio : number)
    (n i : nat) (output : list spec_float) : list spec_float :=
  match n with
  | O => output
  | S n' =>
      downsample_loop input ratio n' (S i)
        (<[i := fround (interpolate input ratio i)]> output)
  end.

(** Lines 10-29.  The loop runs while [i < outputLength]: that is once
    for each element of [output], whose length is the integer of
    [outputLength], or 0 when [outputLength] is NaN. *)
Definition downsample (input : list spec_float)
    (sourceRate targetRate : number) : Completion (list spec_float) :=
  let ratio := div sourceRate targetRate in
  let outputLength := Math.floor (div (ofNat (length input)) ratio) in
  match newFloat32Array outputLength with
  | Normal output =>
      Normal (downsample_loop input ratio (length output) 0 output)
  | Throw e => Throw e
  end.

(** *** The hook's functions *)

(** Lines 62-69. *)
Definition setUserSpeaking (opts : Audio.Options) (v : bool) (st : State)
  : State :=
  let st :=
    set_vad {| Audio.lastSpeakTimeRef := Audio.lastSpeakTimeRef (vad st);
               Audio.isUserSpeakingRef := v |} st in
  let st := setIsUserSpeaking v st in
  if Audio.onUserSpeakingChange opts
  then emit (Notified (Audio.UserSpeakingChange v)) st else st.

(** [setIsAiSpeaking(v); onAiSpeakingChange?.(v)]. *)
Definition signalAiSpeaking (opts : Audio.Options) (v : bool) (st : State)
  : State :=
  let st := setIsAiSpeaking v st in
  if Audio.onAiSpeakingChange opts
  then emit (Notified (Audio.AiSpeakingChange v)) st else st.

(** [source.start(when)]: a [when] that is not finite is a [TypeError], a
    negative one a [RangeError]. *)
Definition startable (when : number) : Completion unit :=
  if negb (isFinite when) then Throw TypeError
  else if lt when zero then Throw RangeError
  else Normal tt.

(** Lines 71-99.  [now] is the reading of [ctx.currentTime].  When
    [source.start] throws, the buffer has left the queue and nothing
    after the call has run. *)
Definition playNextInQueue (opts : Audio.Options) (ctx : nat) (now : number)
    (st : State) : Completion unit * State :=
  let p := playback st in
  match playbackQueueRef p with
  | [] =>
      let st :=
        set_playback {| playbackQueueRef := [];
                        isPlayingRef := false;
                        nextPlayTimeRef := nextPlayTimeRef p;
                        playbackContextRef := playbackContextRef p |} st in
      (Normal tt, signalAiSpeaking opts false st)
  | buffer :: rest =>
      let st :=
        set_playback {| playbackQueueRef := rest;
                        isPlayingRef := isPlayingRef p;
                        nextPlayTimeRef := nextPlayTimeRef p;
                        playbackContextRef := playbackContextRef p |} st in
      let '(_, st) := create st in
      let start := Math.max now (nextPlayTimeRef p) in
      match startable start with
      | Throw e => (Throw e, st)
      | Normal _ =>
          let st :=
            emit (Started {| sourceContext := ctx; sourceBuffer := buffer;
                             startTime := start |}) st in
          let st :=
            set_playback {| playbackQueueRef := rest;
                            isPlayingRef := true;
                            nextPlayTimeRef := add start (duration buffer);
                            playbackContextRef := playbackContextRef p |}
                         st in
          (Normal tt, signalAiSpeaking opts true st)
      end
  end.

(** [ctx.createBuffer(numberOfChannels, length, sampleRate)]: the rate is
    converted to a binary32, and one that is not finite is a [TypeError];
    a zero count or length, or a rate the platform does not support, is a
    [NotSupportedError]. *)
Definition createBuffer (numberOfChannels length : nat) (rate : number)
  : Completion AudioBuffer :=
  let r := fround rate in
  if negb (isFinite r) then Throw TypeError
  else if (numberOfChannels =? 0)%nat || (length =? 0)%nat
          || negb (supportedRate r)
  then Throw NotSupportedError
  else Normal {| channelData := replicate length zero; sampleRate := r |}.

(** Lines 103-142.  [sampleRate = None] is a call without the second
    argument; [now] is the reading of [ctx.currentTime], should
    [playNextInQueue] be reached. *)
Definition playAudioChunk (opts : Audio.Options) (data : list byte)
    (sampleRate : option number) (now : number) (st : State)
  : Completion unit * State :=
  let rate := default CAPTURE_SAMPLE_RATE sampleRate in
  let '(ctx, st) :=
    match Audio.audioContextRef (capture st) with
    | Some c => (c, st)
    | None =>
        match playbackContextRef (playback st) with
        | Some c => (c, st)
        | None =>
            let '(c, st) := create st in
            let p := playback st in
            (c, set_playback
                  {| playbackQueueRef := playbackQueueRef p;
                     isPlayingRef := isPlayingRef p;
                     nextPlayTimeRef := nextPlayTimeRef p;
                     playbackContextRef := Some c |} st)
        end
    end in
  match ofTyped (Audio.decodeSamples data) with
  | Throw e => (Throw e, st)
  | Normal None =>
      (Normal tt,
       emit (Logged (Audio.ConsoleWarn "Unknown audio format, skipping chunk"))
            st)
  | Normal (Some samples) =>
      match createBuffer 1 (length samples) rate with
      | Throw e => (Throw e, st)
      | Normal buffer =>
          match ofTyped (TypedArrays.typedArraySet (channelData buffer)
                           samples) with
          | Throw e => (Throw e, st)
          | Normal filled =>
              let buffer :=
                {| channelData := filled;
                   sampleRate := Hook.sampleRate buffer |} in
              let p := playback st in
              let st :=
                set_playback
                  {| playbackQueueRef := playbackQueueRef p ++ [buffer];
                     isPlayingRef := isPlayingRef p;
                     nextPlayTimeRef := nextPlayTimeRef p;
                     playbackContextRef := playbackContextRef p |} st in
              if isPlayingRef p then (Normal tt, st)
              else playNextInQueue opts ctx now (signalAiSpeaking opts true st)
          end
      end
  end.

(** Lines 166-168: [input.reduce((sum, s) => sum + s * s, 0)], and the
    [rms] of the block. *)
Definition sumOfSquares (input : list spec_float) : number :=
  fold_left (fun sum s => add sum (mul (widen s) (widen s))) input zero.

Definition rms (input : list spec_float) : number :=
  Math.sqrt (div (sumOfSquares input) (ofNat (length input))).

(** Lines 163-184, the handler of the processor node.  [now] is the
    reading of [Date.now()].  An exception of [downsample] ends the
    handler. *)
Definition onaudioprocess (opts : Audio.Options) (input : list spec_float)
    (now : Z) (st : State) : State :=
  let st :=
    if lt volumeThreshold (rms input) then
      let st :=
        set_vad {| Audio.lastSpeakTimeRef := now;
                   Audio.isUserSpeakingRef :=
                     Audio.isUserSpeakingRef (vad st) |} st in
      if Audio.isUserSpeakingRef (vad st) then st
      else setUserSpeaking opts true st
    else st in
  if Audio.isConnected opts then
    match downsample input captureContextRate CAPTURE_SAMPLE_RATE with
    | Normal downsampled => emit (Sent downsampled) st
    | Throw _ => st
    end
  else st.

(** How far the [try] block of [startCapture] gets: [getUserMedia]
    rejects, or one of the calls after it throws, or none does. *)
Inductive CaptureOutcome :=
| Rejected
| AudioContextThrows
| MediaStreamSourceThrows
| ScriptProcessorThrows
| GainThrows
| ConnectThrows
| Completed.

(** Lines 193-197, the [catch] block. *)
Definition captureFailed (st : State) : bool * State :=
  let st :=
    emit (Logged (Audio.ConsoleError "Failed to start audio capture:")) st in
  let st := setMicPermission Audio.denied st in
  (false, st).

(** Lines 144-198, from the moment the promise of [getUserMedia]
    settles.  The connections between the nodes are not recorded. *)
Definition startCapture (outcome : CaptureOutcome) (st : State)
  : bool * State :=
  match outcome with
  | Rejected => captureFailed st
  | _ =>
      let '(stream, st) := create st in
      let st := setMicPermission Audio.granted st in
      let c := capture st in
      let st :=
        set_capture {| Audio.audioContextRef := Audio.audioContextRef c;
                       Audio.sourceRef := Audio.sourceRef c;
                       Audio.processorRef := Audio.processorRef c;
                       Audio.streamRef := Some stream |} st in
      match outcome with
      | AudioContextThrows => captureFailed st
      | _ =>
          let '(ctx, st) := create st in
          let c := capture st in
          let st :=
            set_capture {| Audio.audioContextRef := Some ctx;
                           Audio.sourceRef := Audio.sourceRef c;
                           Audio.processorRef := Audio.processorRef c;
                           Audio.streamRef := Audio.streamRef c |} st in
          match outcome with
          | MediaStreamSourceThrows => captureFailed st
          | _ =>
              let '(source, st) := create st in
              let c := capture st in
              let st :=
                set_capture
                  {| Audio.audioContextRef := Audio.audioContextRef c;
                     Audio.sourceRef := Some source;
                     Audio.processorRef := Audio.processorRef c;
                     Audio.streamRef := Audio.streamRef c |} st in
              match outcome with
              | ScriptProcessorThrows => captureFailed st
              | _ =>
                  let '(processor, st) := create st in
                  let c := capture st in
                  let st :=
                    set_capture
                      {| Audio.audioContextRef := Audio.audioContextRef c;
                         Audio.sourceRef := Audio.sourceRef c;
                         Audio.processorRef := Some processor;
                         Audio.streamRef := Audio.streamRef c |} st in
                  match outcome with
                  | GainThrows => captureFailed st
                  | _ =>
                      let '(_, st) := create st in
                      match outcome with
                      | ConnectThrows => captureFailed st
                      | _ => (true, st)
                      end
                  end
              end
          end
      end
  end.

(** Lines 201-204, 205-208, 209-212 and 213-216: the four capture
    references are released and cleared in this order. *)
Definition disconnectProcessor (st : State) : State :=
  match Audio.processorRef (capture st) with
  | Some processor =>
      let st := emit (DisconnectedNode processor) st in
      let c := capture st in
      set_capture {| Audio.audioContextRef := Audio.audioContextRef c;
                     Audio.sourceRef := Audio.sourceRef c;
                     Audio.processorRef := None;
                     Audio.streamRef := Audio.streamRef c |} st
  | None => st
  end.

Definition disconnectSource (st : State) : State :=
  match Audio.sourceRef (capture st) with
  | Some source =>
      let st := emit (DisconnectedNode source) st in
      let c := capture st in
      set_capture {| Audio.audioContextRef := Audio.audioContextRef c;
                     Audio.sourceRef := None;
                     Audio.processorRef := Audio.processorRef c;
                     Audio.streamRef := Audio.streamRef c |} st
  | None => st
  end.

Definition stopStream (st : State) : State :=
  match Audio.streamRef (capture st) with
  | Some stream =>
      let st := emit (StoppedStream stream) st in
      let c := capture st in
      set_capture {| Audio.audioContextRef := Audio.audioContextRef c;
                     Audio.sourceRef := Audio.sourceRef c;
                     Audio.processorRef := Audio.processorRef c;
                     Audio.streamRef := None |} st
  | None => st
  end.

Definition closeCaptureContext (st : State) : State :=
  match Audio.audioContextRef (capture st) with
  | Some ctx =>
      let st := emit (ClosedContext ctx) st in
      let c := capture st in
      set_capture {| Audio.audioContextRef := None;
                     Audio.sourceRef := Audio.sourceRef c;
                     Audio.processorRef := Audio.processorRef c;
                     Audio.streamRef := Audio.streamRef c |} st
  | None => st
  end.

(** Line 217 and lines 218-221. *)
Definition clearQueue (st : State) : State :=
  let p := playback st in
  set_playback {| playbackQueueRef := [];
                  isPlayingRef := isPlayingRef p;
                  nextPlayTimeRef := nextPlayTimeRef p;
                  playbackContextRef := playbackContextRef p |} st.

Definition closePlaybackContext (st : State) : State :=
  match playbackContextRef (playback st) with
  | Some ctx =>
      let st := emit (ClosedContext ctx) st in
      let p := playback st in
      set_playback {| playbackQueueRef := playbackQueueRef p;
                      isPlayingRef := isPlayingRef p;
                      nextPlayTimeRef := nextPlayTimeRef p;
                      playbackContextRef := None |} st
  | None => st
  end.

(** Lines 200-223. *)
Definition stopCapture (opts : Audio.Options) (st : State) : State :=
  let st := disconnectProcessor st in
  let st := disconnectSource st in
  let st := stopStream st in
  let st := closeCaptureContext st in
  let st := clearQueue st in
  let st := closePlaybackContext st in
  setUserSpeaking opts false st.

(** Lines 226-232, one tick of the interval.  [now] is the reading of
    [Date.now()]: time values are integers of size at most 8.64e15, below
    2^53, on which the subtraction and the comparison of binary64 are
    those of the integers. *)
Definition checkSilence (opts : Audio.Options) (now : Z) (st : State)
  : State :=
  if (silenceTimeoutMs <? now - Audio.lastSpeakTimeRef (vad st))%Z then
    if Audio.isUserSpeakingRef (vad st) then setUserSpeaking opts false st
    else st
  else st.

(** *** Runs of the hook *)

(** Calls of the hook's functions and the events its handlers are
    registered for.  [SourceEnded k] is the [onended] event of the [k]-th
    source that was started; an exception in a handler ends the
    handler. *)
Inductive Action :=
| PlayAudioChunk (data : list byte) (sampleRate : option number)
    (now : number)
| SourceEnded (k : nat) (now : number)
| StartCapture (outcome : CaptureOutcome)
| StopCapture
| AudioProcess (input : list spec_float) (now : Z)
| CheckSilence (now : Z).

Definition step (opts : Audio.Options) (st : State) (a : Action) : State :=
  match a with
  | PlayAudioChunk data rate now =>
      snd (playAudioChunk opts data rate now st)
  | SourceEnded k now =>
      match started st !! k with
      | Some s => snd (playNextInQueue opts (sourceContext s) now st)
      | None => st
      end
  | StartCapture outcome => snd (startCapture outcome st)
  | StopCapture => stopCapture opts st
  | AudioProcess input now => onaudioprocess opts input now st
  | CheckSilence now => checkSilence opts now st
  end.

Definition run (opts : Audio.Options) (actions : list Action) (st : State)
  : State :=
  fold_left (step opts) actions st.

End Platform.

End Hook.

(** ** Notions used to state the properties of the hook over numbers *)

(** The loudness of a block as the specification words it: the square
    root of the mean of the squares of the samples, compared with one
    hundredth. *)
Module Loudness.

Import Number.

Definition square (x : number) : number := mul x x.

Definition sum (l : list number) : number := fold_left add l zero.

Definition mean (l : list number) : number := div (sum l) (ofNat (length l)).

Definition rootMeanSquare (block : list spec_float) : number :=
  Math.sqrt (mean (map square (map widen block))).

Definition threshold : number := div (ofZ 1) (ofZ 100).

Definition exceedsThreshold (block : list spec_float) : bool :=
  lt threshold (rootMeanSquare block).

End Loudness.

Module Schedule.

Import Number Hook.

(** The clock reading an action comes with, if it has one. *)
Definition clockOf (a : Action) : option number :=
  match a with
  | PlayAudioChunk _ _ now | SourceEnded _ now => Some now
  | _ => None
  end.

(** A reading of [ctx.currentTime]: a number of the format that is not
    NaN. *)
Definition clockReading (now : number) : bool := valid now && negb (isNaN now).

Definition clocksRead (actions : list Action) : Prop :=
  Forall (fun a => match clockOf a with
                   | Some now => clockReading now = true
                   | None => True
                   end) actions.

(** The end of the interval a started source plays in, as the hook
    computes it. *)
Definition endTime (s : ScheduledSource) : number :=
  add (startTime s) (duration (sourceBuffer s)).

(** Two started sources whose intervals share more than an instant. *)
Definition overlap (a b : ScheduledSource) : bool :=
  lt (startTime a) (endTime b) && lt (startTime b) (endTime a).

(** The invariant of the scheduler, on the started sources, the cursor
    [nextPlayTimeRef] and the queue. *)
Record ordered (sources : list ScheduledSource) (cursor : number)
    (queue : list AudioBuffer) : Prop := {
  cursor_time : valid cursor = true /\ nonneg cursor = true;
  ends_by_cursor :
    forall a, a ∈ sources -> le (endTime a) cursor = true;
  starts_after_earlier :
    forall i j a b, (i < j)%nat ->
      sources !! i = Some a -> sources !! j = Some b ->
      le (endTime a) (startTime b) = true;
  queued_rates :
    forall b, b ∈ queue -> positiveRate (sampleRate b) = true;
}.

Definition scheduledInOrder (st : State) : Prop :=
  ordered (started st) (nextPlayTimeRef (playback st))
          (playbackQueueRef (playback st)).

(** The cursor is the end of the source started last, and zero before the
    first. *)
Definition cursorAtEnd (st : State) : Prop :=
  nextPlayTimeRef (playback st)
  = match last (started st) with
    | Some s => endTime s
    | None => zero
    end.

(** The reading of [Date.now()] at the last loud block of a run (0, the
    initial value of [lastSpeakTimeRef], when there was none). *)
Definition loudAt (t : Z) (a : Action) : Z :=
  match a with
  | AudioProcess input now =>
      if Loudness.exceedsThreshold input then now else t
  | _ => t
  end.

Definition lastLoud (actions : list Action) : Z :=
  fold_left loudAt actions 0%Z.

(** The objects a state refers to: those its references hold and those
    its effects name.  An object is new to a state that does not know
    it. *)
Definition held (st : State) : list nat :=
  option_list (Audio.audioContextRef (capture st))
  ++ option_list (Audio.sourceRef (capture st))
  ++ option_list (Audio.processorRef (capture st))
  ++ option_list (Audio.streamRef (capture st))
  ++ option_list (playbackContextRef (playback st)).

Definition named (e : Effect) : list nat :=
  match e with
  | ClosedContext k | StoppedStream k | DisconnectedNode k => [k]
  | Started s => [sourceContext s]
  | Notified _ | Logged _ | Sent _ => []
  end.

Definition known (st : State) : list nat :=
  held st ++ flat_map named (effects st).

(** Every object a state knows was created before: its number is below
    the number of objects created. *)
Definition numbered (st : State) : Prop :=
  Forall (fun k => (k < objects st)%nat) (known st).

(** What [onUserSpeakingChange?.(v)] adds to the notifications. *)
Definition told (opts : Audio.Options) (v : bool) : list Audio.Notification :=
  if Audio.onUserSpeakingChange opts then [Audio.UserSpeakingChange v] else [].

End Schedule.

(** * Properties *)

(** Linear arithmetic over the rationals and over the reals. *)
Ltac qlra := Lqa.lra.
Ltac qnra := Lqa.nra.
Ltac rlra := Lra.lra.

(** ** Resampler *)

Section ResamplerFacts.

Import Resampler.
Local Open Scope Q_scope.

Lemma newFloat32Array_length n a :
  newFloat32Array n = Some a -> length a = Z.to_nat n /\ (0 <= n)%Z.
Proof.
  unfold newFloat32Array. destruct (Z.ltb_spec n 0); [discriminate|].
  intros [= <-]. rewrite length_replicate. auto.
Qed.

Lemma readAt_lookup (a : Float32Array) i x :
  readAt a i = Some x <-> (0 <= i)%Z /\ a !! Z.to_nat i = Some x.
Proof.
  unfold readAt. destruct (Z.ltb_spec i 0); split.
  - discriminate.
  - intros [? _]. lia.
  - auto.
  - tauto.
Qed.

(** Every source index the loop computes lies inside the input. *)
Lemma srcIndexFloor_bounds (len : Z) (ratio : Q) (i : nat) :
  0 < ratio ->
  (Z.of_nat i < Qfloor (inject_Z len / ratio))%Z ->
  (0 <= Qfloor (inject_Z (Z.of_nat i) * ratio) < len)%Z.
Proof.
  intros Hr Hi. split.
  - change 0%Z with (Qfloor 0). apply Qfloor_resp_le.
    apply Qmult_le_0_compat; [|qlra].
    change 0 with (inject_Z 0). rewrite <- Zle_Qle. lia.
  - assert (H1 : inject_Z (Z.of_nat i + 1) <= inject_Z len / ratio).
    { eapply Qle_trans; [|apply Qfloor_le]. rewrite <- Zle_Qle. lia. }
    assert (H2 : inject_Z (Z.of_nat i + 1) * ratio <= inject_Z len).
    { apply (Qmult_le_compat_r _ _ ratio) in H1; [|qlra].
      eapply Qle_trans; [exact H1|].
      unfold Qdiv. rewrite <- Qmult_assoc, (Qmult_comm (/ ratio)).
      rewrite Qmult_inv_r; qlra. }
    rewrite inject_Z_plus in H2.
    assert (H3 : inject_Z (Z.of_nat i) * ratio < inject_Z len).
    { change (inject_Z 1) with 1 in H2. qnra. }
    pose proof (Qfloor_le (inject_Z (Z.of_nat i) * ratio)) as H4.
    rewrite Zlt_Qlt. qlra.
Qed.

Lemma interpolate_defined (input : Float32Array) (ratio : Q) (i : nat) :
  0 < ratio ->
  (Z.of_nat i < Qfloor (inject_Z (Z.of_nat (length input)) / ratio))%Z ->
  let p := inject_Z (Z.of_nat i) * ratio in
  let f := Qfloor p in
  let c := Z.min (f + 1) (Z.of_nat (length input) - 1) in
  exists x_f x_c,
    (0 <= f)%Z /\ input !! Z.to_nat f = Some x_f /\
    (0 <= c)%Z /\ input !! Z.to_nat c = Some x_c /\
    interpolate input ratio i
    = Some (x_f * (1 - (p - inject_Z f)) + x_c * (p - inject_Z f)).
Proof.
  intros Hr Hi p f c.
  destruct (srcIndexFloor_bounds _ _ _ Hr Hi) as [Hf0 Hf1]. fold p f in Hf0, Hf1.
  assert (Hc : (0 <= c < Z.of_nat (length input))%Z) by (unfold c; lia).
  destruct (lookup_lt_is_Some_2 input (Z.to_nat f)) as [x_f Hxf]; [lia|].
  destruct (lookup_lt_is_Some_2 input (Z.to_nat c)) as [x_c Hxc]; [lia|].
  exists x_f, x_c. repeat split; try lia; auto.
  unfold interpolate. fold p. fold f. fold c.
  assert (Rf : readAt input f = Some x_f) by (apply readAt_lookup; auto).
  assert (Rc : readAt input c = Some x_c) by (apply readAt_lookup; split; [lia|auto]).
  rewrite Rf. simpl. rewrite Rc. reflexivity.
Qed.

(** The loop fills the positions [i .. i+n-1] and leaves the rest. *)
Lemma downsample_loop_spec (input : Float32Array) (ratio : Q) (n : nat) :
  forall (i : nat) (output : Float32Array),
    (i + n <= length output)%nat ->
    (forall j, (i <= j < i + n)%nat -> is_Some (interpolate input ratio j)) ->
    exists result,
      downsample_loop input ratio n i output = Some result /\
      length result = length output /\
      (forall j, (i <= j < i + n)%nat ->
                 result !! j = interpolate input ratio j) /\
      (forall j, (j < i)%nat \/ (i + n <= j)%nat -> result !! j = output !! j).
Proof.
  induction n as [|n IH]; intros i output Hlen Hdef.
  - exists output. simpl. repeat split; auto. intros j Hj. lia.
  - destruct (Hdef i) as [v Hv]; [lia|].
    destruct (IH (S i) (<[i:=v]> output)) as (result & Hres & Hl & Hin & Hout).
    { rewrite length_insert. lia. }
    { intros j Hj. apply Hdef. lia. }
    exists result. simpl. rewrite Hv. simpl. rewrite Hres.
    rewrite length_insert in Hl. repeat split; auto.
    + intros j Hj. destruct (decide (j = i)) as [->|Hne].
      * rewrite Hout by lia. rewrite list_lookup_insert_eq by lia. auto.
      * apply Hin. lia.
    + intros j Hj. rewrite Hout by lia.
      apply list_lookup_insert_ne. lia.
Qed.

(** What [downsample] returns for positive rates: it is defined, has
    the computed length, and holds the interpolated value at every index. *)
Lemma downsample_elements (input : Float32Array) (sourceRate targetRate : Q) :
  0 < sourceRate -> 0 < targetRate ->
  let len := Z.of_nat (length input) in
  let ratio := sourceRate / targetRate in
  exists output,
    downsample input sourceRate targetRate = Some output /\
    Z.of_nat (length output) = Qfloor (inject_Z len / ratio) /\
    forall i, (i < length output)%nat ->
      let p := inject_Z (Z.of_nat i) * ratio in
      let f := Qfloor p in
      let c := Z.min (f + 1) (len - 1) in
      let frac := p - inject_Z f in
      exists x_f x_c,
        (0 <= f)%Z /\ input !! Z.to_nat f = Some x_f /\
        (0 <= c)%Z /\ input !! Z.to_nat c = Some x_c /\
        output !! i = Some (x_f * (1 - frac) + x_c * frac).
Proof.
  intros Hs Ht len ratio.
  assert (Hr : 0 < ratio).
  { unfold ratio. apply Qlt_shift_div_l; qlra. }
  assert (Hn : (0 <= Qfloor (inject_Z len / ratio))%Z).
  { change 0%Z with (Qfloor 0). apply Qfloor_resp_le.
    apply Qle_shift_div_l; [exact Hr|]. rewrite Qmult_0_l.
    change 0 with (inject_Z 0). rewrite <- Zle_Qle. lia. }
  unfold downsample. fold len. fold ratio.
  set (n := Qfloor (inject_Z len / ratio)) in *.
  unfold newFloat32Array. destruct (Z.ltb_spec n 0) as [?|_]; [lia|]. simpl.
  destruct (downsample_loop_spec input ratio (Z.to_nat n) 0
              (replicate (Z.to_nat n) 0))
    as (result & Hres & Hl & Hin & _).
  { rewrite length_replicate. lia. }
  { intros j Hj.
    destruct (interpolate_defined input ratio j Hr) as (a & b & H).
    - fold len. fold n. lia.
    - destruct H as (_ & _ & _ & _ & ->). eauto. }
  rewrite length_replicate in Hl.
  exists result. split; [exact Hres|]. split; [lia|].
  intros i Hi. cbv zeta.
  destruct (interpolate_defined input ratio i Hr) as (a & b & H0 & H1 & H2 & H3 & H4).
  { fold len. fold n. lia. }
  exists a, b. repeat split; auto.
  rewrite Hin by lia. exact H4.
Qed.







Lemma downsample_empty (sourceRate targetRate : Q) :
  downsample [] sourceRate targetRate = Some [].
Proof.
  unfold downsample. simpl length.
  assert (E : Qfloor (inject_Z (Z.of_nat 0) / (sourceRate / targetRate)) = 0%Z).
  { rewrite (Qfloor_comp _ 0); [reflexivity|].
    unfold Qdiv. simpl inject_Z. apply Qmult_0_l. }
  rewrite E. reflexivity.
Qed.



(** Resampling a block of one constant value gives that value. *)
Lemma downsample_constant (input : Float32Array) (sourceRate targetRate v : Q) :
  0 < sourceRate -> 0 < targetRate ->
  (forall x, x ∈ input -> x == v) ->
  exists output,
    downsample input sourceRate targetRate = Some output /\
    forall y, y ∈ output -> y == v.
Proof.
  intros Hs Ht Hv.
  destruct (downsample_elements input sourceRate targetRate Hs Ht)
    as (output & Hd & _ & Hel).
  exists output. split; [exact Hd|].
  intros y Hy. apply list_elem_of_lookup in Hy as [i Hi].
  destruct (Hel i) as (a & b & _ & Ha & _ & Hb & Ho).
  { eapply lookup_lt_Some; eauto. }
  cbv zeta in Ho. rewrite Hi in Ho. injection Ho as ->.
  rewrite (Hv a), (Hv b) by (eapply list_elem_of_lookup_2; eauto).
  ring.
Qed.

(** The call the capture handler makes never fails. *)
Lemma capture_downsample_defined (input : Float32Array) :
  is_Some (downsample input Audio.captureContextRate Audio.CAPTURE_SAMPLE_RATE).
Proof.
  destruct (downsample_elements input Audio.captureContextRate
              Audio.CAPTURE_SAMPLE_RATE) as (output & H & _);
    [reflexivity | reflexivity | rewrite H; eauto].
Qed.

End ResamplerFacts.

(** ** Frame codec *)

Section FrameCodecFacts.

Import TypedArrays Audio Timeline.
Local Open Scope Z_scope.

(** *** The value of [int16 / 32768] as stored

    The binary64 quotient and its binary32 store are followed through
    the operations of [SpecFloat]: a 16-bit integer of [d] digits becomes
    a 53-digit mantissa with [53 - d] low zero bits, the division by
    [2^15] only lowers the exponent, and the store drops 29 zero bits. *)

(** Shifting a mantissa left adds to its number of digits. *)
Lemma digits2_iter (p : positive) (k : positive) :
  digits2_pos (Pos.iter xO p k) = (digits2_pos p + k)%positive.
Proof.
  induction k as [|k IH] using Pos.peano_ind.
  - simpl. lia.
  - rewrite Pos.iter_succ. simpl. rewrite IH. lia.
Qed.

(** A canonical mantissa is left as it is. *)
Lemma binary_round_aux_canonical (prec emax : Z) (s : bool) (m : positive) (e : Z) :
  fexp prec emax (Zpos (digits2_pos m) + e) = e ->
  (e <= emax - prec)%Z ->
  binary_round_aux prec emax s (Zpos m) e loc_Exact = S754_finite s m e.
Proof.
  intros Hc He. unfold binary_round_aux, shr_fexp. cbn [Zdigits2 shr_record_of_loc].
  change (Z.add (Zpos (digits2_pos m)) e) with (Zpos (digits2_pos m) + e)%Z.
  change (Z.sub (fexp prec emax (Zpos (digits2_pos m) + e)) e) with (fexp prec emax (Zpos (digits2_pos m) + e) - e)%Z.
  rewrite Hc, Z.sub_diag. cbn [shr shr_m loc_of_shr_record round_nearest_even Zdigits2 shr_record_of_loc].
  change (Z.add (Zpos (digits2_pos m)) e) with (Zpos (digits2_pos m) + e)%Z.
  change (Z.sub (fexp prec emax (Zpos (digits2_pos m) + e)) e) with (fexp prec emax (Zpos (digits2_pos m) + e) - e)%Z.
  rewrite Hc, Z.sub_diag. cbn [shr shr_m].
  change (Z.sub emax prec) with (emax - prec)%Z.
  rewrite (proj2 (Z.leb_le _ _) He). reflexivity.
Qed.

Lemma number_of_Z_signed (s : bool) (p k : positive) :
  (digits2_pos p + k = 53)%positive ->
  number_of_Z (signed s p) = S754_finite s (Pos.iter xO p k) (Zneg k).
Proof.
  intros Hk.
  assert (Hf : fexp 53 1024 (Zpos (digits2_pos p) + 0) = Zneg k).
  { unfold fexp, emin. lia. }
  assert (Hr : binary_round 53 1024 s p 0 = S754_finite s (Pos.iter xO p k) (Zneg k)).
  { unfold binary_round, shl_align.
    change (Z.add (Zpos (digits2_pos p)) 0) with (Zpos (digits2_pos p) + 0)%Z.
    rewrite Hf. cbn [Z.sub Z.add Z.opp Z.pos_sub].
    apply binary_round_aux_canonical; [|lia].
    rewrite digits2_iter. unfold fexp, emin. lia. }
  unfold number_of_Z, signed, binary_normalize. destruct s; exact Hr.
Qed.

Lemma number_of_32768 :
  number_of_Z 32768 = S754_finite false 4503599627370496 (-37).
Proof. reflexivity. Qed.

(** Dividing a normal binary64 number by 2^15 lowers its exponent. *)
Lemma number_div_32768 (s : bool) (m : positive) (e : Z) :
  digits2_pos m = 53%positive ->
  (-1000 <= e <= 0)%Z ->
  number_div (S754_finite s m e) (number_of_Z 32768)
  = S754_finite s m (e - 15).
Proof.
  intros Hd He. rewrite number_of_32768. unfold number_div, SFdiv.
  assert (Hcore : SFdiv_core_binary 53 1024 (Zpos m) e
                    (Zpos 4503599627370496) (-37)
                  = (Zpos m~0, (e - 16)%Z, loc_Exact)).
  { unfold SFdiv_core_binary. cbn [Zdigits2]. rewrite Hd.
    change (digits2_pos 4503599627370496) with 53%positive.
    assert (He' : Z.min (fexp 53 1024 (Z.sub (Z.add 53 e) (Z.add 53 (-37))))
                        (Z.sub e (-37)) = (e - 16)%Z).
    { unfold fexp, emin. lia. }
    rewrite He'.
    replace (Z.sub (Z.sub e (-37)) (e - 16)) with 53%Z by lia.
    cbv beta iota zeta.
    rewrite Z.shiftl_mul_pow2 by lia.
    pose proof (Z.div_eucl_eq (Zpos m * 2 ^ 53) 4503599627370496) as Heq.
    pose proof (Z.mod_pos_bound (Zpos m * 2 ^ 53) 4503599627370496) as Hb.
    unfold Z.modulo in Hb.
    destruct (Z.div_eucl (Zpos m * 2 ^ 53) 4503599627370496) as [q r].
    assert (Hq : q = Zpos m~0 /\ r = 0%Z).
    { specialize (Heq ltac:(lia)). specialize (Hb ltac:(lia)).
      change (2 ^ 53)%Z with 9007199254740992%Z in Heq. lia. }
    destruct Hq as [-> ->]. reflexivity. }
  rewrite Hcore. rewrite xorb_false_r.
  unfold binary_round_aux, shr_fexp. cbn [Zdigits2 digits2_pos shr_record_of_loc].
  rewrite Hd.
  replace (Z.sub (fexp 53 1024 (Z.add (Zpos (Pos.succ 53)) (e - 16))) (e - 16))
    with 1%Z by (unfold fexp, emin; lia).
  cbn [shr SpecFloat.iter_pos shr_1 orb shr_m loc_of_shr_record round_nearest_even
       Zdigits2 shr_record_of_loc].
  rewrite Hd.
  replace (Z.add (e - 16) 1) with (e - 15)%Z by lia.
  replace (Z.sub (fexp 53 1024 (Z.add 53 (e - 15))) (e - 15))
    with 0%Z by (unfold fexp, emin; lia).
  cbn [shr shr_m].
  replace (Z.leb (e - 15) (Z.sub 1024 53)) with true
    by (symmetry; apply Z.leb_le; lia).
  reflexivity.
Qed.

Lemma shr_29 (q : positive) :
  SpecFloat.iter_pos shr_1 29 {| shr_m := Zpos (Pos.iter xO q 29); shr_r := false;
                       shr_s := false |}
  = {| shr_m := Zpos q; shr_r := false; shr_s := false |}.
Proof. reflexivity. Qed.

(** Storing a binary64 number whose 29 low bits are zero as binary32. *)
Lemma fround_exact (s : bool) (q : positive) (e : Z) :
  digits2_pos q = 24%positive ->
  (-178 <= e <= 75)%Z ->
  fround (S754_finite s (Pos.iter xO q 29) e) = S754_finite s q (e + 29).
Proof.
  intros Hd He.
  assert (HD : digits2_pos (Pos.iter xO q 29) = 53%positive).
  { rewrite digits2_iter, Hd. reflexivity. }
  assert (Hr : binary_round 24 128 s (Pos.iter xO q 29) e
               = S754_finite s q (e + 29)).
  { unfold binary_round, shl_align. rewrite HD.
    replace (Z.sub (fexp 24 128 (Z.add 53 e)) e) with 29%Z
      by (unfold fexp, emin; lia).
    cbv beta iota.
    unfold binary_round_aux, shr_fexp. cbn [Zdigits2 shr_record_of_loc].
    rewrite HD.
    replace (Z.sub (fexp 24 128 (Z.add 53 e)) e) with 29%Z
      by (unfold fexp, emin; lia).
    cbn [shr]. rewrite shr_29.
    cbn [shr_m loc_of_shr_record round_nearest_even Zdigits2 shr_record_of_loc].
    rewrite Hd.
    replace (Z.sub (fexp 24 128 (Z.add 24 (Z.add e 29))) (Z.add e 29)) with 0%Z
      by (unfold fexp, emin; lia).
    cbn [shr shr_m].
    replace (Z.leb (Z.add e 29) (Z.sub 128 24)) with true
      by (symmetry; apply Z.leb_le; lia).
    reflexivity. }
  unfold fround, binary_normalize. destruct s; exact Hr.
Qed.

Lemma digits2_lower (p : positive) :
  (2 ^ (Zpos (digits2_pos p) - 1) <= Zpos p < 2 ^ Zpos (digits2_pos p))%Z.
Proof.
  induction p as [p IH|p IH|]; cbn [digits2_pos].
  - rewrite Pos2Z.inj_succ.
    replace (Z.succ (Zpos (digits2_pos p)) - 1)%Z
      with (Z.succ (Zpos (digits2_pos p) - 1)) by lia.
    rewrite !Z.pow_succ_r by lia. lia.
  - rewrite Pos2Z.inj_succ.
    replace (Z.succ (Zpos (digits2_pos p)) - 1)%Z
      with (Z.succ (Zpos (digits2_pos p) - 1)) by lia.
    rewrite !Z.pow_succ_r by lia. lia.
  - simpl. lia.
Qed.

(** The stored quotient of a 16-bit integer by 32768. *)
Lemma normalized_signed (s : bool) (p : positive) :
  (Zpos p <= 32768)%Z ->
  exists j : positive,
    (digits2_pos p + j = 24)%positive /\
    normalized (signed s p)
    = S754_finite s (Pos.iter xO p j) (Zpos (digits2_pos p) - 39).
Proof.
  intros Hp.
  assert (Hd : (Zpos (digits2_pos p) <= 16)%Z).
  { destruct (Z.le_gt_cases (Zpos (digits2_pos p)) 16) as [?|Hgt]; [assumption|].
    pose proof (digits2_lower p) as [Hlo _].
    assert (2 ^ 16 <= 2 ^ (Zpos (digits2_pos p) - 1))%Z
      by (apply Z.pow_le_mono_r; lia).
    change (2 ^ 16)%Z with 65536%Z in *. lia. }
  set (d := digits2_pos p) in *.
  exists (24 - d)%positive. split; [lia|].
  unfold normalized.
  rewrite (number_of_Z_signed s p (53 - d)) by (fold d; lia).
  rewrite number_div_32768; [|rewrite digits2_iter; fold d; lia|lia].
  replace (Pos.iter xO p (53 - d)) with (Pos.iter xO (Pos.iter xO p (24 - d)) 29).
  2:{ rewrite <- Pos.iter_add. f_equal. lia. }
  rewrite fround_exact; [|rewrite digits2_iter; fold d; lia|lia].
  f_equal. lia.
Qed.

Lemma signed_iter (s : bool) (p j : positive) :
  signed s (Pos.iter xO p j) = (signed s p * 2 ^ Zpos j)%Z.
Proof.
  assert (H : Zpos (Pos.iter xO p j) = (Zpos p * 2 ^ Zpos j)%Z).
  { induction j as [|j IH] using Pos.peano_ind.
    - simpl. lia.
    - rewrite Pos.iter_succ, Pos2Z.inj_succ, Z.pow_succ_r by lia.
      rewrite Pos2Z.inj_xO, IH. lia. }
  unfold signed. destruct s; cbn [cond_Zopp]; rewrite H; ring.
Qed.

(** Dividing a 16-bit integer by 32768 and storing it as binary32 loses
    nothing. *)
Lemma normalized_value (x : Z) :
  (-32768 <= x <= 32767)%Z ->
  exists q, value_of (normalized x) = Some q /\ (q == x # 32768)%Q.
Proof.
  intros Hx.
  assert (Hs : x = 0%Z \/ exists s p, x = signed s p /\ (Zpos p <= 32768)%Z).
  { destruct x as [|p|p]; [left; reflexivity| |]; right.
    - exists false, p. split; [reflexivity|lia].
    - exists true, p. split; [reflexivity|lia]. }
  destruct Hs as [->|(s & p & -> & Hp)].
  { exists 0%Q. split; reflexivity. }
  destruct (normalized_signed s p Hp) as (j & Hj & ->).
  exists (inject_Z (signed s (Pos.iter xO p j))
          * Qpower 2 (Zpos (digits2_pos p) - 39))%Q.
  split; [reflexivity|].
  rewrite signed_iter, inject_Z_mult.
  rewrite Zpower_Qpower by lia.
  replace (Zpos (digits2_pos p) - 39)%Z with (- (15 + Zpos j))%Z by lia.
  rewrite Qpower_opp, Qpower_plus by discriminate.
  rewrite (Qmake_Qdiv (signed s p) 32768).
  change (inject_Z 2) with 2%Q.
  assert (HJ : ~ (2 ^ Zpos j == 0)%Q).
  { apply Qpower_not_0. discriminate. }
  change (2 ^ 15)%Q with (Qpower 2 15).
  assert (H15 : (Qpower 2 15 == inject_Z 32768)%Q) by reflexivity.
  rewrite H15. field. exact HJ.
Qed.

(** Induction over a list, four elements at a time. *)
Lemma list_ind4 {A} (P : list A -> Prop) :
  (forall l, (length l < 4)%nat -> P l) ->
  (forall a b c d l, P l -> P (a :: b :: c :: d :: l)) ->
  forall l, P l.
Proof.
  intros Hbase Hstep.
  assert (H : forall n l, (length l <= n)%nat -> P l).
  { induction n as [|n IH]; intros l Hl.
    - apply Hbase. lia.
    - destruct l as [|a [|b [|c [|d l]]]]; try (apply Hbase; simpl; lia).
      apply Hstep, IH. simpl in Hl. lia. }
  intros l. apply (H (length l)). lia.
Qed.

Lemma list_ind2 {A} (P : list A -> Prop) :
  (forall l, (length l < 2)%nat -> P l) ->
  (forall a b l, P l -> P (a :: b :: l)) ->
  forall l, P l.
Proof.
  intros Hbase Hstep.
  assert (H : forall n l, (length l <= n)%nat -> P l).
  { induction n as [|n IH]; intros l Hl.
    - apply Hbase. lia.
    - destruct l as [|a [|b l]]; try (apply Hbase; simpl; lia).
      apply Hstep, IH. simpl in Hl. lia. }
  intros l. apply (H (length l)). lia.
Qed.

Lemma float32_elements_length (data : list byte) :
  Z.of_nat (length (float32_elements data)) = byteLength data / 4.
Proof.
  unfold byteLength. induction data as [l Hl|a b c d l IH] using list_ind4.
  - destruct l as [|a [|b [|c [|d l]]]]; simpl in *; try reflexivity; lia.
  - change (float32_elements (a :: b :: c :: d :: l))
      with (float32_of_bits (le_word [a; b; c; d]) :: float32_elements l).
    simpl length. rewrite !Nat2Z.inj_succ, IH.
    replace (Z.succ (Z.succ (Z.succ (Z.succ (Z.of_nat (length l))))))
      with (Z.of_nat (length l) + 1 * 4) by lia.
    rewrite Z.div_add by lia. lia.
Qed.

Lemma int16_elements_length (data : list byte) :
  Z.of_nat (length (int16_elements data)) = byteLength data / 2.
Proof.
  unfold byteLength. induction data as [l Hl|a b l IH] using list_ind2.
  - destruct l as [|a [|b l]]; simpl in *; try reflexivity; lia.
  - change (int16_elements (a :: b :: l))
      with (int16_of_bits (le_word [a; b]) :: int16_elements l).
    simpl length. rewrite !Nat2Z.inj_succ, IH.
    replace (Z.succ (Z.succ (Z.of_nat (length l))))
      with (Z.of_nat (length l) + 1 * 2) by lia.
    rewrite Z.div_add by lia. lia.
Qed.

Lemma byte_range (b : byte) : 0 <= Z.of_N (Byte.to_N b) <= 255.
Proof. pose proof (Byte.to_N_bounded b). lia. Qed.

Lemma int16_of_bits_range (a b : byte) :
  -32768 <= int16_of_bits (le_word [a; b]) <= 32767.
Proof.
  pose proof (byte_range a). pose proof (byte_range b).
  unfold int16_of_bits. cbn [le_word].
  destruct (Z.ltb_spec (Z.of_N (Byte.to_N a) + 256 * (Z.of_N (Byte.to_N b) + 256 * 0)) 32768); lia.
Qed.

Lemma int16_elements_range (data : list byte) :
  Forall (fun x => -32768 <= x <= 32767) (int16_elements data).
Proof.
  induction data as [l Hl|a b l IH] using list_ind2.
  - destruct l as [|a [|b l]]; simpl in *; try constructor; lia.
  - change (int16_elements (a :: b :: l))
      with (int16_of_bits (le_word [a; b]) :: int16_elements l).
    constructor; [apply int16_of_bits_range|exact IH].
Qed.

(** The three branches of the classification. *)
Lemma decodeSamples_float32 (data : list byte) :
  byteLength data mod 4 = 0 ->
  decodeSamples data = Normal (Some (float32_elements data)).
Proof.
  intros H. unfold decodeSamples, newFloat32Array.
  rewrite (proj2 (Z.eqb_eq _ _) H). reflexivity.
Qed.

Lemma decodeSamples_int16 (data : list byte) :
  byteLength data mod 4 <> 0 -> byteLength data mod 2 = 0 ->
  decodeSamples data = Normal (Some (map normalized (int16_elements data))).
Proof.
  intros H4 H2. unfold decodeSamples, newInt16Array.
  rewrite (proj2 (Z.eqb_neq _ _) H4), (proj2 (Z.eqb_eq _ _) H2). reflexivity.
Qed.

Lemma decodeSamples_unknown (data : list byte) :
  byteLength data mod 2 <> 0 ->
  decodeSamples data = Normal None.
Proof.
  intros H2. unfold decodeSamples.
  assert (H4 : byteLength data mod 4 <> 0).
  { intros H4. apply H2.
    rewrite (Z.div_mod (byteLength data) 4) by lia. rewrite H4.
    replace (4 * (byteLength data / 4) + 0) with ((2 * (byteLength data / 4)) * 2) by lia.
    apply Z.mod_mul. lia. }
  rewrite (proj2 (Z.eqb_neq _ _) H4), (proj2 (Z.eqb_neq _ _) H2). reflexivity.
Qed.

(** [playNextInQueue] moves the head of the queue to the started
    sources: the order of the buffers is kept. *)
Lemma buffersInOrder_playNextInQueue opts ctx now st :
  buffersInOrder (playNextInQueue opts ctx now st) = buffersInOrder st.
Proof.
  unfold playNextInQueue, buffersInOrder, signalAiSpeaking.
  destruct (playbackQueueRef (playback st)) as [|b rest] eqn:Hq;
    destruct (onAiSpeakingChange opts); simpl; rewrite ?Hq;
    rewrite ?map_app, <- ?app_assoc; reflexivity.
Qed.

Lemma typedArraySet_full {A} (zero : A) (samples : list A) :
  typedArraySet (replicate (length samples) zero) samples = Normal samples.
Proof.
  unfold typedArraySet. rewrite length_replicate, Nat.leb_refl.
  rewrite drop_ge by (rewrite length_replicate; lia).
  rewrite app_nil_r. reflexivity.
Qed.

(** A frame whose samples decode, are not empty and come at a supported
    rate ends as one more buffer behind those taken before. *)
Lemma playAudioChunk_accepts supportedRate opts data sampleRate now st samples :
  decodeSamples data = Normal (Some samples) ->
  samples <> [] ->
  supportedRate (default CAPTURE_SAMPLE_RATE sampleRate) = true ->
  let result := playAudioChunk supportedRate opts data sampleRate now st in
  fst result = Normal tt /\
  buffersInOrder (snd result)
  = buffersInOrder st
    ++ [{| channelData := samples;
           sampleRate := default CAPTURE_SAMPLE_RATE sampleRate |}].
Proof.
  intros Hd Hne Hrate. unfold playAudioChunk. rewrite Hd.
  unfold createBuffer. rewrite Hrate.
  destruct samples as [|x samples']; [congruence|].
  set (samples := x :: samples') in *.
  change (negb true) with false. cbn [Nat.eqb orb length samples].
  fold samples.
  change (S (length samples')) with (length samples).
  cbn [channelData Audio.sampleRate].
  rewrite typedArraySet_full.
  destruct (audioContextRef (capture st)) as [c|];
    [|destruct (playbackContextRef (playback st)) as [c|]];
    cbn -[playNextInQueue];
    (destruct (isPlayingRef (playback st)); cbn -[playNextInQueue];
     [ split; [reflexivity|]; unfold buffersInOrder; simpl;
       rewrite app_assoc; reflexivity
     | split; [reflexivity|]; rewrite buffersInOrder_playNextInQueue;
       unfold buffersInOrder, signalAiSpeaking;
       destruct (onAiSpeakingChange opts); simpl;
       rewrite app_assoc; reflexivity ]).
Qed.

(** C2.  [playAudioChunk] classifies a frame by its byte length, in this
    order.  Divisible by 4: the bytes are read as binary32 samples, four
    bytes each.  Otherwise divisible by 2: they are read as signed 16-bit
    integers, each divided by 32768 (exactly).  In both cases a frame
    that is not empty, at a supported rate, becomes one more playback
    buffer holding these samples.  Otherwise the call returns normally
    after logging a warning, and no buffer is queued or started. *)
Theorem playAudioChunk_classification
    (supportedRate : Q -> bool) (opts : Options) (data : list byte)
    (sampleRate : option Q) (now : Q) (st : State) :
  let n := byteLength data in
  let rate := default CAPTURE_SAMPLE_RATE sampleRate in
  let result := playAudioChunk supportedRate opts data sampleRate now st in
  let accepted (samples : list spec_float) :=
    samples <> [] -> supportedRate rate = true ->
    fst result = Normal tt /\
    buffersInOrder (snd result)
    = buffersInOrder st ++ [{| channelData := samples; sampleRate := rate |}] in
  (n mod 4 = 0 ->
   decodeSamples data = Normal (Some (float32_elements data)) /\
   Z.of_nat (length (float32_elements data)) = n / 4 /\
   accepted (float32_elements data)) /\
  (n mod 4 <> 0 -> n mod 2 = 0 ->
   decodeSamples data = Normal (Some (map normalized (int16_elements data))) /\
   Z.of_nat (length (int16_elements data)) = n / 2 /\
   Forall (fun x => -32768 <= x <= 32767 /\
                    exists q, value_of (normalized x) = Some q /\
                              (q == x # 32768)%Q)
          (int16_elements data) /\
   accepted (map normalized (int16_elements data))) /\
  (n mod 4 <> 0 -> n mod 2 <> 0 ->
   fst result = Normal tt /\
   console (world (snd result))
   = console (world st)
     ++ [ConsoleWarn "Unknown audio format, skipping chunk"] /\
   buffersInOrder (snd result) = buffersInOrder st /\
   playbackQueueRef (playback (snd result)) = playbackQueueRef (playback st) /\
   started (world (snd result)) = started (world st) /\
   isPlayingRef (playback (snd result)) = isPlayingRef (playback st) /\
   notifications (world (snd result)) = notifications (world st)).
Proof.
  intros n rate result accepted. split; [|split].
  - intros H4. split; [apply decodeSamples_float32, H4|].
    split; [apply float32_elements_length|].
    intros Hne Hrate.
    apply playAudioChunk_accepts; auto using decodeSamples_float32.
  - intros H4 H2. split; [apply decodeSamples_int16; assumption|].
    split; [apply int16_elements_length|]. split.
    + eapply Forall_impl; [apply int16_elements_range|].
      intros x Hx. split; [exact Hx|apply normalized_value, Hx].
    + intros Hne Hrate.
      apply playAudioChunk_accepts; auto using decodeSamples_int16.
  - intros _ H2. subst result. unfold playAudioChunk.
    rewrite (decodeSamples_unknown data H2).
    destruct (audioContextRef (capture st)) as [c|];
      [|destruct (playbackContextRef (playback st)) as [c|]];
      cbn; repeat split; reflexivity.
Qed.

Lemma playAudioChunk_classification_witness :
  let supported := fun r => (Qle_bool 3000 r && Qle_bool r 768000)%bool in
  let opts := {| isConnected := true; onUserSpeakingChange := true;
                 onAiSpeakingChange := true |} in
  let float_frame := [x00; x00; x80; x3f; x00; x00; x00; xbf]%byte in
  let int_frame := [x00; x40]%byte in
  let odd_frame := [x01; x02; x03]%byte in
  (buffersInOrder
     (snd (playAudioChunk supported opts float_frame None 0 initial))
   = [{| channelData := float32_elements float_frame;
         sampleRate := CAPTURE_SAMPLE_RATE |}]) /\
  (buffersInOrder
     (snd (playAudioChunk supported opts int_frame None 0 initial))
   = [{| channelData := map normalized (int16_elements int_frame);
         sampleRate := CAPTURE_SAMPLE_RATE |}]) /\
  (buffersInOrder
     (snd (playAudioChunk supported opts odd_frame None 0 initial)) = []).
Proof.
  intros supported opts float_frame int_frame odd_frame.
  split; [|split].
  - apply (proj1 (playAudioChunk_classification
                    supported opts float_frame None 0 initial));
      [reflexivity | discriminate | reflexivity].
  - apply (proj1 (proj2 (playAudioChunk_classification
                           supported opts int_frame None 0 initial)));
      [discriminate | reflexivity | discriminate | reflexivity].
  - apply (proj2 (proj2 (playAudioChunk_classification
                           supported opts odd_frame None 0 initial)));
      discriminate.
Defined.

End FrameCodecFacts.
(** ** Playback scheduler *)

Section PlaybackFacts.

Import TypedArrays Audio Timeline.
Local Open Scope Q_scope.

Lemma inOrder_initial : inOrder [] 0 [].
Proof.
  split.
  - intros a H. inversion H.
  - intros i j a b _ H. rewrite lookup_nil in H. discriminate.
  - intros b H. inversion H.
Qed.

Lemma inOrder_clear sources next queue :
  inOrder sources next queue -> inOrder sources next [].
Proof.
  intros [H1 H2 H3]. split; auto.
  intros b Hb. apply H3. rewrite app_nil_r in Hb.
  apply elem_of_app. auto.
Qed.

Lemma inOrder_push sources next queue buffer :
  0 <= duration buffer ->
  inOrder sources next queue -> inOrder sources next (queue ++ [buffer]).
Proof.
  intros Hd [H1 H2 H3]. split; auto.
  intros b Hb. rewrite app_assoc in Hb.
  apply elem_of_app in Hb as [Hb|Hb]; [auto|].
  apply list_elem_of_singleton in Hb. subst. exact Hd.
Qed.

(** Starting the head of the queue at [max now next]. *)
Lemma inOrder_start sources next buffer rest ctx now :
  inOrder sources next (buffer :: rest) ->
  inOrder (sources ++ [{| sourceContext := ctx; sourceBuffer := buffer;
                          startTime := Qmax now next |}])
          (Qmax now next + duration buffer) rest.
Proof.
  intros [H1 H2 H3].
  assert (Hd : 0 <= duration buffer).
  { apply H3. apply elem_of_app. right. left. }
  pose proof (Q.le_max_r now next) as Hmax.
  split.
  - intros a Ha. apply elem_of_app in Ha as [Ha|Ha].
    + specialize (H1 a Ha). qlra.
    + apply list_elem_of_singleton in Ha. subst a.
      unfold endTime. simpl. qlra.
  - intros i j a b Hij Ha Hb.
    destruct (decide (j < length sources)%nat) as [Hj|Hj].
    + rewrite lookup_app_l in Ha by lia. rewrite lookup_app_l in Hb by lia.
      eauto.
    + assert (Hjl : j = length sources).
      { apply lookup_lt_Some in Hb. rewrite length_app in Hb.
        simpl in Hb. lia. }
      subst j. rewrite lookup_app_l in Ha by lia.
      rewrite list_lookup_middle in Hb by reflexivity.
      injection Hb as <-. simpl.
      assert (Hin : a ∈ sources) by (eapply list_elem_of_lookup_2; eauto).
      specialize (H1 a Hin). qlra.
  - intros b Hb. apply H3. rewrite map_app in Hb. simpl in Hb.
    rewrite <- app_assoc in Hb. exact Hb.
Qed.

Lemma scheduledInOrder_playNextInQueue opts ctx now st :
  scheduledInOrder st -> scheduledInOrder (playNextInQueue opts ctx now st).
Proof.
  unfold scheduledInOrder, playNextInQueue, signalAiSpeaking.
  destruct (playbackQueueRef (playback st)) as [|buffer rest] eqn:Hq;
    intros H; destruct (onAiSpeakingChange opts); simpl;
    try exact H; apply inOrder_start; exact H.
Qed.

(** What [playNextInQueue] does when the queue is not empty. *)
Lemma playNextInQueue_starts opts ctx now st buffer rest :
  playbackQueueRef (playback st) = buffer :: rest ->
  let start := Qmax now (nextPlayTimeRef (playback st)) in
  let st' := playNextInQueue opts ctx now st in
  started (world st')
  = started (world st)
    ++ [{| sourceContext := ctx; sourceBuffer := buffer;
           startTime := start |}] /\
  nextPlayTimeRef (playback st') = start + duration buffer /\
  playbackQueueRef (playback st') = rest /\
  isPlayingRef (playback st') = true.
Proof.
  intros Hq. unfold playNextInQueue, signalAiSpeaking. rewrite Hq.
  destruct (onAiSpeakingChange opts); simpl; auto.
Qed.

Lemma createBuffer_duration supportedRate channels len rate buffer :
  (forall r, supportedRate r = true -> 0 < r) ->
  createBuffer supportedRate channels len rate = Normal buffer ->
  sampleRate buffer = rate /\ 0 < rate.
Proof.
  intros Hpos. unfold createBuffer.
  destruct (supportedRate rate) eqn:Hr.
  - destruct ((channels =? 0)%nat || (len =? 0)%nat); simpl; [discriminate|].
    intros [= <-]. simpl. auto.
  - rewrite orb_true_r. discriminate.
Qed.

Lemma duration_nonneg (b : AudioBuffer) : 0 < sampleRate b -> 0 <= duration b.
Proof.
  intros H. unfold duration. apply Qle_shift_div_l; [exact H|].
  rewrite Qmult_0_l. change 0 with (inject_Z 0). rewrite <- Zle_Qle. lia.
Qed.

Lemma scheduledInOrder_playAudioChunk supportedRate opts data rate now st :
  (forall r, supportedRate r = true -> 0 < r) ->
  scheduledInOrder st ->
  scheduledInOrder (snd (playAudioChunk supportedRate opts data rate now st)).
Proof.
  intros Hpos H. unfold playAudioChunk.
  set (sel := match audioContextRef (capture st) with
              | Some c => (c, st) | None => _ end).
  assert (Hsel : scheduledInOrder (snd sel)).
  { subst sel. destruct (audioContextRef (capture st));
      [|destruct (playbackContextRef (playback st))]; exact H. }
  destruct sel as [ctx st1]. simpl in Hsel.
  destruct (decodeSamples data) as [[samples|]|e]; simpl; try exact Hsel.
  destruct (createBuffer supportedRate 1 (length samples)
              (default CAPTURE_SAMPLE_RATE rate)) as [buffer|e] eqn:Hb;
    simpl; try exact Hsel.
  destruct (typedArraySet (channelData buffer) samples) as [filled|e];
    simpl; try exact Hsel.
  apply createBuffer_duration in Hb as [Hrate Hr]; [|exact Hpos].
  set (b := {| channelData := filled; sampleRate := sampleRate buffer |}).
  assert (Hd : 0 <= duration b).
  { apply duration_nonneg. simpl. rewrite Hrate. exact Hr. }
  assert (Hpush : scheduledInOrder
            (set_playback
               {| playbackQueueRef := playbackQueueRef (playback st1) ++ [b];
                  isPlayingRef := isPlayingRef (playback st1);
                  nextPlayTimeRef := nextPlayTimeRef (playback st1);
                  playbackContextRef := playbackContextRef (playback st1) |}
               st1)).
  { unfold scheduledInOrder. simpl. apply inOrder_push; assumption. }
  destruct (isPlayingRef (playback st1)); simpl; [exact Hpush|].
  apply scheduledInOrder_playNextInQueue.
  unfold signalAiSpeaking. destruct (onAiSpeakingChange opts); exact Hpush.
Qed.

(** The other functions of the hook leave the started sources and the
    cursor alone; [stopCapture] empties the queue. *)
Lemma setUserSpeaking_playback opts v st :
  playback (setUserSpeaking opts v st) = playback st /\
  started (world (setUserSpeaking opts v st)) = started (world st).
Proof.
  unfold setUserSpeaking. destruct (onUserSpeakingChange opts); simpl; auto.
Qed.

Lemma startCapture_playback media st :
  playback (snd (startCapture media st)) = playback st /\
  started (world (snd (startCapture media st))) = started (world st).
Proof. destruct media; simpl; auto. Qed.

(** Case analysis on the references [stopCapture] tests. *)
Ltac split_refs st :=
  destruct st as [[[?|] [?|] [?|] [?|]] [? ? ? [?|]] ? ? ?].

(** What [stopCapture] leaves behind. *)
Lemma stopCapture_effect opts st :
  let st' := stopCapture opts st in
  capture st' = capture initial /\
  playbackQueueRef (playback st') = [] /\
  playbackContextRef (playback st') = None /\
  nextPlayTimeRef (playback st') = nextPlayTimeRef (playback st) /\
  isPlayingRef (playback st') = isPlayingRef (playback st) /\
  started (world st') = started (world st) /\
  lastSpeakTimeRef (vad st') = lastSpeakTimeRef (vad st) /\
  isUserSpeakingRef (vad st') = false /\
  closedContexts (world st')
  = closedContexts (world st)
    ++ option_list (audioContextRef (capture st))
    ++ option_list (playbackContextRef (playback st)).
Proof.
  destruct opts as [? [|] ?]; split_refs st;
    repeat split; try reflexivity;
    simpl; rewrite <- ?app_assoc, ?app_nil_r; reflexivity.
Qed.

Lemma onaudioprocess_playback opts input now st :
  playback (onaudioprocess opts input now st) = playback st /\
  started (world (onaudioprocess opts input now st)) = started (world st).
Proof.
  unfold onaudioprocess, setUserSpeaking.
  destruct (isLoud input), (isUserSpeakingRef (vad st)),
    (onUserSpeakingChange opts), (isConnected opts),
    (Resampler.downsample input captureContextRate CAPTURE_SAMPLE_RATE);
    simpl; auto.
Qed.

Lemma checkSilence_playback opts now st :
  playback (checkSilence opts now st) = playback st /\
  started (world (checkSilence opts now st)) = started (world st).
Proof.
  unfold checkSilence, setUserSpeaking.
  destruct (silenceTimeoutMs <? now - lastSpeakTimeRef (vad st))%Z,
    (isUserSpeakingRef (vad st)), (onUserSpeakingChange opts); simpl; auto.
Qed.

Lemma scheduledInOrder_step supportedRate opts st a :
  (forall r, supportedRate r = true -> 0 < r) ->
  scheduledInOrder st -> scheduledInOrder (step supportedRate opts st a).
Proof.
  intros Hpos H. destruct a as [data rate now|k now|media| |input now|now];
    simpl.
  - apply scheduledInOrder_playAudioChunk; assumption.
  - destruct (started (world st) !! k);
      [apply scheduledInOrder_playNextInQueue|]; exact H.
  - unfold scheduledInOrder.
    destruct (startCapture_playback media st) as [-> ->]. exact H.
  - unfold scheduledInOrder.
    destruct (stopCapture_effect opts st) as (_ & -> & _ & -> & _ & -> & _).
    eapply inOrder_clear, H.
  - unfold scheduledInOrder.
    destruct (onaudioprocess_playback opts input now st) as [-> ->]. exact H.
  - unfold scheduledInOrder.
    destruct (checkSilence_playback opts now st) as [-> ->]. exact H.
Qed.

Lemma scheduledInOrder_run supportedRate opts actions :
  (forall r, supportedRate r = true -> 0 < r) ->
  forall st, scheduledInOrder st ->
             scheduledInOrder (run supportedRate opts actions st).
Proof.
  intros Hpos. induction actions as [|a actions IH]; intros st H.
  - exact H.
  - simpl. apply IH, scheduledInOrder_step; assumption.
Qed.

End PlaybackFacts.
(** ** Voice-activity detector *)

Section VadFacts.

Import TypedArrays Audio Timeline.

(** The test on the squares is the test [rms > volumeThreshold]. *)
Lemma isLoud_rms (input : list Q) :
  isLoud input = true <-> (Q2R volumeThreshold < rms input)%R.
Proof.
  unfold isLoud, rms. set (m := meanSquare input).
  assert (Ht : (0 < Q2R volumeThreshold)%R).
  { replace 0%R with (Q2R 0) by (unfold Q2R; simpl; rlra).
    apply Qlt_Rlt. reflexivity. }
  rewrite negb_true_iff, <- not_true_iff_false, Qle_bool_iff.
  split.
  - intros H. apply Qnot_le_lt, Qlt_Rlt in H. rewrite Q2R_mult in H.
    rewrite <- (sqrt_square (Q2R volumeThreshold)) by rlra.
    apply sqrt_lt_1; [nra | nra | exact H].
  - intros H Hle. apply Qle_Rle in Hle. rewrite Q2R_mult in Hle.
    assert (Hs : (0 < sqrt (Q2R m))%R) by rlra.
    assert (Hm : (0 < Q2R m)%R).
    { destruct (Rlt_le_dec 0 (Q2R m)) as [?|Hneg]; [assumption|].
      rewrite (sqrt_neg_0 _ Hneg) in Hs. rlra. }
    pose proof (sqrt_sqrt (Q2R m) (Rlt_le _ _ Hm)) as Hsq.
    nra.
Qed.

Local Open Scope Z_scope.

Lemma playNextInQueue_vad opts ctx now st :
  vad (playNextInQueue opts ctx now st) = vad st.
Proof.
  unfold playNextInQueue, signalAiSpeaking.
  destruct (playbackQueueRef (playback st)), (onAiSpeakingChange opts);
    reflexivity.
Qed.

Lemma playAudioChunk_vad supportedRate opts data rate now st :
  vad (snd (playAudioChunk supportedRate opts data rate now st)) = vad st.
Proof.
  unfold playAudioChunk.
  set (sel := match audioContextRef (capture st) with
              | Some c => (c, st) | None => _ end).
  assert (Hsel : vad (snd sel) = vad st).
  { subst sel. destruct (audioContextRef (capture st));
      [|destruct (playbackContextRef (playback st))]; reflexivity. }
  destruct sel as [ctx st1]. simpl in Hsel.
  destruct (decodeSamples data) as [[samples|]|e]; simpl; try exact Hsel.
  destruct (createBuffer _ _ _ _) as [buffer|e]; simpl; try exact Hsel.
  destruct (typedArraySet _ _) as [filled|e]; simpl; try exact Hsel.
  destruct (isPlayingRef (playback st1)); simpl; try exact Hsel.
  rewrite playNextInQueue_vad. unfold signalAiSpeaking.
  destruct (onAiSpeakingChange opts); exact Hsel.
Qed.

(** The block handler: the detector's part of the state after it. *)
Lemma onaudioprocess_vad opts input now st :
  let st' := onaudioprocess opts input now st in
  (isLoud input = true ->
   lastSpeakTimeRef (vad st') = now /\
   isUserSpeakingRef (vad st') = true /\
   (isUserSpeakingRef (vad st) = false ->
    isUserSpeaking (view st') = true /\
    notifications (world st')
    = notifications (world st)
      ++ (if onUserSpeakingChange opts
          then [UserSpeakingChange true] else [])) /\
   (isUserSpeakingRef (vad st) = true ->
    view st' = view st /\
    notifications (world st') = notifications (world st))) /\
  (isLoud input = false ->
   vad st' = vad st /\ view st' = view st /\
   notifications (world st') = notifications (world st)).
Proof.
  unfold onaudioprocess, setUserSpeaking. split; intros ->.
  - destruct (isUserSpeakingRef (vad st)) eqn:Hs,
      (onUserSpeakingChange opts), (isConnected opts),
      (Resampler.downsample input captureContextRate CAPTURE_SAMPLE_RATE);
      simpl; rewrite ?app_nil_r; repeat split; auto; discriminate.
  - destruct (isConnected opts),
      (Resampler.downsample input captureContextRate CAPTURE_SAMPLE_RATE);
      simpl; auto.
Qed.

(** One tick of the silence check. *)
Lemma checkSilence_vad opts now st :
  let st' := checkSilence opts now st in
  lastSpeakTimeRef (vad st') = lastSpeakTimeRef (vad st) /\
  (isUserSpeakingRef (vad st) = true ->
   silenceTimeoutMs < now - lastSpeakTimeRef (vad st) ->
   isUserSpeakingRef (vad st') = false /\
   isUserSpeaking (view st') = false /\
   notifications (world st')
   = notifications (world st)
     ++ (if onUserSpeakingChange opts
         then [UserSpeakingChange false] else [])) /\
  (now - lastSpeakTimeRef (vad st) <= silenceTimeoutMs -> st' = st).
Proof.
  unfold checkSilence, setUserSpeaking.
  destruct (Z.ltb_spec silenceTimeoutMs (now - lastSpeakTimeRef (vad st)));
    destruct (isUserSpeakingRef (vad st)), (onUserSpeakingChange opts);
    simpl; rewrite ?app_nil_r; repeat split; auto; try discriminate; lia.
Qed.

Lemma step_lastSpeakTime supportedRate opts st a :
  lastSpeakTimeRef (vad (step supportedRate opts st a))
  = match a with
    | AudioProcess input now =>
        if isLoud input then now else lastSpeakTimeRef (vad st)
    | _ => lastSpeakTimeRef (vad st)
    end.
Proof.
  destruct a as [data rate now|k now|media| |input now|now]; simpl.
  - rewrite playAudioChunk_vad. reflexivity.
  - destruct (started (world st) !! k); [rewrite playNextInQueue_vad|];
      reflexivity.
  - destruct media; reflexivity.
  - apply stopCapture_effect.
  - destruct (onaudioprocess_vad opts input now st) as [H1 H2].
    destruct (isLoud input).
    + apply H1. reflexivity.
    + destruct H2 as [-> _]; reflexivity.
  - apply checkSilence_vad.
Qed.

Lemma run_lastSpeakTime supportedRate opts actions : forall st,
  lastSpeakTimeRef (vad (run supportedRate opts actions st))
  = fold_left (fun t a =>
                 match a with
                 | AudioProcess input now => if isLoud input then now else t
                 | _ => t
                 end) actions (lastSpeakTimeRef (vad st)).
Proof.
  induction actions as [|a actions IH]; intros st; [reflexivity|].
  simpl. rewrite IH, step_lastSpeakTime. destruct a; reflexivity.
Qed.

End VadFacts.
(** ** Capture lifecycle and teardown *)

Section LifecycleFacts.

Import TypedArrays Audio Timeline.
Local Open Scope Q_scope.

Lemma stopCapture_closes opts st c :
  audioContextRef (capture st) = Some c \/
  playbackContextRef (playback st) = Some c ->
  c ∈ closedContexts (world (stopCapture opts st)).
Proof.
  destruct (stopCapture_effect opts st) as (_ & _ & _ & _ & _ & _ & _ & _ & ->).
  rewrite !elem_of_app. intros [->| ->]; simpl;
    rewrite list_elem_of_singleton; auto.
Qed.

(** C8.  When [getUserMedia] is rejected, [startCapture] returns [false]
    and sets [micPermission] to [denied]; it logs the error, creates no
    stream, context or node and leaves the four capture references as
    they were: all empty when the call started from the initial state or
    after [stopCapture]. *)
Theorem startCapture_denied (opts : Options) (st : State) :
  let result := startCapture Rejected st in
  fst result = false /\
  micPermission (view (snd result)) = denied /\
  capture (snd result) = capture st /\
  objects (world (snd result)) = objects (world st) /\
  playback (snd result) = playback st /\
  vad (snd result) = vad st /\
  console (world (snd result))
  = console (world st) ++ [ConsoleError "Failed to start audio capture:"] /\
  capture (snd (startCapture Rejected initial))
  = {| audioContextRef := None; sourceRef := None;
       processorRef := None; streamRef := None |} /\
  capture (snd (startCapture Rejected (stopCapture opts st)))
  = {| audioContextRef := None; sourceRef := None;
       processorRef := None; streamRef := None |}.
Proof.
  simpl. repeat split; try reflexivity.
  apply stopCapture_effect.
Qed.

(** C7, as amended.  [stopCapture] empties the queue, closes both audio
    contexts and forgets them, and leaves [isPlayingRef] and
    [nextPlayTimeRef] as they were.  No guard stops a completion handler
    that fires afterwards: it runs [playNextInQueue], which on the still
    empty queue starts no source and creates nothing, but sets
    [isPlayingRef] to [false] and signals that the AI stopped speaking. *)
Theorem teardown_then_completion
    (opts : Options) (ctx : nat) (now : Q) (st : State) :
  let st1 := stopCapture opts st in
  let st2 := playNextInQueue opts ctx now st1 in
  playbackQueueRef (playback st1) = [] /\
  audioContextRef (capture st1) = None /\
  playbackContextRef (playback st1) = None /\
  (forall c,
     audioContextRef (capture st) = Some c \/
     playbackContextRef (playback st) = Some c ->
     c ∈ closedContexts (world st1)) /\
  isPlayingRef (playback st1) = isPlayingRef (playback st) /\
  nextPlayTimeRef (playback st1) = nextPlayTimeRef (playback st) /\
  started (world st2) = started (world st1) /\
  objects (world st2) = objects (world st1) /\
  playbackQueueRef (playback st2) = [] /\
  nextPlayTimeRef (playback st2) = nextPlayTimeRef (playback st1) /\
  isPlayingRef (playback st2) = false /\
  isAiSpeaking (view st2) = false /\
  notifications (world st2)
  = notifications (world st1)
    ++ (if onAiSpeakingChange opts then [AiSpeakingChange false] else []).
Proof.
  intros st1 st2.
  destruct (stopCapture_effect opts st)
    as (Hc & Hq & Hpc & Hn & Hp & Hs & _).
  fold st1 in Hq, Hn, Hp, Hs, Hc, Hpc.
  split; [exact Hq|]. split; [rewrite Hc; reflexivity|].
  split; [exact Hpc|]. split; [intros c; apply stopCapture_closes|].
  split; [exact Hp|]. split; [exact Hn|].
  subst st2. unfold playNextInQueue, signalAiSpeaking. rewrite Hq.
  destruct (onAiSpeakingChange opts); simpl; rewrite ?app_nil_r;
    repeat split; reflexivity.
Qed.

Lemma teardown_then_completion_witness :
  let supported := fun r => (Qle_bool 3000 r && Qle_bool r 768000)%bool in
  let opts := {| isConnected := true; onUserSpeakingChange := true;
                 onAiSpeakingChange := true |} in
  let frame := [x00; x00; x80; x3f]%byte in
  let st := run supported opts [PlayAudioChunk frame None 0] initial in
  0%nat ∈ closedContexts (world (stopCapture opts st)).
Proof.
  intros supported opts frame st.
  refine (proj1 (proj2 (proj2 (proj2
            (teardown_then_completion opts 0 1 st)))) 0%nat _).
  right. reflexivity.
Defined.

(** The claim C7 fails: a completion handler registered before the
    teardown and firing after it changes the state. *)
Lemma completion_after_teardown_not_noop :
  let supported := fun r => (Qle_bool 3000 r && Qle_bool r 768000)%bool in
  let opts := {| isConnected := true; onUserSpeakingChange := true;
                 onAiSpeakingChange := true |} in
  let frame := [x00; x00; x80; x3f]%byte in
  let before := run supported opts [PlayAudioChunk frame None 0] initial in
  let torn := step supported opts before StopCapture in
  let after := step supported opts torn (SourceEnded 0 1) in
  length (started (world before)) = 1%nat /\
  isPlayingRef (playback torn) = true /\
  isPlayingRef (playback after) = false /\
  notifications (world after)
  = notifications (world torn) ++ [AiSpeakingChange false] /\
  after <> torn.
Proof.
  cbv zeta. repeat split.
  intros H. apply (f_equal (fun s => isPlayingRef (playback s))) in H.
  discriminate H.
Qed.

(** Worse, a frame that arrives between the teardown and the handler is
    started by the handler, on the context the teardown closed. *)
Example completion_after_teardown_starts_playback :
  let supported := fun r => (Qle_bool 3000 r && Qle_bool r 768000)%bool in
  let opts := {| isConnected := true; onUserSpeakingChange := true;
                 onAiSpeakingChange := true |} in
  let frame := [x00; x00; x80; x3f]%byte in
  let after :=
    run supported opts
      [PlayAudioChunk frame None 0; StopCapture;
       PlayAudioChunk frame None 0; SourceEnded 0 1] initial in
  map sourceContext (started (world after)) = [0; 0]%nat /\
  closedContexts (world after) = [0]%nat.
Proof. cbv zeta. split; reflexivity. Qed.

End LifecycleFacts.
(** ** Transport *)

Section TransportFacts.

Import TypedArrays Socket Channel.

Lemma send_open data st ws sock :
  socketRef st = Some ws ->
  sockets st !! ws = Some sock ->
  readyState sock = OPEN ->
  send data st
  = (true,
     set_sockets
       (<[ws := {| url := url sock; readyState := OPEN;
                   transmitted := transmitted sock ++ [data] |}]>
          (sockets st)) st).
Proof.
  intros Hr Hs Ho. unfold send, readyStateOf, wsSend.
  rewrite Hr, Hs. simpl. rewrite Ho. reflexivity.
Qed.

Lemma send_not_open data st :
  ~ channelOpen st -> send data st = (false, st).
Proof.
  intros Hn. unfold send.
  destruct (socketRef st) as [ws|] eqn:Hr; [|reflexivity].
  destruct (readyStateOf st ws) as [[]|] eqn:Hs; try reflexivity.
  exfalso. apply Hn. exists ws. auto.
Qed.

Lemma send_true_open data st :
  fst (send data st) = true -> channelOpen st.
Proof.
  unfold send. destruct (socketRef st) as [ws|] eqn:Hr; [|discriminate].
  destruct (readyStateOf st ws) as [[]|] eqn:Hs; try discriminate.
  intros _. exists ws. auto.
Qed.

(** Whether the channel is open can be decided. *)
Lemma channelOpen_decided st : channelOpen st \/ ~ channelOpen st.
Proof.
  unfold channelOpen. destruct (socketRef st) as [ws|].
  - destruct (readyStateOf st ws) as [[]|] eqn:Hs;
      try (right; intros (w & [= <-] & H); congruence).
    left. eauto.
  - right. intros (w & H & _). discriminate.
Qed.

Lemma channelOpen_socket st :
  channelOpen st ->
  exists ws sock, socketRef st = Some ws /\ sockets st !! ws = Some sock /\
                  readyState sock = OPEN.
Proof.
  intros (ws & Hr & Hs). unfold readyStateOf in Hs.
  destruct (sockets st !! ws) as [sock|] eqn:E; [|discriminate].
  exists ws, sock. simpl in Hs. injection Hs as Hs. auto.
Qed.

(** C10.  [send] leaves the status, the error message, the socket
    reference and the notifications as they are; when it returns [false]
    the whole state is unchanged, and when it returns [true] the only
    change is that the referenced open socket was handed [data]. *)
Theorem send_frame (data : list byte) (st : State) :
  let result := send data st in
  status (snd result) = status st /\
  errorMessage (snd result) = errorMessage st /\
  socketRef (snd result) = socketRef st /\
  notifications (snd result) = notifications st /\
  (fst result = false -> snd result = st) /\
  (fst result = true ->
   exists ws sock,
     socketRef st = Some ws /\ sockets st !! ws = Some sock /\
     readyState sock = OPEN /\
     sockets (snd result)
     = <[ws := {| url := url sock; readyState := OPEN;
                  transmitted := transmitted sock ++ [data] |}]>
         (sockets st)).
Proof.
  intros result.
  destruct (channelOpen_decided st) as [Ho|Hn].
  - destruct (channelOpen_socket st Ho) as (ws & sock & Hr & Hs & Hrs).
    subst result. rewrite (send_open data st ws sock Hr Hs Hrs). simpl.
    repeat split; try discriminate. intros _. exists ws, sock. auto.
  - subst result. rewrite (send_not_open data st Hn). simpl.
    repeat split; auto. discriminate.
Qed.

Lemma send_frame_witness :
  let opts := {| uri := "wss://localhost:8000/ws"; onMessage := true;
                 onConnect := true; onDisconnect := true |} in
  let st := run opts [Connect; OpenEvent 0] initial in
  exists ws sock,
    socketRef st = Some ws /\ sockets st !! ws = Some sock /\
    readyState sock = OPEN /\
    sockets (snd (send [x01; x02]%byte st))
    = <[ws := {| url := url sock; readyState := OPEN;
                 transmitted := transmitted sock ++ [[x01; x02]%byte] |}]>
        (sockets st).
Proof.
  intros opts st.
  exact (proj2 (proj2 (proj2 (proj2 (proj2
           (send_frame [x01; x02]%byte st))))) eq_refl).
Defined.

Lemma neverOpened_not_open st : neverOpened st -> ~ channelOpen st.
Proof.
  intros Hn Ho. destruct (channelOpen_socket st Ho) as (ws & sock & _ & Hs & Hr).
  destruct (proj1 (Forall_lookup _ _) Hn ws sock Hs) as [H _]. contradiction.
Qed.

Lemma neverOpened_outbound st : neverOpened st -> outboundFrames st = [].
Proof.
  unfold neverOpened, outboundFrames.
  induction (sockets st) as [|sock l IH]; [reflexivity|].
  intros H. apply Forall_cons in H as [[_ Ht] Hl].
  simpl. rewrite Ht, IH by exact Hl. reflexivity.
Qed.

Lemma neverOpened_set st id r :
  r <> OPEN -> neverOpened st -> neverOpened (platform_set id r st).
Proof.
  intros Hr Hn. unfold platform_set.
  destruct (sockets st !! id) as [ws|] eqn:Hs; [|exact Hn].
  unfold neverOpened. simpl. apply Forall_insert; [exact Hn|].
  destruct (proj1 (Forall_lookup _ _) Hn id ws Hs) as [_ Ht]. auto.
Qed.

Lemma neverOpened_wsClose st id :
  neverOpened st -> neverOpened (wsClose id st).
Proof.
  intros Hn. unfold wsClose.
  destruct (sockets st !! id) as [ws|] eqn:Hs; [|exact Hn].
  destruct (proj1 (Forall_lookup _ _) Hn id ws Hs) as [_ Ht].
  destruct (readyState ws); try exact Hn;
    unfold neverOpened; simpl; (apply Forall_insert; [exact Hn|]);
    (split; [discriminate|exact Ht]).
Qed.

Lemma neverOpened_sockets st st' :
  sockets st' = sockets st -> neverOpened st -> neverOpened st'.
Proof. unfold neverOpened. intros ->. auto. Qed.

Lemma neverOpened_step opts st a :
  isOpenEvent a = false -> neverOpened st -> neverOpened (step opts st a).
Proof.
  intros Ha Hn.
  destruct a as [| |data|ws|ws|ws|ws data]; simpl; try discriminate.
  - unfold connect.
    destruct (socketRef st ≫= readyStateOf st) as [[]|]; try exact Hn;
      unfold neverOpened; simpl; (apply Forall_app; split; [exact Hn|]);
      repeat constructor; discriminate.
  - unfold disconnect. destruct (socketRef st) as [ws|].
    + apply (neverOpened_sockets (set_socketRef None (wsClose ws st)));
        [destruct (onDisconnect opts); reflexivity|].
      apply (neverOpened_sockets (wsClose ws st)); [reflexivity|].
      apply neverOpened_wsClose, Hn.
    + eapply neverOpened_sockets; [|exact Hn].
      destruct (onDisconnect opts); reflexivity.
  - rewrite send_not_open by (apply neverOpened_not_open, Hn). exact Hn.
  - destruct (readyStateOf st ws) as [[]|]; try exact Hn;
      (eapply neverOpened_sockets;
       [|apply (neverOpened_set st ws CLOSED); [discriminate|exact Hn]]);
      unfold onClose; destruct (onDisconnect opts); reflexivity.
  - destruct (readyStateOf st ws); exact Hn.
  - destruct (readyStateOf st ws) as [[]|]; try exact Hn.
    eapply neverOpened_sockets; [|exact Hn].
    unfold onMessageEvent. destruct data, (onMessage opts); reflexivity.
Qed.

Lemma neverOpened_run opts actions : forall st,
  forallb (fun a => negb (isOpenEvent a)) actions = true ->
  neverOpened st -> neverOpened (run opts actions st).
Proof.
  induction actions as [|a actions IH]; intros st Ha Hn; [exact Hn|].
  simpl in Ha. apply andb_true_iff in Ha as [Ha Has].
  simpl. apply IH; [exact Has|].
  apply neverOpened_step; [|exact Hn]. apply negb_true_iff, Ha.
Qed.

(** C5.  [send] returns [true] exactly when the hook holds a socket
    that is open, and then hands the bytes to that socket; otherwise it
    returns [false] and changes nothing, so nothing is written.  In
    particular, in a run in which no socket has opened yet, [send]
    returns [false] and nothing has been written at all. *)
Theorem send_only_when_open
    (opts : Options) (data : list byte) (st : State)
    (actions : list Action) :
  let result := send data st in
  (fst result = true <-> channelOpen st) /\
  (channelOpen st ->
   exists ws sock,
     socketRef st = Some ws /\ sockets st !! ws = Some sock /\
     transmitted <$> sockets (snd result) !! ws
     = Some (transmitted sock ++ [data])) /\
  (~ channelOpen st ->
   fst result = false /\ snd result = st /\
   outboundFrames (snd result) = outboundFrames st) /\
  (forallb (fun a => negb (isOpenEvent a)) actions = true ->
   let before := run opts actions initial in
   send data before = (false, before) /\ outboundFrames before = []).
Proof.
  intros result. split; [|split; [|split]].
  - split; [apply send_true_open|].
    intros Ho. destruct (channelOpen_socket st Ho) as (ws & sock & Hr & Hs & Hrs).
    subst result. rewrite (send_open data st ws sock Hr Hs Hrs). reflexivity.
  - intros Ho. destruct (channelOpen_socket st Ho) as (ws & sock & Hr & Hs & Hrs).
    exists ws, sock. split; [exact Hr|]. split; [exact Hs|].
    subst result. rewrite (send_open data st ws sock Hr Hs Hrs). simpl.
    rewrite list_lookup_insert_eq by (eapply lookup_lt_Some; eauto).
    reflexivity.
  - intros Hn. subst result. rewrite (send_not_open data st Hn). auto.
  - intros Ha before.
    assert (Hn : neverOpened before).
    { apply neverOpened_run; [exact Ha|]. constructor. }
    split; [apply send_not_open, neverOpened_not_open, Hn|].
    apply neverOpened_outbound, Hn.
Qed.

Lemma send_only_when_open_witness :
  let opts := {| uri := "wss://localhost:8000/ws"; onMessage := true;
                 onConnect := true; onDisconnect := true |} in
  let before := run opts [Send [x07]%byte; Connect; Send [x08]%byte] initial in
  send [x09]%byte before = (false, before) /\ outboundFrames before = [].
Proof.
  intros opts before.
  exact (proj2 (proj2 (proj2
           (send_only_when_open opts [x09]%byte initial
              [Send [x07]%byte; Connect; Send [x08]%byte]))) eq_refl).
Defined.

Lemma readyStateOf_wsClose st ws sock :
  sockets st !! ws = Some sock ->
  readyStateOf (wsClose ws st) ws
  = Some (match readyState sock with
          | CONNECTING | OPEN => CLOSING
          | r => r
          end).
Proof.
  intros Hs. unfold wsClose, readyStateOf. rewrite Hs.
  destruct (readyState sock) eqn:Hr; simpl;
    rewrite ?list_lookup_insert_eq by (eapply lookup_lt_Some; eauto);
    rewrite ?Hs; simpl; rewrite ?Hr; reflexivity.
Qed.

(** C4, as amended.  [disconnect] calls [close] on the socket it holds,
    if any, and forgets it; sets the status to [disconnected] and clears
    the error message; and itself calls [onDisconnect] once.  A second
    call changes nothing but calls [onDisconnect] once more.  When the
    [close] event of the socket that was closed comes afterwards, its
    listener calls [onDisconnect] again: two calls for one [disconnect]
    of a live socket. *)
Theorem disconnect_effect (opts : Options) (st : State) :
  let st1 := disconnect opts st in
  let st2 := disconnect opts st1 in
  socketRef st1 = None /\ status st1 = disconnected /\
  errorMessage st1 = None /\
  (forall ws sock,
     socketRef st = Some ws -> sockets st !! ws = Some sock ->
     readyStateOf st1 ws
     = Some (match readyState sock with
             | CONNECTING | OPEN => CLOSING
             | r => r
             end)) /\
  notifications st1
  = notifications st ++ (if onDisconnect opts then [Disconnected] else []) /\
  (socketRef st2 = None /\ status st2 = disconnected /\
   errorMessage st2 = None /\ sockets st2 = sockets st1 /\
   notifications st2
   = notifications st1
     ++ (if onDisconnect opts then [Disconnected] else [])) /\
  (forall ws,
     socketRef st = Some ws -> readyStateOf st1 ws = Some CLOSING ->
     let st3 := step opts st1 (CloseEvent ws) in
     readyStateOf st3 ws = Some CLOSED /\
     status st3 = disconnected /\ socketRef st3 = None /\
     notifications st3
     = notifications st1
       ++ (if onDisconnect opts then [Disconnected] else []) /\
     (onDisconnect opts = true ->
      disconnections st1 = S (disconnections st) /\
      disconnections st3 = S (S (disconnections st)))).
Proof.
  intros st1 st2.
  assert (H1 : socketRef st1 = None /\ status st1 = disconnected /\
               errorMessage st1 = None /\
               notifications st1
               = notifications st
                 ++ (if onDisconnect opts then [Disconnected] else [])).
  { subst st1. unfold disconnect.
    destruct (socketRef st) as [ws|] eqn:Hr0, (onDisconnect opts); simpl;
      rewrite ?app_nil_r; repeat split; try reflexivity; try exact Hr0;
      unfold wsClose;
      match goal with
      | |- context [sockets st !! ?w] =>
          destruct (sockets st !! w) as [sock|];
          try destruct (readyState sock); reflexivity
      end. }
  destruct H1 as (Hr1 & Hs1 & He1 & Hn1).
  split; [exact Hr1|]. split; [exact Hs1|]. split; [exact He1|].
  split.
  { intros ws sock Hr Hs. subst st1. unfold disconnect. rewrite Hr.
    rewrite <- (readyStateOf_wsClose st ws sock Hs).
    destruct (onDisconnect opts); reflexivity. }
  split; [exact Hn1|]. split.
  { subst st2. unfold disconnect. rewrite Hr1.
    destruct (onDisconnect opts); simpl; rewrite ?app_nil_r;
      repeat split; auto. }
  intros ws Hr Hc st3. subst st3. simpl. rewrite Hc.
  unfold readyStateOf in Hc.
  destruct (sockets st1 !! ws) as [sock|] eqn:Hs; [|discriminate].
  assert (Hset : readyStateOf (platform_set ws CLOSED st1) ws = Some CLOSED).
  { unfold platform_set, readyStateOf. rewrite Hs. simpl.
    rewrite list_lookup_insert_eq by (eapply lookup_lt_Some; eauto).
    reflexivity. }
  unfold onClose.
  assert (Hpn : notifications (platform_set ws CLOSED st1)
                = notifications st1).
  { unfold platform_set. rewrite Hs. reflexivity. }
  destruct (onDisconnect opts) eqn:Hd; simpl; rewrite ?app_nil_r;
    (split; [exact Hset|]); repeat split; try discriminate;
    rewrite ?Hpn; auto.
  - unfold disconnections. rewrite Hn1.
    rewrite List.filter_app, length_app. simpl. lia.
  - unfold disconnections. simpl. rewrite Hpn, Hn1.
    rewrite !List.filter_app, !length_app. simpl. lia.
Qed.

Lemma disconnect_effect_witness :
  let opts := {| uri := "wss://localhost:8000/ws"; onMessage := true;
                 onConnect := true; onDisconnect := true |} in
  let st := run opts [Connect; OpenEvent 0] initial in
  let st1 := disconnect opts st in
  let st3 := step opts st1 (CloseEvent 0) in
  disconnections st1 = S (disconnections st) /\
  disconnections st3 = S (S (disconnections st)).
Proof.
  intros opts st st1 st3.
  exact (proj2 (proj2 (proj2 (proj2
           (proj2 (proj2 (proj2 (proj2 (proj2 (proj2
              (disconnect_effect opts st))))))
           0%nat eq_refl eq_refl)))) eq_refl).
Defined.

(** The claim C4 fails: one [disconnect] of an open socket, followed by
    that socket's [close] event, calls [onDisconnect] twice. *)
Lemma disconnect_then_close_notifies_twice :
  let opts := {| uri := "wss://localhost:8000/ws"; onMessage := true;
                 onConnect := true; onDisconnect := true |} in
  let st := run opts [Connect; OpenEvent 0] initial in
  let st' := run opts [Disconnect; CloseEvent 0] st in
  status st = connected /\
  disconnections st = 0%nat /\
  notifications st' = [Connected; Disconnected; Disconnected] /\
  disconnections st' <> S (disconnections st).
Proof. cbv zeta. repeat split. discriminate. Qed.

End TransportFacts.

(** ** Worked examples *)

Section Examples.

Import TypedArrays Audio Timeline.
Local Open Scope Q_scope.

Example downsample_3_to_1 :
  map Qred <$> Resampler.downsample [1; 2; 3; 4; 5; 6; 7] 48000 16000
  = Some [1; 4].
Proof. vm_compute. reflexivity. Qed.

Example downsample_fractional :
  map Qred <$> Resampler.downsample [0; 1; 0; 1] 3 2 = Some [0; 1 # 2].
Proof. vm_compute. reflexivity. Qed.

(** A block of 2048 samples at 48000 Hz gives 682 samples at 16000 Hz. *)
Example downsample_capture_block :
  length <$> Resampler.downsample (replicate 2048 0) captureContextRate
               CAPTURE_SAMPLE_RATE
  = Some 682%nat.
Proof. vm_compute. reflexivity. Qed.

Example float32_of_bits_one :
  float32_of_bits 0x3F800000 = S754_finite false 8388608 (-23).
Proof. reflexivity. Qed.

Example float32_of_bits_minus_half :
  Qred <$> value_of (float32_of_bits 0xBF000000) = Some (-1 # 2).
Proof. vm_compute. reflexivity. Qed.

Example normalized_quarter :
  Qred <$> value_of (normalized 8192) = Some (1 # 4).
Proof. vm_compute. reflexivity. Qed.

End Examples.
(** * Further properties *)

(** ** Resampler and capture handler *)

Section ResamplerMore.

Import Resampler.
Local Open Scope Q_scope.





(** X2.  When the source rate is not below the target rate, the output of
    [downsample] is never longer than its input. *)
Theorem downsample_not_longer (input : Float32Array)
    (sourceRate targetRate : Q) :
  0 < targetRate -> targetRate <= sourceRate ->
  exists output,
    downsample input sourceRate targetRate = Some output /\
    (length output <= length input)%nat.
Proof.
  intros Ht Hle.
  assert (Hs : 0 < sourceRate) by qlra.
  destruct (downsample_elements input sourceRate targetRate Hs Ht)
    as (output & Hd & Hlen & _).
  exists output. split; [exact Hd|].
  cbv zeta in Hlen.
  assert (H1 : 1 <= sourceRate / targetRate).
  { apply Qle_shift_div_l; [exact Ht|]. qlra. }
  assert (H2 : inject_Z (Z.of_nat (length input)) / (sourceRate / targetRate)
               <= inject_Z (Z.of_nat (length input))).
  { apply Qle_shift_div_r; [qlra|].
    assert (0 <= inject_Z (Z.of_nat (length input))).
    { change 0 with (inject_Z 0). rewrite <- Zle_Qle. lia. }
    qnra. }
  apply Qfloor_resp_le in H2. rewrite Qfloor_Z in H2. lia.
Qed.

Lemma downsample_not_longer_witness :
  exists output,
    downsample [1; 2; 3; 4; 5; 6; 7] 44100 16000 = Some output /\
    (length output <= length [1; 2; 3; 4; 5; 6; 7])%nat.
Proof.
  apply (downsample_not_longer [1; 2; 3; 4; 5; 6; 7] 44100 16000);
    [reflexivity | discriminate].
Defined.

Import Audio.



End ResamplerMore.

(** ** Loudness and speaking state *)

Section SpeakingMore.

Import TypedArrays Audio Timeline Observed Invariants.
Local Open Scope Q_scope.

Lemma sum_squares_le (b : Q) (l : list Q) : forall acc,
  (forall s, s ∈ l -> s * s <= b) ->
  fold_left (fun sum s => sum + s * s) l acc
  <= acc + inject_Z (Z.of_nat (length l)) * b.
Proof.
  induction l as [|s l IH]; intros acc H.
  - cbn [fold_left length Z.of_nat]. change (inject_Z (Z.of_nat 0)) with 0. qlra.
  - cbn [fold_left length]. rewrite Nat2Z.inj_succ, <- Z.add_1_r, inject_Z_plus.
    eapply Qle_trans; [apply IH; intros x Hx; apply H; right; exact Hx|].
    pose proof (H s ltac:(left)) as Hs. change (inject_Z 1) with 1. qlra.
Qed.

Lemma sum_squares_ge (b : Q) (l : list Q) : forall acc,
  (forall s, s ∈ l -> b <= s * s) ->
  acc + inject_Z (Z.of_nat (length l)) * b
  <= fold_left (fun sum s => sum + s * s) l acc.
Proof.
  induction l as [|s l IH]; intros acc H.
  - cbn [fold_left length]. change (inject_Z (Z.of_nat 0)) with 0. qlra.
  - cbn [fold_left length]. rewrite Nat2Z.inj_succ, <- Z.add_1_r, inject_Z_plus.
    eapply Qle_trans; [|apply IH; intros x Hx; apply H; right; exact Hx].
    pose proof (H s ltac:(left)) as Hs. change (inject_Z 1) with 1. qlra.
Qed.

(** X4.  A block whose samples all lie within the threshold, in absolute
    value, is never loud (this includes the empty block); a block that is
    not empty and whose samples all lie beyond it is always loud. *)
Theorem isLoud_peak (input : list Q) :
  ((forall s, s ∈ input -> - volumeThreshold <= s <= volumeThreshold) ->
   isLoud input = false) /\
  (input <> [] ->
   (forall s, s ∈ input -> s < - volumeThreshold \/ volumeThreshold < s) ->
   isLoud input = true).
Proof.
  unfold isLoud, meanSquare.
  set (n := inject_Z (Z.of_nat (length input))).
  set (t := volumeThreshold).
  assert (Ht : 0 < t) by reflexivity.
  assert (Hn : 0 <= n).
  { unfold n. change 0 with (inject_Z 0). rewrite <- Zle_Qle. lia. }
  split.
  - intros H. apply negb_false_iff, Qle_bool_iff.
    pose proof (sum_squares_le (t * t) input 0) as Hsum.
    fold n in Hsum.
    assert (Hb : forall s, s ∈ input -> s * s <= t * t).
    { intros s Hs. destruct (H s Hs). qnra. }
    specialize (Hsum Hb).
    destruct (Qlt_le_dec 0 n) as [Hpos|Hzero].
    + apply Qle_shift_div_r; [exact Hpos|]. qlra.
    + assert (Hn0 : n == 0) by qlra.
      rewrite Hn0. unfold Qdiv. rewrite Qmult_0_r. qnra.
  - intros Hne H. apply negb_true_iff, not_true_iff_false.
    rewrite Qle_bool_iff. apply Qlt_not_le.
    destruct input as [|s0 rest]; [congruence|].
    assert (Hb : forall s, s ∈ s0 :: rest -> t * t <= s * s).
    { intros s Hs. destruct (H s Hs); qnra. }
    assert (H0 : t * t < s0 * s0).
    { destruct (H s0 ltac:(left)); qnra. }
    pose proof (sum_squares_ge (t * t) rest (0 + s0 * s0)
                  (fun s Hs => Hb s ltac:(right; exact Hs))) as Hsum.
    assert (Hn1 : n == 1 + inject_Z (Z.of_nat (length rest))).
    { unfold n. cbn [length]. rewrite Nat2Z.inj_succ, <- Z.add_1_l, inject_Z_plus.
      reflexivity. }
    assert (Hr : 0 <= inject_Z (Z.of_nat (length rest))).
    { change 0 with (inject_Z 0). rewrite <- Zle_Qle. lia. }
    apply Qlt_shift_div_l; [qlra|].
    cbn [fold_left]. rewrite Hn1.
    set (b := t * t) in *. set (r := inject_Z (Z.of_nat (length rest))) in *.
    set (total := fold_left _ rest _) in *. clearbody b r total. qlra.
Qed.

Lemma isLoud_peak_witness :
  isLoud [1 # 200; -1 # 100; 0] = false /\
  isLoud [1 # 50; -1 # 2] = true.
Proof.
  split.
  - apply (proj1 (isLoud_peak [1 # 200; -1 # 100; 0])).
    intros s Hs.
    repeat (apply elem_of_cons in Hs as [->|Hs]; [split; discriminate|]).
    inversion Hs.
  - apply (proj2 (isLoud_peak [1 # 50; -1 # 2])); [discriminate|].
    intros s Hs.
    apply elem_of_cons in Hs as [->|Hs]; [right; reflexivity|].
    apply elem_of_cons in Hs as [->|Hs]; [left; reflexivity|].
    inversion Hs.
Defined.

End SpeakingMore.

(** ** What the caller sees of the speaking states *)

Section MirrorFacts.

Import TypedArrays Audio Timeline Observed Invariants.
Local Open Scope Q_scope.

Lemma lastUserSpeaking_snoc ns n :
  lastUserSpeaking (ns ++ [n])
  = match n with UserSpeakingChange v => v | _ => lastUserSpeaking ns end.
Proof. unfold lastUserSpeaking. rewrite fold_left_app. reflexivity. Qed.

Lemma lastAiSpeaking_snoc ns n :
  lastAiSpeaking (ns ++ [n])
  = match n with AiSpeakingChange v => v | _ => lastAiSpeaking ns end.
Proof. unfold lastAiSpeaking. rewrite fold_left_app. reflexivity. Qed.

(** [mirrored] looks at four parts of the state only. *)
Lemma mirrored_same opts st st' :
  view st' = view st -> vad st' = vad st ->
  isPlayingRef (playback st') = isPlayingRef (playback st) ->
  notifications (world st') = notifications (world st) ->
  mirrored opts st -> mirrored opts st'.
Proof.
  intros Hv Hd Hp Hn [H1 H2 H3 H4].
  split; rewrite ?Hv, ?Hd, ?Hp, ?Hn; assumption.
Qed.

(** [playNextInQueue] leaves the user's side alone and always leaves the
    AI side consistent. *)
Lemma mirrored_playNextInQueue opts ctx now st :
  isUserSpeaking (view st) = isUserSpeakingRef (vad st) ->
  (onUserSpeakingChange opts = true ->
   lastUserSpeaking (notifications (world st)) = isUserSpeakingRef (vad st)) ->
  mirrored opts (playNextInQueue opts ctx now st).
Proof.
  intros Hu Ht. unfold playNextInQueue, signalAiSpeaking.
  destruct (playbackQueueRef (playback st)) as [|buffer rest],
    (onAiSpeakingChange opts) eqn:Hai;
    split; simpl; rewrite ?lastUserSpeaking_snoc, ?lastAiSpeaking_snoc;
    auto; intros; congruence.
Qed.

Lemma mirrored_setUserSpeaking opts v st :
  mirrored opts st -> mirrored opts (setUserSpeaking opts v st).
Proof.
  intros [H1 H2 H3 H4]. unfold setUserSpeaking.
  destruct (onUserSpeakingChange opts) eqn:Hu;
    split; simpl; rewrite ?lastUserSpeaking_snoc, ?lastAiSpeaking_snoc;
    auto; intros; congruence.
Qed.

Lemma mirrored_playAudioChunk supportedRate opts data rate now st :
  mirrored opts st ->
  mirrored opts (snd (playAudioChunk supportedRate opts data rate now st)).
Proof.
  intros H. unfold playAudioChunk.
  set (sel := match audioContextRef (capture st) with
              | Some c => (c, st) | None => _ end).
  assert (Hsel : mirrored opts (snd sel)).
  { subst sel. destruct (audioContextRef (capture st));
      [|destruct (playbackContextRef (playback st))];
      (eapply mirrored_same; [..|exact H]); reflexivity. }
  destruct sel as [ctx st1]. simpl in Hsel.
  destruct (decodeSamples data) as [[samples|]|e]; simpl; try exact Hsel.
  2:{ eapply mirrored_same; [..|exact Hsel]; reflexivity. }
  destruct (createBuffer _ _ _ _) as [buffer|e]; simpl; try exact Hsel.
  destruct (typedArraySet _ _) as [filled|e]; simpl; try exact Hsel.
  destruct (isPlayingRef (playback st1)) eqn:Hp; simpl.
  - eapply mirrored_same; [..|exact Hsel]; try reflexivity.
    simpl. rewrite Hp. reflexivity.
  - destruct Hsel as [H1 H2 H3 H4].
    apply mirrored_playNextInQueue; unfold signalAiSpeaking;
      destruct (onAiSpeakingChange opts); simpl;
      rewrite ?lastUserSpeaking_snoc; auto.
Qed.

Lemma mirrored_stopCapture opts st :
  mirrored opts st -> mirrored opts (stopCapture opts st).
Proof.
  intros [H1 H2 H3 H4].
  destruct opts as [c u a].
  destruct st as [[[?|] [?|] [?|] [?|]] [? ? ? [?|]] ? ? ?];
    destruct u; split; simpl in *;
    rewrite ?lastUserSpeaking_snoc, ?lastAiSpeaking_snoc; auto; intros; congruence.
Qed.

Lemma mirrored_onaudioprocess opts input now st :
  mirrored opts st -> mirrored opts (onaudioprocess opts input now st).
Proof.
  intros H. unfold onaudioprocess.
  set (st1 := if isLoud input then _ else st).
  assert (H1 : mirrored opts st1).
  { subst st1. destruct (isLoud input); [|exact H].
    cbn [vad set_vad isUserSpeakingRef].
    destruct (isUserSpeakingRef (vad st)) eqn:Hr.
    - destruct H as [H1 H2 H3 H4].
      split; simpl; rewrite ?Hr in *; auto.
    - apply mirrored_setUserSpeaking.
      destruct H as [H1 H2 H3 H4].
      split; simpl; rewrite ?Hr in *; auto. }
  destruct (isConnected opts); [|exact H1].
  destruct (Resampler.downsample _ _ _); [|exact H1].
  eapply mirrored_same; [..|exact H1]; reflexivity.
Qed.

Lemma mirrored_checkSilence opts now st :
  mirrored opts st -> mirrored opts (checkSilence opts now st).
Proof.
  intros H. unfold checkSilence.
  destruct (silenceTimeoutMs <? now - lastSpeakTimeRef (vad st))%Z; [|exact H].
  destruct (isUserSpeakingRef (vad st)); [|exact H].
  apply mirrored_setUserSpeaking, H.
Qed.

Lemma mirrored_step supportedRate opts st a :
  mirrored opts st -> mirrored opts (step supportedRate opts st a).
Proof.
  intros H. destruct a as [data rate now|k now|media| |input now|now]; simpl.
  - apply mirrored_playAudioChunk, H.
  - destruct (started (world st) !! k); [|exact H].
    destruct H as [H1 H2 H3 H4]. apply mirrored_playNextInQueue; assumption.
  - destruct H as [H1 H2 H3 H4]. destruct media; split; simpl; assumption.
  - apply mirrored_stopCapture, H.
  - apply mirrored_onaudioprocess, H.
  - apply mirrored_checkSilence, H.
Qed.

Lemma mirrored_run supportedRate opts actions : forall st,
  mirrored opts st -> mirrored opts (run supportedRate opts actions st).
Proof.
  induction actions as [|a actions IH]; intros st H; [exact H|].
  simpl. apply IH, mirrored_step, H.
Qed.

Lemma mirrored_initial opts : mirrored opts initial.
Proof. split; reflexivity. Qed.

(** X5.  In every state the hook reaches, the React state it returns
    equals the references its handlers test: [isUserSpeaking] is
    [isUserSpeakingRef] and [isAiSpeaking] is [isPlayingRef]. *)
Theorem returned_state_mirrors_refs
    (supportedRate : Q -> bool) (opts : Options) (actions : list Action) :
  let st := run supportedRate opts actions initial in
  isUserSpeaking (view st) = isUserSpeakingRef (vad st) /\
  isAiSpeaking (view st) = isPlayingRef (playback st).
Proof.
  intros st.
  destruct (mirrored_run supportedRate opts actions initial
              (mirrored_initial opts)) as [H1 H2 _ _].
  split; assumption.
Qed.

(** X6.  When the caller passed both callbacks, the value each was called
    with last is the value the hook returns now, in every state the hook
    reaches ([false] for a callback not called yet). *)
Theorem callbacks_told_last
    (supportedRate : Q -> bool) (opts : Options) (actions : list Action) :
  onUserSpeakingChange opts = true ->
  onAiSpeakingChange opts = true ->
  let st := run supportedRate opts actions initial in
  lastUserSpeaking (notifications (world st)) = isUserSpeaking (view st) /\
  lastAiSpeaking (notifications (world st)) = isAiSpeaking (view st).
Proof.
  intros Hu Ha st.
  destruct (mirrored_run supportedRate opts actions initial
              (mirrored_initial opts)) as [H1 H2 H3 H4].
  fold st in H1, H2, H3, H4. rewrite H1, H2. auto.
Qed.

Lemma callbacks_told_last_witness :
  let supported := fun r => (Qle_bool 3000 r && Qle_bool r 768000)%bool in
  let opts := {| isConnected := false; onUserSpeakingChange := true;
                 onAiSpeakingChange := true |} in
  let st := run supported opts
              [AudioProcess [1 # 2; 1 # 2] 1000;
               PlayAudioChunk [x00; x00; x80; x3f]%byte None 0;
               StopCapture; SourceEnded 0 1] initial in
  lastUserSpeaking (notifications (world st)) = isUserSpeaking (view st) /\
  lastAiSpeaking (notifications (world st)) = isAiSpeaking (view st).
Proof.
  intros supported opts st.
  exact (callbacks_told_last supported opts _ eq_refl eq_refl).
Defined.

End MirrorFacts.

(** ** Playback: order, cursor and edge cases *)

Section PlaybackMore.

Import TypedArrays Audio Timeline Observed.
Local Open Scope Q_scope.

(** [playAudioChunk] after its choice of a context: [st1] differs from
    [st] at most by a new playback context. *)
Lemma playAudioChunk_shape supportedRate opts data sampleRate now st :
  exists ctx st1,
    capture st1 = capture st /\ vad st1 = vad st /\ view st1 = view st /\
    playbackQueueRef (playback st1) = playbackQueueRef (playback st) /\
    isPlayingRef (playback st1) = isPlayingRef (playback st) /\
    nextPlayTimeRef (playback st1) = nextPlayTimeRef (playback st) /\
    started (world st1) = started (world st) /\
    notifications (world st1) = notifications (world st) /\
    console (world st1) = console (world st) /\
    playAudioChunk supportedRate opts data sampleRate now st
    = match decodeSamples data with
      | Throw e => (Throw e, st1)
      | Normal None =>
          (Normal tt,
           consoleLog (ConsoleWarn "Unknown audio format, skipping chunk") st1)
      | Normal (Some samples) =>
          match createBuffer supportedRate 1 (length samples)
                  (default CAPTURE_SAMPLE_RATE sampleRate) with
          | Throw e => (Throw e, st1)
          | Normal buffer =>
              match typedArraySet (channelData buffer) samples with
              | Throw e => (Throw e, st1)
              | Normal filled =>
                  let st2 :=
                    set_playback
                      {| playbackQueueRef :=
                           playbackQueueRef (playback st1)
                           ++ [{| channelData := filled;
                                  sampleRate := Audio.sampleRate buffer |}];
                         isPlayingRef := isPlayingRef (playback st1);
                         nextPlayTimeRef := nextPlayTimeRef (playback st1);
                         playbackContextRef :=
                           playbackContextRef (playback st1) |} st1 in
                  if isPlayingRef (playback st1) then (Normal tt, st2)
                  else (Normal tt,
                        playNextInQueue opts ctx now
                          (signalAiSpeaking opts true st2))
              end
          end
      end.
Proof.
  unfold playAudioChunk.
  destruct (audioContextRef (capture st)) as [c|];
    [|destruct (playbackContextRef (playback st)) as [c|]].
  - exists c, st. repeat split; reflexivity.
  - exists c, st. repeat split; reflexivity.
  - exists (objects (world st)),
      (set_playback
         {| playbackQueueRef := playbackQueueRef (playback st);
            isPlayingRef := isPlayingRef (playback st);
            nextPlayTimeRef := nextPlayTimeRef (playback st);
            playbackContextRef := Some (objects (world st)) |}
         (snd (create st))).
    repeat split; reflexivity.
Qed.

(** The buffer an accepted frame becomes. *)
Lemma createBuffer_filled supportedRate (samples : list spec_float) rate :
  samples <> [] -> supportedRate rate = true ->
  createBuffer supportedRate 1 (length samples) rate
  = Normal {| channelData := replicate (length samples) (S754_zero false);
              sampleRate := rate |}.
Proof.
  intros Hne Hr. unfold createBuffer. rewrite Hr.
  destruct samples; [congruence|reflexivity].
Qed.

(** What an accepted frame does while nothing plays. *)
Lemma idle_frame_effect
    (supportedRate : Q -> bool) (opts : Options) (data : list byte)
    (sampleRate : option Q) (now : Q) (st : State)
    (samples : list spec_float) :
  decodeSamples data = Normal (Some samples) ->
  samples <> [] ->
  supportedRate (default CAPTURE_SAMPLE_RATE sampleRate) = true ->
  isPlayingRef (playback st) = false ->
  playbackQueueRef (playback st) = [] ->
  onAiSpeakingChange opts = true ->
  let st' := snd (playAudioChunk supportedRate opts data sampleRate now st) in
  notifications (world st')
  = notifications (world st) ++ [AiSpeakingChange true; AiSpeakingChange true] /\
  isPlayingRef (playback st') = true /\
  playbackQueueRef (playback st') = [] /\
  map sourceBuffer (started (world st'))
  = map sourceBuffer (started (world st))
    ++ [{| channelData := samples;
           sampleRate := default CAPTURE_SAMPLE_RATE sampleRate |}] /\
  isAiSpeaking (view st') = true /\
  isUserSpeaking (view st') = isUserSpeaking (view st).
Proof.
  intros Hd Hne Hr Hp Hq Ha.
  destruct (playAudioChunk_shape supportedRate opts data sampleRate now st)
    as (ctx & st1 & _ & _ & Hv1 & Hq1 & Hp1 & _ & Hs1 & Hn1 & _ & ->).
  rewrite Hd, (createBuffer_filled _ _ _ Hne Hr).
  cbn [channelData Audio.sampleRate]. rewrite typedArraySet_full.
  cbv zeta. rewrite Hp1, Hp, Hq1, Hq.
  unfold playNextInQueue, signalAiSpeaking. rewrite Ha. simpl.
  rewrite Hn1, Hs1, Hv1, map_app, <- app_assoc. auto 10.
Qed.

(** X7.  A frame that is accepted while nothing plays is started at
    once, and [onAiSpeakingChange(true)] is called twice for it: once by
    [playAudioChunk] and once by [playNextInQueue]. *)
Theorem idle_frame_notifies_twice
    (supportedRate : Q -> bool) (opts : Options) (data : list byte)
    (sampleRate : option Q) (now : Q) (st : State)
    (samples : list spec_float) :
  decodeSamples data = Normal (Some samples) ->
  samples <> [] ->
  supportedRate (default CAPTURE_SAMPLE_RATE sampleRate) = true ->
  isPlayingRef (playback st) = false ->
  playbackQueueRef (playback st) = [] ->
  onAiSpeakingChange opts = true ->
  let st' := snd (playAudioChunk supportedRate opts data sampleRate now st) in
  notifications (world st')
  = notifications (world st) ++ [AiSpeakingChange true; AiSpeakingChange true] /\
  isPlayingRef (playback st') = true /\
  playbackQueueRef (playback st') = [] /\
  map sourceBuffer (started (world st'))
  = map sourceBuffer (started (world st))
    ++ [{| channelData := samples;
           sampleRate := default CAPTURE_SAMPLE_RATE sampleRate |}].
Proof.
  intros Hd Hne Hr Hp Hq Ha st'.
  destruct (idle_frame_effect supportedRate opts data sampleRate now st
              samples Hd Hne Hr Hp Hq Ha) as (H1 & H2 & H3 & H4 & _).
  auto.
Qed.

Lemma idle_frame_notifies_twice_witness :
  let supported := fun r => (Qle_bool 3000 r && Qle_bool r 768000)%bool in
  let opts := {| isConnected := false; onUserSpeakingChange := true;
                 onAiSpeakingChange := true |} in
  let st' := snd (playAudioChunk supported opts [x00; x40]%byte None 0
                    initial) in
  notifications (world st')
  = notifications (world initial)
    ++ [AiSpeakingChange true; AiSpeakingChange true] /\
  isPlayingRef (playback st') = true /\
  playbackQueueRef (playback st') = [] /\
  map sourceBuffer (started (world st'))
  = map sourceBuffer (started (world initial))
    ++ [{| channelData := [normalized 16384];
           sampleRate := CAPTURE_SAMPLE_RATE |}].
Proof.
  intros supported opts.
  apply (idle_frame_notifies_twice supported opts [x00; x40]%byte None 0
           initial [normalized 16384]);
    [reflexivity | discriminate | reflexivity | reflexivity | reflexivity
    | reflexivity].
Defined.

(** X8.  [stopCapture] leaves [isPlayingRef] as it is.  So after a
    teardown during playback, a frame that is accepted is only queued: no
    source is started for it, until a completion handler runs. *)
Theorem frame_after_teardown_waits
    (supportedRate : Q -> bool) (opts : Options) (data : list byte)
    (sampleRate : option Q) (now : Q) (st : State)
    (samples : list spec_float) :
  decodeSamples data = Normal (Some samples) ->
  samples <> [] ->
  supportedRate (default CAPTURE_SAMPLE_RATE sampleRate) = true ->
  isPlayingRef (playback st) = true ->
  let torn := stopCapture opts st in
  let result := playAudioChunk supportedRate opts data sampleRate now torn in
  fst result = Normal tt /\
  started (world (snd result)) = started (world st) /\
  playbackQueueRef (playback (snd result))
  = [{| channelData := samples;
        sampleRate := default CAPTURE_SAMPLE_RATE sampleRate |}] /\
  isPlayingRef (playback (snd result)) = true.
Proof.
  intros Hd Hne Hr Hp torn result.
  destruct (stopCapture_effect opts st) as (_ & Hq & _ & _ & Hpt & Hst & _).
  fold torn in Hq, Hpt, Hst.
  subst result.
  destruct (playAudioChunk_shape supportedRate opts data sampleRate now torn)
    as (ctx & st1 & _ & _ & _ & Hq1 & Hp1 & _ & Hs1 & _ & _ & ->).
  rewrite Hd, (createBuffer_filled _ _ _ Hne Hr).
  cbn [channelData Audio.sampleRate]. rewrite typedArraySet_full.
  cbv zeta. rewrite Hp1, Hpt, Hp. simpl.
  rewrite ?Hq1, ?Hq, ?Hs1, ?Hst, ?Hp1, ?Hpt, ?Hp. auto.
Qed.

Lemma frame_after_teardown_waits_witness :
  let supported := fun r => (Qle_bool 3000 r && Qle_bool r 768000)%bool in
  let opts := {| isConnected := false; onUserSpeakingChange := true;
                 onAiSpeakingChange := true |} in
  let st := run supported opts [PlayAudioChunk [x00; x40]%byte None 0]
              initial in
  let result := playAudioChunk supported opts [x00; x20]%byte None 5
                  (stopCapture opts st) in
  fst result = Normal tt /\
  started (world (snd result)) = started (world st) /\
  playbackQueueRef (playback (snd result))
  = [{| channelData := [normalized 8192];
        sampleRate := CAPTURE_SAMPLE_RATE |}] /\
  isPlayingRef (playback (snd result)) = true.
Proof.
  intros supported opts st.
  apply (frame_after_teardown_waits supported opts [x00; x20]%byte None 5 st
           [normalized 8192]);
    [reflexivity | discriminate | reflexivity | reflexivity].
Defined.



End PlaybackMore.

(** ** Playback: what a run keeps *)

Section PlaybackRuns.

Import TypedArrays Audio Timeline Observed Invariants.
Local Open Scope Q_scope.

Lemma cursorAtEnd_same st st' :
  started (world st') = started (world st) ->
  nextPlayTimeRef (playback st') = nextPlayTimeRef (playback st) ->
  isPlayingRef (playback st') = isPlayingRef (playback st) ->
  playbackQueueRef (playback st') = playbackQueueRef (playback st) ->
  cursorAtEnd st -> cursorAtEnd st'.
Proof.
  intros Hs Hn Hp Hq [H1 H2]. split; rewrite ?Hs, ?Hn, ?Hp, ?Hq; assumption.
Qed.

Lemma cursorAtEnd_playNextInQueue opts ctx now st :
  match last (started (world st)) with
  | Some s => nextPlayTimeRef (playback st) = endTime s
  | None => nextPlayTimeRef (playback st) = 0
  end ->
  cursorAtEnd (playNextInQueue opts ctx now st).
Proof.
  intros H. unfold playNextInQueue, signalAiSpeaking.
  destruct (playbackQueueRef (playback st)) as [|buffer rest],
    (onAiSpeakingChange opts); split; simpl; rewrite ?last_snoc;
    auto; discriminate.
Qed.

Lemma cursorAtEnd_playAudioChunk supportedRate opts data rate now st :
  cursorAtEnd st ->
  cursorAtEnd (snd (playAudioChunk supportedRate opts data rate now st)).
Proof.
  intros H.
  destruct (playAudioChunk_shape supportedRate opts data rate now st)
    as (ctx & st1 & _ & _ & _ & Hq & Hp & Hn & Hs & _ & _ & ->).
  assert (H1 : cursorAtEnd st1) by (eapply cursorAtEnd_same; eauto).
  destruct (decodeSamples data) as [[samples|]|e]; simpl; try exact H1.
  2:{ eapply cursorAtEnd_same; [..|exact H1]; reflexivity. }
  destruct (createBuffer _ _ _ _) as [buffer|e]; simpl; try exact H1.
  destruct (typedArraySet _ _) as [filled|e]; simpl; try exact H1.
  destruct (isPlayingRef (playback st1)) eqn:Hp1; simpl.
  - destruct H1 as [Hc Hi]. split; simpl; [exact Hc|].
    rewrite ?Hp1. discriminate.
  - apply cursorAtEnd_playNextInQueue. destruct H1 as [Hc _].
    unfold signalAiSpeaking. destruct (onAiSpeakingChange opts); exact Hc.
Qed.

Lemma cursorAtEnd_step supportedRate opts st a :
  cursorAtEnd st -> cursorAtEnd (step supportedRate opts st a).
Proof.
  intros H. destruct a as [data rate now|k now|media| |input now|now]; simpl.
  - apply cursorAtEnd_playAudioChunk, H.
  - destruct (started (world st) !! k); [|exact H].
    apply cursorAtEnd_playNextInQueue, H.
  - destruct (startCapture_playback media st) as [Hp Hs].
    eapply cursorAtEnd_same; [..|exact H]; rewrite ?Hp; auto.
  - destruct (stopCapture_effect opts st) as (_ & Hq & _ & Hn & Hp & Hs & _).
    destruct H as [Hc Hi]. split; rewrite ?Hs, ?Hn; auto.
  - destruct (onaudioprocess_playback opts input now st) as [Hp Hs].
    eapply cursorAtEnd_same; [..|exact H]; rewrite ?Hp; auto.
  - destruct (checkSilence_playback opts now st) as [Hp Hs].
    eapply cursorAtEnd_same; [..|exact H]; rewrite ?Hp; auto.
Qed.

Lemma cursorAtEnd_run supportedRate opts actions : forall st,
  cursorAtEnd st -> cursorAtEnd (run supportedRate opts actions st).
Proof.
  induction actions as [|a actions IH]; intros st H; [exact H|].
  simpl. apply IH, cursorAtEnd_step, H.
Qed.

Lemma cursorAtEnd_initial : cursorAtEnd initial.
Proof. split; reflexivity. Qed.

(** X11.  In every state the hook reaches, the queue is empty whenever
    [isPlayingRef] is [false]: no buffer waits while nothing plays. *)
Theorem idle_queue_empty
    (supportedRate : Q -> bool) (opts : Options) (actions : list Action) :
  let st := run supportedRate opts actions initial in
  isPlayingRef (playback st) = false -> playbackQueueRef (playback st) = [].
Proof.
  intros st.
  apply (cursorAtEnd_run supportedRate opts actions initial
           cursorAtEnd_initial).
Qed.

Lemma idle_queue_empty_witness :
  let supported := fun r => (Qle_bool 3000 r && Qle_bool r 768000)%bool in
  let opts := {| isConnected := false; onUserSpeakingChange := true;
                 onAiSpeakingChange := true |} in
  let frame := [x00; x00; x80; x3f]%byte in
  let st := run supported opts
              [PlayAudioChunk frame None 0; PlayAudioChunk frame None 0;
               SourceEnded 0 1; SourceEnded 1 2] initial in
  playbackQueueRef (playback st) = [].
Proof.
  intros supported opts frame st.
  exact (idle_queue_empty supported opts
           [PlayAudioChunk frame None 0; PlayAudioChunk frame None 0;
            SourceEnded 0 1; SourceEnded 1 2] eq_refl).
Defined.

Lemma cursor_le_playNextInQueue opts ctx now st :
  (forall b, b ∈ playbackQueueRef (playback st) -> 0 <= duration b) ->
  nextPlayTimeRef (playback st)
  <= nextPlayTimeRef (playback (playNextInQueue opts ctx now st)).
Proof.
  intros Hd. unfold playNextInQueue, signalAiSpeaking.
  destruct (playbackQueueRef (playback st)) as [|buffer rest] eqn:Hq,
    (onAiSpeakingChange opts); simpl; try apply Qle_refl;
    pose proof (Hd buffer ltac:(left));
    pose proof (Q.le_max_r now (nextPlayTimeRef (playback st))); qlra.
Qed.

Lemma cursor_le_step supportedRate opts st a :
  (forall r, supportedRate r = true -> 0 < r) ->
  scheduledInOrder st ->
  nextPlayTimeRef (playback st)
  <= nextPlayTimeRef (playback (step supportedRate opts st a)).
Proof.
  intros Hpos [_ _ Hd].
  assert (Hq : forall b, b ∈ playbackQueueRef (playback st) -> 0 <= duration b).
  { intros b Hb. apply Hd. apply elem_of_app. right. exact Hb. }
  destruct a as [data rate now|k now|media| |input now|now]; simpl.
  - destruct (playAudioChunk_shape supportedRate opts data rate now st)
      as (ctx & st1 & _ & _ & _ & Hq1 & Hp & Hn & _ & _ & _ & ->).
    rewrite <- Hn.
    destruct (decodeSamples data) as [[samples|]|e]; simpl; try apply Qle_refl.
    destruct (createBuffer _ _ _ _) as [buffer|e] eqn:Hb; simpl;
      try apply Qle_refl.
    destruct (typedArraySet _ _) as [filled|e]; simpl; try apply Qle_refl.
    destruct (isPlayingRef (playback st1)); simpl; try apply Qle_refl.
    apply createBuffer_duration in Hb as [Hrate Hr]; [|exact Hpos].
    eapply Qle_trans; [|apply cursor_le_playNextInQueue].
    + unfold signalAiSpeaking. destruct (onAiSpeakingChange opts);
        apply Qle_refl.
    + intros b Hb.
      assert (Hin : b ∈ playbackQueueRef (playback st1)
                          ++ [{| channelData := filled;
                                 sampleRate := sampleRate buffer |}]).
      { unfold signalAiSpeaking in Hb.
        destruct (onAiSpeakingChange opts); exact Hb. }
      apply elem_of_app in Hin as [Hin|Hin].
      * apply Hq. rewrite <- Hq1. exact Hin.
      * apply list_elem_of_singleton in Hin. subst b.
        apply duration_nonneg. simpl. rewrite Hrate. exact Hr.
  - destruct (started (world st) !! k); [|apply Qle_refl].
    apply cursor_le_playNextInQueue, Hq.
  - destruct (startCapture_playback media st) as [-> _]. apply Qle_refl.
  - destruct (stopCapture_effect opts st) as (_ & _ & _ & -> & _).
    apply Qle_refl.
  - destruct (onaudioprocess_playback opts input now st) as [-> _].
    apply Qle_refl.
  - destruct (checkSilence_playback opts now st) as [-> _]. apply Qle_refl.
Qed.

Lemma cursor_le_run supportedRate opts actions :
  (forall r, supportedRate r = true -> 0 < r) ->
  forall st, scheduledInOrder st ->
    nextPlayTimeRef (playback st)
    <= nextPlayTimeRef (playback (run supportedRate opts actions st)).
Proof.
  intros Hpos. induction actions as [|a actions IH]; intros st H.
  - apply Qle_refl.
  - simpl. eapply Qle_trans; [apply cursor_le_step; eassumption|].
    apply IH, scheduledInOrder_step; assumption.
Qed.

(** X12.  [nextPlayTimeRef] never moves back, whatever happens to the
    hook afterwards; [stopCapture] in particular does not reset it. *)
Theorem cursor_never_moves_back
    (supportedRate : Q -> bool) (opts : Options)
    (before after : list Action) :
  (forall r, supportedRate r = true -> 0 < r) ->
  let st := run supportedRate opts before initial in
  nextPlayTimeRef (playback st)
  <= nextPlayTimeRef (playback (run supportedRate opts after st)) /\
  nextPlayTimeRef (playback (stopCapture opts st))
  = nextPlayTimeRef (playback st).
Proof.
  intros Hpos st. split.
  - apply cursor_le_run; [exact Hpos|].
    apply scheduledInOrder_run; [exact Hpos|apply inOrder_initial].
  - apply stopCapture_effect.
Qed.

Lemma cursor_never_moves_back_witness :
  let supported := fun r => (Qle_bool 3000 r && Qle_bool r 768000)%bool in
  let opts := {| isConnected := false; onUserSpeakingChange := true;
                 onAiSpeakingChange := true |} in
  let frame := [x00; x00; x80; x3f]%byte in
  let st := run supported opts [PlayAudioChunk frame None 7] initial in
  nextPlayTimeRef (playback st)
  <= nextPlayTimeRef
       (playback (run supported opts
                    [StopCapture; PlayAudioChunk frame None 0;
                     SourceEnded 0 0] st)) /\
  nextPlayTimeRef (playback (stopCapture opts st))
  = nextPlayTimeRef (playback st).
Proof.
  intros supported opts frame st.
  apply (cursor_never_moves_back supported opts
           [PlayAudioChunk frame None 7]
           [StopCapture; PlayAudioChunk frame None 0; SourceEnded 0 0]).
  intros r Hr. apply andb_true_iff in Hr as [Hr _].
  apply Qle_bool_iff in Hr. qlra.
Defined.

(** An action never removes a started source, and only [stopCapture]
    removes a queued buffer. *)
Lemma order_kept_step supportedRate opts st a :
  started (world st) `prefix_of`
    started (world (step supportedRate opts st a)) /\
  (a <> StopCapture ->
   buffersInOrder st `prefix_of`
     buffersInOrder (step supportedRate opts st a)).
Proof.
  assert (Hnext : forall ctx now s,
            started (world s) `prefix_of`
              started (world (playNextInQueue opts ctx now s))).
  { intros ctx now s. unfold playNextInQueue, signalAiSpeaking.
    destruct (playbackQueueRef (playback s)), (onAiSpeakingChange opts);
      simpl; try reflexivity; apply prefix_app_r; reflexivity. }
  destruct a as [data rate now|k now|media| |input now|now]; simpl.
  - destruct (playAudioChunk_shape supportedRate opts data rate now st)
      as (ctx & st1 & _ & _ & _ & Hq1 & _ & _ & Hs1 & _ & _ & ->).
    assert (Hb1 : buffersInOrder st1 = buffersInOrder st).
    { unfold buffersInOrder. rewrite Hq1, Hs1. reflexivity. }
    rewrite <- Hs1, <- Hb1.
    destruct (decodeSamples data) as [[samples|]|e]; simpl;
      try (split; reflexivity).
    destruct (createBuffer _ _ _ _) as [buffer|e]; simpl;
      try (split; reflexivity).
    destruct (typedArraySet _ _) as [filled|e]; simpl;
      try (split; reflexivity).
    destruct (isPlayingRef (playback st1)); simpl.
    + split; [reflexivity|]. intros _. unfold buffersInOrder. simpl.
      rewrite app_assoc. apply prefix_app_r. reflexivity.
    + split.
      * etrans; [|apply Hnext]. unfold signalAiSpeaking.
        destruct (onAiSpeakingChange opts); reflexivity.
      * intros _. rewrite buffersInOrder_playNextInQueue.
        unfold buffersInOrder, signalAiSpeaking.
        destruct (onAiSpeakingChange opts); simpl;
          rewrite app_assoc; apply prefix_app_r; reflexivity.
  - destruct (started (world st) !! k) as [s|]; [|split; reflexivity].
    split; [apply Hnext|]. intros _.
    rewrite buffersInOrder_playNextInQueue. reflexivity.
  - unfold buffersInOrder.
    destruct (startCapture_playback media st) as [-> ->]. split; reflexivity.
  - destruct (stopCapture_effect opts st) as (_ & _ & _ & _ & _ & -> & _).
    split; [reflexivity|congruence].
  - unfold buffersInOrder.
    destruct (onaudioprocess_playback opts input now st) as [-> ->].
    split; reflexivity.
  - unfold buffersInOrder.
    destruct (checkSilence_playback opts now st) as [-> ->].
    split; reflexivity.
Qed.

(** X13.  Over any run, the sources already started stay started, in the
    same order; and over a run without [stopCapture], every buffer taken
    so far keeps its place in the order of playing: frames are played in
    the order of their arrival, none dropped or overtaken. *)
Theorem playback_order_kept
    (supportedRate : Q -> bool) (opts : Options)
    (actions : list Action) (st : State) :
  started (world st) `prefix_of`
    started (world (run supportedRate opts actions st)) /\
  (Forall (fun a => a <> StopCapture) actions ->
   buffersInOrder st `prefix_of`
     buffersInOrder (run supportedRate opts actions st)).
Proof.
  revert st. induction actions as [|a actions IH]; intros st.
  - split; reflexivity.
  - simpl. destruct (order_kept_step supportedRate opts st a) as [H1 H2].
    destruct (IH (step supportedRate opts st a)) as [H3 H4]. split.
    + etrans; eassumption.
    + intros Hall. apply Forall_cons in Hall as [Ha Hall].
      etrans; [apply H2, Ha|apply H4, Hall].
Qed.

Lemma playback_order_kept_witness :
  let supported := fun r => (Qle_bool 3000 r && Qle_bool r 768000)%bool in
  let opts := {| isConnected := false; onUserSpeakingChange := true;
                 onAiSpeakingChange := true |} in
  let st := run supported opts [PlayAudioChunk [x00; x40]%byte None 0]
              initial in
  buffersInOrder st `prefix_of`
    buffersInOrder
      (run supported opts
         [PlayAudioChunk [x00; x20]%byte None 0; SourceEnded 0 1] st).
Proof.
  intros supported opts st.
  apply (playback_order_kept supported opts
           [PlayAudioChunk [x00; x20]%byte None 0; SourceEnded 0 1] st).
  repeat constructor; discriminate.
Defined.

End PlaybackRuns.

(** ** Capture lifecycle: start and stop together *)

Section LifecycleMore.

Import TypedArrays Audio Timeline Observed.
Local Open Scope Q_scope.

(** What a granted [startCapture] followed by [stopCapture] does. *)
Lemma start_then_stop_effect opts st :
  let n := objects (world st) in
  let st1 := snd (startCapture Resolved st) in
  let st2 := stopCapture opts st1 in
  fst (startCapture Resolved st) = true /\
  micPermission (view st1) = granted /\
  capture st1 = {| audioContextRef := Some (S n); sourceRef := Some (S (S n));
                   processorRef := Some (S (S (S n)));
                   streamRef := Some n |} /\
  objects (world st1) = (n + 5)%nat /\
  stoppedStreams (world st1) = stoppedStreams (world st) /\
  closedContexts (world st1) = closedContexts (world st) /\
  disconnectedNodes (world st1) = disconnectedNodes (world st) /\
  capture st2 = capture initial /\
  stoppedStreams (world st2) = stoppedStreams (world st) ++ [n] /\
  disconnectedNodes (world st2)
  = disconnectedNodes (world st) ++ [S (S (S n)); S (S n)] /\
  closedContexts (world st2)
  = closedContexts (world st) ++ [S n]
    ++ option_list (playbackContextRef (playback st)).
Proof.
  destruct opts as [c [|] a];
    destruct st as [[? ? ? ?] [? ? ? [?|]] ? ? [n ? ? ? ? ? ? ?]];
    cbv zeta; cbn [objects world];
    replace (n + 5)%nat with (S (S (S (S (S n))))) by lia;
    repeat split; try (vm_compute; reflexivity).
  all: vm_compute; symmetry; exact (app_assoc _ [_] [_]).
Qed.

(** X15.  [startCapture] releases nothing.  A stream held when it is
    called again is replaced in [streamRef] without being stopped, and the
    [stopCapture] that follows stops only the new one. *)
Theorem restart_strands_stream (opts : Options) (st : State) (held : nat) :
  streamRef (capture st) = Some held ->
  (held < objects (world st))%nat ->
  held ∉ stoppedStreams (world st) ->
  let st1 := snd (startCapture Resolved st) in
  (streamRef (capture st1) <> Some held) /\
  (held ∉ stoppedStreams (world st1)) /\
  held ∉ stoppedStreams (world (stopCapture opts st1)).
Proof.
  intros Hh Hlt Hn st1.
  destruct (start_then_stop_effect opts st)
    as (_ & _ & H3 & _ & H5 & _ & _ & _ & H8 & _).
  fold st1 in H3, H5, H8. rewrite H3, H5, H8. simpl.
  split; [intros [= E]; lia|]. split; [exact Hn|].
  rewrite elem_of_app, list_elem_of_singleton. intros [?|?]; [auto|lia].
Qed.

Lemma restart_strands_stream_witness :
  let opts := {| isConnected := false; onUserSpeakingChange := true;
                 onAiSpeakingChange := true |} in
  let st := snd (startCapture Resolved initial) in
  let st1 := snd (startCapture Resolved st) in
  (streamRef (capture st1) <> Some 0%nat) /\
  (0%nat ∉ stoppedStreams (world st1)) /\
  0%nat ∉ stoppedStreams (world (stopCapture opts st1)).
Proof.
  intros opts st.
  apply (restart_strands_stream opts st 0%nat);
    [reflexivity | simpl; lia | simpl; apply not_elem_of_nil].
Defined.

(** X16.  A second [stopCapture] right after the first releases nothing
    again and changes no reference or React state: it only calls
    [onUserSpeakingChange(false)] once more. *)
Theorem stopCapture_twice (opts : Options) (st : State) :
  let once := stopCapture opts st in
  let twice := stopCapture opts once in
  capture twice = capture once /\
  playback twice = playback once /\
  vad twice = vad once /\
  view twice = view once /\
  stoppedStreams (world twice) = stoppedStreams (world once) /\
  closedContexts (world twice) = closedContexts (world once) /\
  disconnectedNodes (world twice) = disconnectedNodes (world once) /\
  started (world twice) = started (world once) /\
  notifications (world twice)
  = notifications (world once)
    ++ (if onUserSpeakingChange opts then [UserSpeakingChange false] else []).
Proof.
  destruct opts as [c u a].
  destruct st as [[[?|] [?|] [?|] [?|]] [? ? ? [?|]] ? ? ?];
    destruct u; cbv beta iota zeta delta [onUserSpeakingChange];
    rewrite ?app_nil_r; vm_compute; repeat split; reflexivity.
Qed.

End LifecycleMore.


(** ** Transport: what a run keeps *)

Section TransportMore.

Import TypedArrays Socket Channel Observed SocketInvariants.

Lemma coherent_initial : coherent initial.
Proof. split; simpl; auto; discriminate. Qed.

Lemma length_platform_set st id r :
  length (sockets (platform_set id r st)) = length (sockets st).
Proof.
  unfold platform_set. destruct (sockets st !! id); [|reflexivity].
  simpl. apply length_insert.
Qed.

Lemma length_wsClose st id :
  length (sockets (wsClose id st)) = length (sockets st).
Proof.
  unfold wsClose. destruct (sockets st !! id) as [ws|]; [|reflexivity].
  destruct (readyState ws); try reflexivity; simpl; apply length_insert.
Qed.

Lemma length_wsSend st id data :
  length (sockets (wsSend id data st)) = length (sockets st).
Proof.
  unfold wsSend. destruct (sockets st !! id); [|reflexivity].
  simpl. apply length_insert.
Qed.

Lemma coherent_step opts st a : coherent st -> coherent (step opts st a).
Proof.
  intros H. pose proof H as [Hr He Hc Hm].
  destruct a as [| |data|ws|ws|ws|ws data]; simpl.
  - unfold connect.
    destruct (socketRef st ≫= readyStateOf st) as [[]|];
      try exact H;
      split; simpl; auto; try discriminate;
      intros w [= <-]; rewrite length_app; simpl; lia.
  - unfold disconnect.
    destruct (socketRef st) as [ws|] eqn:Hs, (onDisconnect opts);
      split; simpl; auto; intros; congruence.
  - unfold send. destruct (socketRef st) as [ws|] eqn:Hs; [|exact H].
    destruct (readyStateOf st ws) as [[]|]; try exact H.
    simpl. unfold wsSend. destruct (sockets st !! ws) as [sock|];
      [|exact H].
    split; simpl; auto.
    intros w Hw. rewrite length_insert. apply Hr. congruence.
  - destruct (readyStateOf st ws) as [[]|]; try exact H.
    unfold onOpen. destruct (onConnect opts);
      split; simpl; try discriminate;
      rewrite ?length_platform_set;
      unfold platform_set; destruct (sockets st !! ws); simpl; auto.
  - destruct (readyStateOf st ws) as [[]|]; try exact H;
      unfold onClose; destruct (onDisconnect opts);
      split; simpl; try discriminate;
      unfold platform_set; destruct (sockets st !! ws); simpl; auto.
  - destruct (readyStateOf st ws); [|exact H].
    unfold onError. split; simpl; auto; discriminate.
  - destruct (readyStateOf st ws) as [[]|]; try exact H.
    unfold onMessageEvent. destruct data, (onMessage opts);
      split; simpl; assumption.
Qed.

Lemma coherent_run opts actions : forall st,
  coherent st -> coherent (run opts actions st).
Proof.
  induction actions as [|a actions IH]; intros st H; [exact H|].
  simpl. apply IH, coherent_step, H.
Qed.

End TransportMore.

Section TransportRuns.

Import TypedArrays Socket Channel Observed SocketInvariants.

(** X17.  In every state the hook reaches, the socket it refers to is the
    one created last: a close or a send of the hook goes to the newest
    socket only. *)
Theorem hook_refers_to_newest (opts : Options) (actions : list Action) :
  let st := run opts actions initial in
  forall ws, socketRef st = Some ws ->
    S ws = length (sockets st) /\ sockets st !! ws = last (sockets st).
Proof.
  intros st ws Hs.
  pose proof (coherent_run opts actions initial coherent_initial) as [Hr _ _ _].
  fold st in Hr. specialize (Hr ws Hs). split; [exact Hr|].
  rewrite last_lookup, <- Hr. reflexivity.
Qed.

Lemma hook_refers_to_newest_witness :
  let opts := {| uri := "ws://host"; onMessage := true; onConnect := true;
                 onDisconnect := true |} in
  let st := run opts [Connect; Connect] initial in
  socketRef st = Some 1%nat /\
  S 1 = length (sockets st) /\ sockets st !! 1%nat = last (sockets st).
Proof.
  intros opts st. split; [reflexivity|].
  apply (hook_refers_to_newest opts [Connect; Connect] 1%nat). reflexivity.
Defined.

(** X18.  No call of the hook closes, or writes to, a socket other than
    the newest: the socket that [connect] replaces is left as it is. *)
Theorem replaced_socket_left_alone
    (opts : Options) (actions : list Action) (a : Action) (id : nat) :
  let st := run opts actions initial in
  isCall a = true ->
  (S id < length (sockets st))%nat ->
  sockets (step opts st a) !! id = sockets st !! id.
Proof.
  intros st Ha Hid.
  pose proof (coherent_run opts actions initial coherent_initial) as [Hr _ _ _].
  fold st in Hr.
  destruct a as [| |data| | | |]; try discriminate Ha; simpl.
  - unfold connect.
    destruct (socketRef st ≫= readyStateOf st) as [[]|]; try reflexivity;
      simpl; apply lookup_app_l; lia.
  - unfold disconnect.
    destruct (socketRef st) as [ws|] eqn:Hs.
    + specialize (Hr ws eq_refl).
      assert (sockets (wsClose ws st) !! id = sockets st !! id) as E.
      { unfold wsClose. destruct (sockets st !! ws) as [sock|]; [|reflexivity].
        destruct (readyState sock); try reflexivity;
          simpl; apply list_lookup_insert_ne; lia. }
      destruct (onDisconnect opts); simpl; exact E.
    + destruct (onDisconnect opts); reflexivity.
  - unfold send. destruct (socketRef st) as [ws|] eqn:Hs; [|reflexivity].
    specialize (Hr ws eq_refl).
    destruct (readyStateOf st ws) as [[]|]; try reflexivity.
    simpl. unfold wsSend. destruct (sockets st !! ws); [|reflexivity].
    simpl. apply list_lookup_insert_ne. lia.
Qed.

Lemma replaced_socket_left_alone_witness :
  let opts := {| uri := "ws://host"; onMessage := true; onConnect := true;
                 onDisconnect := true |} in
  let st := run opts [Connect; Connect] initial in
  sockets (step opts st Disconnect) !! 0%nat = sockets st !! 0%nat /\
  (readyState <$> sockets (step opts st Disconnect) !! 0%nat)
  = Some CONNECTING.
Proof.
  intros opts st. split; [|reflexivity].
  apply (replaced_socket_left_alone opts [Connect; Connect] Disconnect 0);
    [reflexivity | simpl; lia].
Defined.

(** X19.  The status and the error message go together in every state the
    hook reaches: status [error] comes with the message "Connection
    failed", status [connecting] with none, and there is no other
    message. *)
Theorem status_and_message (opts : Options) (actions : list Action) :
  let st := run opts actions initial in
  (status st = error -> errorMessage st = Some "Connection failed"%string) /\
  (status st = connecting -> errorMessage st = None) /\
  (errorMessage st = None \/
   errorMessage st = Some "Connection failed"%string).
Proof.
  intros st.
  pose proof (coherent_run opts actions initial coherent_initial)
    as [_ He Hc Hm].
  auto.
Qed.

(** X20.  The close listener does not look at which socket closed.  When
    a socket other than the referenced one closes, the hook forgets the
    referenced socket and reports [disconnected]; that socket itself is
    not touched, so it stays open, and [send] refuses from then on. *)
Theorem stale_close_drops_channel
    (opts : Options) (st : State) (ws old : nat) (r : ReadyState)
    (data : list byte) :
  socketRef st = Some ws ->
  old <> ws ->
  readyStateOf st old = Some r ->
  r <> CLOSED ->
  let st' := step opts st (CloseEvent old) in
  socketRef st' = None /\
  status st' = disconnected /\
  errorMessage st' = errorMessage st /\
  sockets st' !! ws = sockets st !! ws /\
  send data st' = (false, st').
Proof.
  intros Hs Hne Hr Hc st'. subst st'. simpl. rewrite Hr.
  assert (forall s, socketRef s = None -> send data s = (false, s)) as Hsend.
  { intros s E. unfold send. rewrite E. reflexivity. }
  assert (sockets (platform_set old CLOSED st) !! ws = sockets st !! ws) as E.
  { unfold platform_set. destruct (sockets st !! old); [|reflexivity].
    simpl. apply list_lookup_insert_ne. exact Hne. }
  destruct r; try (exfalso; apply Hc; reflexivity);
    unfold onClose; destruct (onDisconnect opts); simpl;
    repeat split; try exact E; try (apply Hsend; reflexivity);
    unfold platform_set; destruct (sockets st !! old); reflexivity.
Qed.

Lemma stale_close_drops_channel_witness :
  let opts := {| uri := "ws://host"; onMessage := true; onConnect := true;
                 onDisconnect := true |} in
  let st := run opts [Connect; Connect; OpenEvent 1] initial in
  let st' := step opts st (CloseEvent 0) in
  readyStateOf st 1%nat = Some OPEN /\
  fst (send [] st) = true /\
  socketRef st' = None /\
  status st' = disconnected /\
  errorMessage st' = errorMessage st /\
  sockets st' !! 1%nat = sockets st !! 1%nat /\
  send [] st' = (false, st').
Proof.
  intros opts st. split; [reflexivity|]. split; [reflexivity|].
  apply (stale_close_drops_channel opts st 1%nat 0%nat CONNECTING []);
    [reflexivity | lia | reflexivity | discriminate].
Defined.

(** X21.  The open listener does not look at which socket opened either.
    When a socket other than the referenced one opens while the referenced
    one is not open, the hook reports [connected] and [isConnected] is
    true, although [send] writes nothing and returns [false]. *)
Theorem stale_open_reports_connected
    (opts : Options) (st : State) (ws old : nat) (r : ReadyState)
    (data : list byte) :
  socketRef st = Some ws ->
  old <> ws ->
  readyStateOf st old = Some CONNECTING ->
  readyStateOf st ws = Some r ->
  r <> OPEN ->
  let st' := step opts st (OpenEvent old) in
  status st' = connected /\
  isConnected st' = true /\
  socketRef st' = Some ws /\
  send data st' = (false, st').
Proof.
  intros Hs Hne Ho Hr Hn st'. subst st'. simpl. rewrite Ho.
  assert (readyStateOf (platform_set old OPEN st) ws = Some r) as E.
  { unfold readyStateOf, platform_set in *.
    destruct (sockets st !! old); [|exact Hr].
    simpl. rewrite list_lookup_insert_ne by exact Hne. exact Hr. }
  assert (socketRef (platform_set old OPEN st) = Some ws) as E'.
  { unfold platform_set. destruct (sockets st !! old); exact Hs. }
  unfold onOpen. destruct (onConnect opts);
    repeat split; simpl; try reflexivity; try exact E';
    unfold send; simpl; rewrite E';
    unfold readyStateOf in *; simpl; rewrite E;
    destruct r; try reflexivity; exfalso; apply Hn; reflexivity.
Qed.

Lemma stale_open_reports_connected_witness :
  let opts := {| uri := "ws://host"; onMessage := true; onConnect := true;
                 onDisconnect := true |} in
  let st := run opts [Connect; Connect] initial in
  let st' := step opts st (OpenEvent 0) in
  status st' = connected /\
  isConnected st' = true /\
  socketRef st' = Some 1%nat /\
  send [] st' = (false, st').
Proof.
  intros opts st.
  apply (stale_open_reports_connected opts st 1%nat 0%nat CONNECTING []);
    [reflexivity | lia | reflexivity | reflexivity | discriminate].
Defined.

(** X22.  A failed connection ends as [disconnected], with the message
    kept: the close event that follows the error event of a socket
    replaces the status [error], forgets the socket and leaves the
    message "Connection failed" in place. *)
Theorem error_then_close
    (opts : Options) (st : State) (ws : nat) (r : ReadyState) :
  readyStateOf st ws = Some r ->
  r <> CLOSED ->
  let failed := step opts st (ErrorEvent ws) in
  let closed := step opts failed (CloseEvent ws) in
  status failed = error /\
  errorMessage failed = Some "Connection failed"%string /\
  socketRef failed = socketRef st /\
  status closed = disconnected /\
  errorMessage closed = Some "Connection failed"%string /\
  socketRef closed = None.
Proof.
  intros Hr Hc failed closed. subst closed failed. simpl. rewrite Hr.
  unfold readyStateOf in *. simpl. rewrite Hr.
  destruct r; try (exfalso; apply Hc; reflexivity);
    unfold onClose; destruct (onDisconnect opts); simpl;
    repeat split; unfold platform_set; simpl;
    destruct (sockets st !! ws); reflexivity.
Qed.

Lemma error_then_close_witness :
  let opts := {| uri := "ws://host"; onMessage := true; onConnect := true;
                 onDisconnect := true |} in
  let st := run opts [Connect] initial in
  let failed := step opts st (ErrorEvent 0) in
  let closed := step opts failed (CloseEvent 0) in
  status failed = error /\
  errorMessage failed = Some "Connection failed"%string /\
  socketRef failed = socketRef st /\
  status closed = disconnected /\
  errorMessage closed = Some "Connection failed"%string /\
  socketRef closed = None.
Proof.
  intros opts st.
  apply (error_then_close opts st 0%nat CONNECTING);
    [reflexivity | discriminate].
Defined.

Lemma deliveredMessages_step opts st a :
  deliveredMessages (step opts st a)
  = deliveredMessages st
    ++ match a with
       | MessageEvent ws (Binary data) =>
           match readyStateOf st ws with
           | Some OPEN => if onMessage opts then [data] else []
           | _ => []
           end
       | _ => []
       end.
Proof.
  unfold deliveredMessages.
  destruct a as [| |data|ws|ws|ws|ws [data|text]]; simpl.
  - unfold connect.
    destruct (socketRef st ≫= readyStateOf st) as [[]|];
      simpl; rewrite app_nil_r; reflexivity.
  - unfold disconnect.
    assert (forall ws, notifications (wsClose ws st) = notifications st) as E.
    { intros ws. unfold wsClose. destruct (sockets st !! ws) as [sock|];
        [|reflexivity]. destruct (readyState sock); reflexivity. }
    destruct (socketRef st) as [ws|], (onDisconnect opts); simpl;
      rewrite ?omap_app, ?E; simpl; rewrite app_nil_r; reflexivity.
  - unfold send. destruct (socketRef st) as [ws|];
      [|simpl; rewrite app_nil_r; reflexivity].
    destruct (readyStateOf st ws) as [[]|];
      simpl; rewrite app_nil_r; try reflexivity.
    unfold wsSend. destruct (sockets st !! ws); reflexivity.
  - destruct (readyStateOf st ws) as [[]|]; rewrite app_nil_r;
      try reflexivity.
    unfold onOpen, platform_set.
    destruct (onConnect opts), (sockets st !! ws); simpl;
      rewrite ?omap_app; simpl; rewrite ?app_nil_r; reflexivity.
  - destruct (readyStateOf st ws) as [[]|]; rewrite app_nil_r;
      try reflexivity;
      unfold onClose, platform_set;
      destruct (onDisconnect opts), (sockets st !! ws); simpl;
      rewrite ?omap_app; simpl; rewrite ?app_nil_r; reflexivity.
  - destruct (readyStateOf st ws); rewrite app_nil_r; reflexivity.
  - destruct (readyStateOf st ws) as [[]|]; rewrite ?app_nil_r;
      try reflexivity.
    destruct (onMessage opts); simpl;
      rewrite ?omap_app, ?app_nil_r; reflexivity.
  - destruct (readyStateOf st ws) as [[]|]; rewrite app_nil_r; reflexivity.
Qed.

(** X23.  [onMessage] gets binary payloads only, in the order of their
    message events, each at most once; text messages are dropped, and
    without an [onMessage] nothing is delivered. *)
Theorem messages_delivered_in_order
    (opts : Options) (actions : list Action) (st : State) :
  exists k,
    deliveredMessages (run opts actions st) = deliveredMessages st ++ k /\
    sublist k (binaryPayloads actions) /\
    (onMessage opts = false -> k = []).
Proof.
  revert st. induction actions as [|a actions IH]; intros st.
  - exists []. rewrite app_nil_r. repeat split. constructor.
  - destruct (IH (step opts st a)) as (k & Hk & Hsub & Hoff).
    simpl. fold (run opts actions (step opts st a)). rewrite Hk.
    rewrite deliveredMessages_step, <- app_assoc.
    eexists. split; [reflexivity|].
    destruct a as [| |data|ws|ws|ws|ws [data|text]]; simpl;
      try (split; assumption).
    destruct (readyStateOf st ws) as [[]|];
      try (split; [apply sublist_cons|]; assumption).
    destruct (onMessage opts) eqn:Hm; simpl.
    + split; [apply sublist_skip; exact Hsub | discriminate].
    + split; [apply sublist_cons; exact Hsub | exact Hoff].
Qed.

End TransportRuns.
(** ** The page: both hooks together *)

Section PageFacts.

Import TypedArrays Observed SocketInvariants Personaplex.

Lemma heard_step uri st a :
  Forall (fun n => isMessage n = true) (Socket.notifications st) ->
  Forall (fun n => isMessage n = true)
         (Socket.notifications (Socket.step (socketOptions uri) st a)).
Proof.
  intros H.
  assert (forall ws r,
            Socket.notifications (Socket.platform_set ws r st)
            = Socket.notifications st) as Ep.
  { intros ws r. unfold Socket.platform_set.
    destruct (Socket.sockets st !! ws); reflexivity. }
  assert (forall ws,
            Socket.notifications (Socket.wsClose ws st)
            = Socket.notifications st) as Ec.
  { intros ws. unfold Socket.wsClose.
    destruct (Socket.sockets st !! ws) as [sock|]; [|reflexivity].
    destruct (Socket.readyState sock); reflexivity. }
  destruct a as [| |data|ws|ws|ws|ws [data|text]]; simpl.
  - unfold Socket.connect.
    destruct (Socket.socketRef st ≫= Socket.readyStateOf st) as [[]|];
      exact H.
  - unfold Socket.disconnect.
    destruct (Socket.socketRef st) as [ws|]; simpl; rewrite ?Ec; exact H.
  - unfold Socket.send. destruct (Socket.socketRef st) as [ws|]; [|exact H].
    destruct (Socket.readyStateOf st ws) as [[]|]; try exact H.
    simpl. unfold Socket.wsSend.
    destruct (Socket.sockets st !! ws); exact H.
  - destruct (Socket.readyStateOf st ws) as [[]|]; try exact H.
    simpl. rewrite Ep. exact H.
  - destruct (Socket.readyStateOf st ws) as [[]|]; try exact H;
      simpl; rewrite Ep; exact H.
  - destruct (Socket.readyStateOf st ws); exact H.
  - destruct (Socket.readyStateOf st ws) as [[]|]; try exact H.
    simpl. apply Forall_app. split; [exact H|]. repeat constructor.
  - destruct (Socket.readyStateOf st ws) as [[]|]; exact H.
Qed.

Lemma heard_run uri actions : forall st,
  Forall (fun n => isMessage n = true) (Socket.notifications st) ->
  Forall (fun n => isMessage n = true)
         (Socket.notifications (Socket.run (socketOptions uri) actions st)).
Proof.
  induction actions as [|a actions IH]; intros st H; [exact H|].
  simpl. apply IH, heard_step, H.
Qed.

(** X24.  The page passes the socket hook no [onConnect] and no
    [onDisconnect]: whatever happens, the only callbacks the socket hook
    makes are the deliveries of messages. *)
Theorem page_hears_messages_only (uri : string)
    (actions : list Socket.Action) :
  let st := Socket.run (socketOptions uri) actions Socket.initial in
  Socket.notifications st = map Socket.Message (deliveredMessages st) /\
  Channel.disconnections st = 0%nat.
Proof.
  intros st.
  pose proof (heard_run uri actions Socket.initial (Forall_nil_2 _)) as H.
  fold st in H. unfold deliveredMessages, Channel.disconnections.
  induction H as [|n ns Hn _ IH]; [split; reflexivity|].
  destruct n; try discriminate Hn. simpl.
  destruct IH as [IH1 IH2]. split; [f_equal; exact IH1 | exact IH2].
Qed.

Lemma stopCapture_view opts st :
  Audio.view (Audio.stopCapture opts st)
  = {| Audio.micPermission := Audio.micPermission (Audio.view st);
       Audio.isUserSpeaking := false;
       Audio.isAiSpeaking := Audio.isAiSpeaking (Audio.view st) |}.
Proof.
  destruct opts as [c u a].
  destruct st as [[[?|] [?|] [?|] [?|]] [? ? ? [?|]] ? [? ? ?] ?];
    destruct u; reflexivity.
Qed.

(** X25.  The disconnect button stops the capture and closes the socket,
    whatever the state: afterwards the socket hook refers to no socket and
    reports [disconnected], the audio hook holds no stream, context or
    node and no queued buffer, and the user is not speaking.  The AI
    indicator is not reset: the orb shows [aiSpeaking] exactly if the AI
    was speaking before. *)
Theorem handleDisconnect_effect (uri : string) (st : State) :
  let st' := handleDisconnect uri st in
  Socket.socketRef (socket st') = None /\
  Socket.status (socket st') = Socket.disconnected /\
  Socket.errorMessage (socket st') = None /\
  Socket.notifications (socket st') = Socket.notifications (socket st) /\
  Audio.capture (audio st') = Audio.capture Audio.initial /\
  Audio.playbackQueueRef (Audio.playback (audio st')) = [] /\
  Audio.playbackContextRef (Audio.playback (audio st')) = None /\
  Audio.isUserSpeaking (Audio.view (audio st')) = false /\
  Audio.isAiSpeaking (Audio.view (audio st'))
  = Audio.isAiSpeaking (Audio.view (audio st)) /\
  orbState st'
  = if Audio.isAiSpeaking (Audio.view (audio st)) then aiSpeaking else idle.
Proof.
  intros st'. subst st'. unfold handleDisconnect, orbState. cbn [audio socket].
  destruct (stopCapture_effect (audioOptions st) (audio st))
    as (Hc & Hq & Hp & _).
  rewrite stopCapture_view. cbn [Audio.isUserSpeaking Audio.isAiSpeaking].
  repeat split; try assumption;
    unfold Socket.disconnect;
    destruct (Socket.socketRef (socket st)) as [ws|] eqn:Hs; simpl;
    try reflexivity; try exact Hs.
  unfold Socket.wsClose.
  destruct (Socket.sockets (socket st) !! ws) as [sock|]; [|reflexivity].
  destruct (Socket.readyState sock); reflexivity.
Qed.

(** X26.  The page hands every inbound frame to [playAudioChunk] without
    a sample rate, so a frame is played at the capture rate of 16000 Hz.  A
    playable frame that arrives while nothing plays is started at once and
    leaves the socket hook alone; the orb then shows [aiSpeaking], unless
    the user is speaking, which takes precedence. *)
Theorem handleMessage_starts_playback
    (supportedRate : Q -> bool) (data : list byte) (now : Q) (st : State)
    (samples : list spec_float) :
  Audio.decodeSamples data = Normal (Some samples) ->
  samples <> [] ->
  supportedRate Audio.CAPTURE_SAMPLE_RATE = true ->
  Audio.isPlayingRef (Audio.playback (audio st)) = false ->
  Audio.playbackQueueRef (Audio.playback (audio st)) = [] ->
  let st' := snd (handleMessage supportedRate data now st) in
  socket st' = socket st /\
  last (map Audio.sourceBuffer (Audio.started (Audio.world (audio st'))))
  = Some {| Audio.channelData := samples;
            Audio.sampleRate := 16000 |} /\
  orbState st'
  = if Audio.isUserSpeaking (Audio.view (audio st)) then userSpeaking
    else aiSpeaking.
Proof.
  intros Hd Hne Hr Hp Hq st'.
  destruct (idle_frame_effect supportedRate (audioOptions st) data None now
              (audio st) samples Hd Hne Hr Hp Hq eq_refl)
    as (_ & _ & _ & Hs & Ha & Hu).
  subst st'. unfold handleMessage, orbState.
  destruct (Audio.playAudioChunk supportedRate (audioOptions st) data None
              now (audio st)) as [outcome a].
  cbn [snd fst audio socket] in *.
  rewrite Hs, Ha, Hu, last_snoc. repeat split.
Qed.

Lemma handleMessage_starts_playback_witness :
  let supported := fun r => (Qle_bool 3000 r && Qle_bool r 768000)%bool in
  let st := {| audio := Audio.initial; socket := Socket.initial |} in
  let st' := snd (handleMessage supported [x00; x00; x80; x3f]%byte 0 st) in
  socket st' = socket st /\
  last (map Audio.sourceBuffer (Audio.started (Audio.world (audio st'))))
  = Some {| Audio.channelData := [S754_finite false 8388608 (-23)];
            Audio.sampleRate := 16000 |} /\
  orbState st' = aiSpeaking.
Proof.
  intros supported st.
  apply (handleMessage_starts_playback supported [x00; x00; x80; x3f]%byte
           0 st [S754_finite false 8388608 (-23)]);
    [reflexivity | discriminate | reflexivity | reflexivity | reflexivity].
Defined.

End PageFacts.

(** * Properties of the hook over numbers *)

(** ** Numbers *)

Section NumberFacts.

Import Number Order.
Local Open Scope Z_scope.

(** *** The order of the numbers *)

Lemma keyLe_dec (a b : Z * Z * Z) : keyLe a b \/ ~ keyLe a b.
Proof. unfold keyLe. destruct a as [[a1 a2] a3], b as [[b1 b2] b3]. lia. Qed.

Lemma number_le_key (x y : number) :
  le x y = true <->
  isNaN x = false /\ isNaN y = false /\ keyLe (orderKey x) (orderKey y).
Proof.
  assert (T : forall (b : bool) (P : Prop),
             (b = true -> P) -> (P -> b = true) -> b = true <-> P)
    by (intros; split; auto).
  unfold le, SFleb, SFcompare, keyLe.
  destruct x as [[|]|[|]| |[|] mx ex], y as [[|]|[|]| |[|] my ey];
    cbn [isNaN orderKey];
    try (apply T;
         [intros H; try discriminate H; repeat split; lia
         |intros (H1 & H2 & H3); try discriminate; try reflexivity; lia]).
  - destruct (Z.compare_spec ex ey) as [->|H|H].
    + rewrite Pos.compare_cont_spec. cbn [Pos.switch_Eq].
      destruct (Pos.compare_spec mx my) as [->|H|H]; cbn [CompOpp];
        (apply T;
         [intros H'; try discriminate H'; repeat split; lia
         |intros (H1 & H2 & H3); try reflexivity; lia]).
    + apply T; [intros H'; discriminate H'|intros (H1 & H2 & H3); lia].
    + apply T; [intros; repeat split; lia|intros; reflexivity].
  - destruct (Z.compare_spec ex ey) as [->|H|H].
    + rewrite Pos.compare_cont_spec. cbn [Pos.switch_Eq].
      destruct (Pos.compare_spec mx my) as [->|H|H];
        (apply T;
         [intros H'; try discriminate H'; repeat split; lia
         |intros (H1 & H2 & H3); try reflexivity; lia]).
    + apply T; [intros; repeat split; lia|intros; reflexivity].
    + apply T; [intros H'; discriminate H'|intros (H1 & H2 & H3); lia].
Qed.

Lemma number_lt_key (x y : number) :
  lt x y = true <->
  isNaN x = false /\ isNaN y = false /\ keyLt (orderKey x) (orderKey y).
Proof.
  assert (T : forall (b : bool) (P : Prop),
             (b = true -> P) -> (P -> b = true) -> b = true <-> P)
    by (intros; split; auto).
  unfold lt, SFltb, SFcompare, keyLt.
  destruct x as [[|]|[|]| |[|] mx ex], y as [[|]|[|]| |[|] my ey];
    cbn [isNaN orderKey];
    try (apply T;
         [intros H; try discriminate H; repeat split; lia
         |intros (H1 & H2 & H3); try discriminate; try reflexivity; lia]).
  - destruct (Z.compare_spec ex ey) as [->|H|H].
    + rewrite Pos.compare_cont_spec. cbn [Pos.switch_Eq].
      destruct (Pos.compare_spec mx my) as [->|H|H]; cbn [CompOpp];
        (apply T;
         [intros H'; try discriminate H'; repeat split; lia
         |intros (H1 & H2 & H3); try reflexivity; lia]).
    + apply T; [intros H'; discriminate H'|intros (H1 & H2 & H3); lia].
    + apply T; [intros; repeat split; lia|intros; reflexivity].
  - destruct (Z.compare_spec ex ey) as [->|H|H].
    + rewrite Pos.compare_cont_spec. cbn [Pos.switch_Eq].
      destruct (Pos.compare_spec mx my) as [->|H|H];
        (apply T;
         [intros H'; try discriminate H'; repeat split; lia
         |intros (H1 & H2 & H3); try reflexivity; lia]).
    + apply T; [intros; repeat split; lia|intros; reflexivity].
    + apply T; [intros H'; discriminate H'|intros (H1 & H2 & H3); lia].
Qed.

Lemma number_le_refl (x : number) : isNaN x = false -> le x x = true.
Proof.
  intros H. apply number_le_key. repeat split; try exact H.
  unfold keyLe. destruct (orderKey x) as [[a b] c]. lia.
Qed.

Lemma number_le_trans (x y z : number) :
  le x y = true -> le y z = true -> le x z = true.
Proof.
  rewrite !number_le_key. intros (Hx & Hy & H1) (_ & Hz & H2).
  repeat split; try assumption. unfold keyLe in *.
  destruct (orderKey x) as [[a1 a2] a3], (orderKey y) as [[b1 b2] b3],
    (orderKey z) as [[c1 c2] c3]. lia.
Qed.

Lemma number_lt_le (x y : number) : lt x y = true -> le x y = true.
Proof.
  rewrite number_lt_key, number_le_key. intros (Hx & Hy & H).
  repeat split; try assumption. unfold keyLe, keyLt in *.
  destruct (orderKey x) as [[a1 a2] a3], (orderKey y) as [[b1 b2] b3]. lia.
Qed.

(** Two numbers are comparable unless one of them is NaN. *)
Lemma number_le_total (x y : number) :
  isNaN x = false -> isNaN y = false -> lt y x = false -> le x y = true.
Proof.
  intros Hx Hy H. apply number_le_key. repeat split; try assumption.
  destruct (keyLe_dec (orderKey x) (orderKey y)) as [?|Hn]; [assumption|].
  exfalso. assert (lt y x = true) as E; [|congruence].
  apply number_lt_key. repeat split; try assumption.
  unfold keyLe, keyLt in *.
  destruct (orderKey x) as [[a1 a2] a3], (orderKey y) as [[b1 b2] b3]. lia.
Qed.

Lemma number_le_not_lt (x y : number) : le x y = true -> lt y x = false.
Proof.
  intros H. destruct (lt y x) eqn:E; [|reflexivity].
  apply number_le_key in H as (_ & _ & H). apply number_lt_key in E as (_ & _ & E).
  unfold keyLe, keyLt in *.
  destruct (orderKey x) as [[a1 a2] a3], (orderKey y) as [[b1 b2] b3]. lia.
Qed.







(** *** Rounding to binary64 *)

Lemma shr_1_m (r : shr_record) : 0 <= shr_m r -> shr_m (shr_1 r) = shr_m r / 2.
Proof.
  destruct r as [[|[p|p|]|p] b s]; cbn [shr_m shr_1]; intros H;
    try lia; try reflexivity.
  - rewrite Pos2Z.inj_xI. apply Z.div_unique with 1; lia.
  - rewrite Pos2Z.inj_xO. apply Z.div_unique with 0; lia.
Qed.

Lemma shr_m_iter (n : positive) : forall r,
  0 <= shr_m r ->
  shr_m (SpecFloat.iter_pos shr_1 n r) = shr_m r / 2 ^ Zpos n.
Proof.
  assert (Hnn : forall r, 0 <= shr_m r -> 0 <= shr_m (shr_1 r)).
  { intros r H. rewrite shr_1_m by exact H. apply Z.div_pos; lia. }
  induction n as [n IH|n IH|]; intros r H; cbn [SpecFloat.iter_pos].
  - assert (P : 2 ^ Zpos n~1 = 2 * 2 ^ Zpos n * 2 ^ Zpos n).
    { replace (Zpos n~1) with (Zpos n + Zpos n + 1) by lia.
      rewrite !Z.pow_add_r by lia. ring. }
    assert (H1 : 0 <= shr_m (shr_1 r)) by auto.
    assert (H2 : 0 <= shr_m (SpecFloat.iter_pos shr_1 n (shr_1 r))).
    { rewrite IH by exact H1. apply Z.div_pos; lia. }
    rewrite IH by exact H2. rewrite IH by exact H1. rewrite shr_1_m by exact H.
    rewrite !Z.div_div by lia. f_equal. rewrite P. ring.
  - assert (P : 2 ^ Zpos n~0 = 2 ^ Zpos n * 2 ^ Zpos n).
    { replace (Zpos n~0) with (Zpos n + Zpos n) by lia.
      rewrite !Z.pow_add_r by lia. ring. }
    assert (H2 : 0 <= shr_m (SpecFloat.iter_pos shr_1 n r)).
    { rewrite IH by exact H. apply Z.div_pos; lia. }
    rewrite IH by exact H2. rewrite IH by exact H.
    rewrite Z.div_div by lia. f_equal. rewrite P. ring.
  - rewrite shr_1_m by exact H. reflexivity.
Qed.

(** The mantissa a shift leaves, whatever the rounding bits. *)
Lemma shr_m_shift (m : Z) (l : location) (e n : Z) :
  0 <= m -> 0 <= n ->
  shr_m (fst (shr (shr_record_of_loc m l) e n)) = m / 2 ^ n /\
  snd (shr (shr_record_of_loc m l) e n) = e + n.
Proof.
  intros Hm Hn.
  assert (E : shr_m (shr_record_of_loc m l) = m)
    by (destruct l as [|[]]; reflexivity).
  destruct n as [|p|p]; cbn [shr fst snd]; [| |lia].
  - rewrite E, Z.div_1_r. split; [reflexivity|lia].
  - rewrite shr_m_iter by (rewrite E; exact Hm). rewrite E. split; reflexivity.
Qed.

Lemma round_nearest_even_bounds (m : Z) (l : location) :
  m <= round_nearest_even m l <= m + 1.
Proof.
  destruct l as [|[]]; cbn [round_nearest_even]; try lia.
  destruct (Z.even m); lia.
Qed.

Lemma Zdigits2_bounds (m : Z) :
  0 < m -> 2 ^ (Zdigits2 m - 1) <= m < 2 ^ Zdigits2 m.
Proof.
  destruct m as [|p|p]; try lia. intros _. cbn [Zdigits2].
  apply digits2_lower.
Qed.

Lemma Zdigits2_pos (m : Z) : 0 < m -> 0 < Zdigits2 m.
Proof. destruct m; cbn [Zdigits2]; lia. Qed.

Lemma Zdigits2_ge (m a : Z) : 0 < m -> 2 ^ (a - 1) <= m -> a <= Zdigits2 m.
Proof.
  intros Hm H. pose proof (Zdigits2_bounds m Hm) as [_ Hu].
  pose proof (Zdigits2_pos m Hm).
  destruct (Z.le_gt_cases a (Zdigits2 m)) as [?|Hgt]; [assumption|].
  assert (2 ^ Zdigits2 m <= 2 ^ (a - 1)) by (apply Z.pow_le_mono_r; lia). lia.
Qed.

Lemma Zdigits2_le (m a : Z) : 0 < m -> 0 <= a -> m < 2 ^ a -> Zdigits2 m <= a.
Proof.
  intros Hm Ha H. pose proof (Zdigits2_bounds m Hm) as [Hl _].
  pose proof (Zdigits2_pos m Hm).
  destruct (Z.le_gt_cases (Zdigits2 m) a) as [?|Hgt]; [assumption|].
  assert (2 ^ a <= 2 ^ (Zdigits2 m - 1)) by (apply Z.pow_le_mono_r; lia). lia.
Qed.

Lemma shr_general (m : Z) (l : location) (e n : Z) :
  0 <= m ->
  shr_m (fst (shr (shr_record_of_loc m l) e n)) = m / 2 ^ Z.max n 0 /\
  snd (shr (shr_record_of_loc m l) e n) = e + Z.max n 0.
Proof.
  intros Hm. destruct (Z.le_gt_cases 0 n) as [Hn|Hn].
  - rewrite Z.max_l by lia. apply shr_m_shift; assumption.
  - destruct n as [|p|p]; try lia. cbn [shr fst snd].
    rewrite Z.max_r by lia. rewrite Z.div_1_r.
    split; [destruct l as [|[]]; reflexivity|lia].
Qed.

(** What rounding to binary64 returns for a mantissa that is not too
    short for its exponent: a zero, an infinity or a number of the format,
    never below the mantissa cut at the exponent of the format. *)
Lemma binary_round_aux_shape (s : bool) (m e : Z) (l : location) :
  0 <= m ->
  e <= fexp 53 1024 (Zdigits2 m + e) ->
  let e1 := fexp 53 1024 (Zdigits2 m + e) in
  let m1 := m / 2 ^ (e1 - e) in
  match binary_round_aux 53 1024 s m e l with
  | S754_zero s' => s' = s /\ m1 = 0
  | S754_infinity s' => s' = s
  | S754_nan => False
  | S754_finite s' m3 e3 =>
      s' = s /\ bounded 53 1024 m3 e3 = true /\ e1 <= e3 /\
      (e3 = e1 -> m1 <= Zpos m3)
  end.
Proof.
  intros Hm He e1 m1.
  unfold binary_round_aux, shr_fexp.
  change (Z.add (Zdigits2 m) e) with (Zdigits2 m + e).
  change (Z.sub (fexp 53 1024 (Zdigits2 m + e)) e) with (e1 - e).
  destruct (shr_general m l e (e1 - e) Hm) as [Hs1 Hs2].
  destruct (shr (shr_record_of_loc m l) e (e1 - e)) as [mrs' e'].
  cbn [fst snd] in Hs1, Hs2.
  rewrite Z.max_l in Hs1, Hs2 by lia.
  assert (He' : e' = e1) by lia. clear Hs2. subst e'. fold m1 in Hs1.
  pose proof (round_nearest_even_bounds (shr_m mrs') (loc_of_shr_record mrs'))
    as Hr.
  set (m2 := round_nearest_even (shr_m mrs') (loc_of_shr_record mrs')) in *.
  clearbody m2. rewrite Hs1 in Hr.
  assert (Hm1 : 0 <= m1) by (apply Z.div_pos; lia).
  assert (Hm2 : 0 <= m2) by lia.
  destruct (shr_general m2 loc_Exact e1
              (fexp 53 1024 (Zdigits2 m2 + e1) - e1) Hm2) as [Ht1 Ht2].
  change (Z.sub (fexp 53 1024 (Z.add (Zdigits2 m2) e1)) e1)
    with (fexp 53 1024 (Zdigits2 m2 + e1) - e1).
  destruct (shr (shr_record_of_loc m2 loc_Exact) e1
              (fexp 53 1024 (Zdigits2 m2 + e1) - e1)) as [mrs'' e''].
  cbn [fst snd] in Ht1, Ht2.
  (* the digits of [m1] and [m2] *)
  assert (Hcases :
            (m2 = 0 /\ e'' = e1 /\ shr_m mrs'' = 0) \/
            (0 < m2 /\ e'' = e1 /\ shr_m mrs'' = m2 /\
             fexp 53 1024 (Zdigits2 m2 + e1) = e1) \/
            (e'' = e1 + 1 /\ shr_m mrs'' = 2 ^ 52 /\ 0 < m1)).
  { destruct (Z.eq_dec m2 0) as [Hz|Hnz].
    - left. rewrite Hz in *. cbn [Zdigits2] in Ht1, Ht2.
      assert (Hn : fexp 53 1024 (0 + e1) - e1 <= 0)
        by (unfold e1, fexp, emin in *; lia).
      rewrite Z.max_r in Ht1, Ht2 by exact Hn.
      rewrite Z.div_1_r in Ht1. repeat split; [lia|exact Ht1].
    - assert (Hp2 : 0 < m2) by lia.
      destruct (Z.eq_dec m 0) as [Hm0|Hm0].
      { (* only the rounding bit is left *)
        assert (m1 = 0) by (unfold m1; rewrite Hm0; apply Z.div_0_l; lia).
        assert (m2 = 1) by lia.
        assert (e1 = -1074).
        { unfold e1, fexp, emin in *. rewrite Hm0 in *. cbn [Zdigits2] in *. lia. }
        right. left.
        assert (Hd : fexp 53 1024 (Zdigits2 m2 + e1) = e1).
        { replace m2 with 1 by lia. cbn [Zdigits2 digits2_pos].
          unfold fexp, emin. lia. }
        rewrite Hd, Z.sub_diag, Z.max_r, Z.div_1_r in Ht1 by lia.
        rewrite Hd, Z.sub_diag in Ht2.
        repeat split; try assumption; lia. }
      assert (Hpm : 0 < m) by lia.
      pose proof (Zdigits2_bounds m Hpm) as [Hlo Hhi].
      pose proof (Zdigits2_pos m Hpm) as Hdp.
      set (d := Zdigits2 m) in *.
      destruct (Z.le_gt_cases (-1074) (d + e - 53)) as [HA|HB].
      + (* normal range *)
        assert (E1 : e1 = d + e - 53) by (unfold e1, fexp, emin; lia).
        assert (Hn0 : e1 - e = d - 53) by lia.
        assert (Hd53 : 53 <= d) by lia.
        assert (Hb1 : 2 ^ 52 <= m1 < 2 ^ 53).
        { unfold m1. rewrite Hn0. split.
          - apply Z.div_le_lower_bound; [lia|].
            rewrite Z.mul_comm, <- Z.pow_add_r by lia.
            replace (52 + (d - 53)) with (d - 1) by lia. exact Hlo.
          - apply Z.div_lt_upper_bound; [lia|].
            rewrite <- Z.pow_add_r by lia.
            replace (d - 53 + 53) with d by lia. exact Hhi. }
        destruct (Z.eq_dec m2 (2 ^ 53)) as [Hc|Hc].
        * right. right.
          assert (Hd : Zdigits2 m2 = 54) by (rewrite Hc; reflexivity).
          rewrite Hd in Ht1, Ht2.
          replace (fexp 53 1024 (54 + e1) - e1) with 1 in Ht1, Ht2
            by (unfold fexp, emin; lia).
          rewrite Z.max_l in Ht1, Ht2 by lia.
          rewrite Hc in Ht1. change (2 ^ 53 / 2 ^ 1) with (2 ^ 52) in Ht1.
          repeat split; try assumption; lia.
        * right. left.
          assert (Hd : Zdigits2 m2 = 53).
          { apply Z.le_antisymm.
            - apply Zdigits2_le; lia.
            - apply Zdigits2_ge; [lia|]. change (53 - 1) with 52. lia. }
          assert (Hf : fexp 53 1024 (Zdigits2 m2 + e1) = e1)
            by (rewrite Hd; unfold fexp, emin; lia).
          rewrite Hf, Z.sub_diag, Z.max_r, Z.div_1_r in Ht1 by lia.
          rewrite Hf, Z.sub_diag in Ht2.
          repeat split; try assumption; lia.
      + (* least exponent *)
        assert (E1 : e1 = -1074) by (unfold e1, fexp, emin; fold d; lia).
        assert (Hb1 : m1 < 2 ^ 52).
        { unfold m1. apply Z.div_lt_upper_bound; [apply Z.pow_pos_nonneg; lia|].
          rewrite <- Z.pow_add_r by lia.
          apply Z.lt_le_trans with (2 ^ d); [exact Hhi|].
          apply Z.pow_le_mono_r; lia. }
        right. left.
        assert (Hd : Zdigits2 m2 <= 53).
        { destruct (Z.eq_dec m2 (2 ^ 52)) as [->|Hne];
            [change (Zdigits2 (2 ^ 52)) with 53; lia|].
          apply Z.le_trans with 52; [|lia]. apply Zdigits2_le; lia. }
        pose proof (Zdigits2_pos m2 Hp2).
        assert (Hf : fexp 53 1024 (Zdigits2 m2 + e1) = e1)
          by (unfold fexp, emin; lia).
        rewrite Hf, Z.sub_diag, Z.max_r, Z.div_1_r in Ht1 by lia.
        rewrite Hf, Z.sub_diag in Ht2.
        repeat split; try assumption; lia. }
  destruct Hcases as [(Hz & -> & Hm3)|[(Hp2 & -> & Hm3 & Hf)|(-> & Hm3 & Hp1)]];
    rewrite Hm3.
  - split; [reflexivity|lia].
  - destruct m2 as [|p|p]; try lia.
    change (Z.sub 1024 53) with 971.
    destruct (Z.leb_spec e1 971) as [Hle|Hgt]; [|reflexivity].
    split; [reflexivity|]. split; [|split; [lia|intros _; lia]].
    unfold bounded, canonical_mantissa.
    cbn [Zdigits2] in Hf.
    change (Z.add (Zpos (digits2_pos p)) e1) with (Zpos (digits2_pos p) + e1).
    rewrite Hf, Z.eqb_refl. apply Z.leb_le. exact Hle.
  - change (2 ^ 52) with 4503599627370496.
    change (Z.sub 1024 53) with 971.
    destruct (Z.leb_spec (e1 + 1) 971) as [Hle|Hgt]; [|reflexivity].
    split; [reflexivity|]. split; [|split; [lia|intros; lia]].
    unfold bounded, canonical_mantissa.
    change (digits2_pos 4503599627370496) with 53%positive.
    apply andb_true_intro. split; [|apply Z.leb_le; exact Hle].
    apply Z.eqb_eq. unfold fexp, emin.
    assert (-1074 <= e1) by (unfold e1, fexp, emin; lia). lia.
Qed.

Lemma shl_align_spec (m : positive) (e t : Z) :
  let '(mz, e0) := shl_align m e t in
  Zpos (digits2_pos mz) + e0 = Zpos (digits2_pos m) + e /\
  e0 = Z.min e t /\
  Zpos mz = Zpos m * 2 ^ (e - e0).
Proof.
  unfold shl_align. change (Z.sub t e) with (t - e).
  destruct (t - e) as [|d|d] eqn:E.
  - rewrite Z.sub_diag, Z.mul_1_r. repeat split; lia.
  - rewrite Z.sub_diag, Z.mul_1_r. repeat split; lia.
  - rewrite digits2_iter. replace (e - t) with (Zpos d) by lia.
    pose proof (signed_iter false m d) as H.
    unfold TypedArrays.signed in H. cbn [cond_Zopp] in H.
    repeat split; [lia|lia|exact H].
Qed.

(** Rounding an integer mantissa with its exponent. *)
Lemma binary_round_shape (s : bool) (m : positive) (e : Z) :
  let t := fexp 53 1024 (Zpos (digits2_pos m) + e) in
  match binary_round 53 1024 s m e with
  | S754_zero s' => s' = s /\ Zpos (digits2_pos m) + e <= -1074
  | S754_infinity s' => s' = s
  | S754_nan => False
  | S754_finite s' m3 e3 =>
      s' = s /\ bounded 53 1024 m3 e3 = true /\ t <= e3 /\
      (e <= t -> e3 = t -> Zpos m / 2 ^ (t - e) <= Zpos m3)
  end.
Proof.
  intros t. unfold binary_round.
  change (Z.add (Zpos (digits2_pos m)) e) with (Zpos (digits2_pos m) + e).
  fold t.
  pose proof (shl_align_spec m e t) as Ha.
  destruct (shl_align m e t) as [mz e0]. destruct Ha as (Hd & He0 & Hv).
  assert (Ht : fexp 53 1024 (Zdigits2 (Zpos mz) + e0) = t)
    by (cbn [Zdigits2]; rewrite Hd; reflexivity).
  assert (Hpre : e0 <= fexp 53 1024 (Zdigits2 (Zpos mz) + e0))
    by (rewrite Ht; lia).
  pose proof (binary_round_aux_shape s (Zpos mz) e0 loc_Exact
                ltac:(lia) Hpre) as H.
  cbv zeta in H. rewrite Ht in H.
  destruct (binary_round_aux 53 1024 s (Zpos mz) e0 loc_Exact)
    as [s'|s'| |s' m3 e3].
  - destruct H as [-> H0]. split; [reflexivity|].
    destruct (Z.le_gt_cases (Zpos (digits2_pos m) + e) (-1074)) as [?|Hgt];
      [assumption|exfalso].
    pose proof (digits2_lower mz) as [Hlo _].
    assert (Hk : t - e0 <= Zpos (digits2_pos mz) - 1)
      by (unfold t, fexp, emin in *; lia).
    assert (2 ^ (t - e0) <= Zpos mz).
    { apply Z.le_trans with (2 ^ (Zpos (digits2_pos mz) - 1)); [|exact Hlo].
      apply Z.pow_le_mono_r; lia. }
    assert (1 <= Zpos mz / 2 ^ (t - e0)).
    { apply Z.div_le_lower_bound; [apply Z.pow_pos_nonneg; lia|lia]. }
    lia.
  - exact H.
  - exact H.
  - destruct H as (-> & Hb & Hle & Hm3). repeat split; try assumption.
    intros Het E. specialize (Hm3 E).
    assert (E0 : e0 = e) by lia. rewrite E0 in *.
    rewrite Z.sub_diag, Z.mul_1_r in Hv. rewrite <- Hv. exact Hm3.
Qed.

Lemma valid_finite (s : bool) (m : positive) (e : Z) :
  valid (S754_finite s m e) = true ->
  fexp 53 1024 (Zpos (digits2_pos m) + e) = e /\ -1074 <= e <= 971.
Proof.
  unfold valid, valid_binary, bounded, canonical_mantissa.
  intros H. apply andb_prop in H as [H1 H2].
  apply Z.eqb_eq in H1. apply Z.leb_le in H2.
  change (Z.add (Zpos (digits2_pos m)) e) with (Zpos (digits2_pos m) + e) in H1.
  change (Z.sub 1024 53) with 971 in H2.
  split; [exact H1|]. unfold fexp, emin in H1. lia.
Qed.

(** Adding a number that is not negative to a time gives a number of the
    format that is not below the time. *)
Lemma add_nonneg (x y : number) :
  valid x = true -> nonneg x = true ->
  valid y = true -> nonneg y = true ->
  valid (add x y) = true /\ nonneg (add x y) = true /\
  le x (add x y) = true.
Proof.
  intros Vx Nx Vy Ny.
  destruct x as [sx|[|]| |[|] mx ex]; try discriminate Nx;
    destruct y as [sy|[|]| |[|] my ey]; try discriminate Ny.
  1: destruct sx, sy.
  all: try solve [repeat split;
                  first [exact Vx | exact Vy | reflexivity
                        | apply number_le_refl; reflexivity]].
  (* two positive finite numbers *)
  unfold add, SFadd. cbn [cond_Zopp].
  set (ez := Z.min ex ey).
  pose proof (shl_align_spec mx ex ez) as Hx.
  pose proof (shl_align_spec my ey ez) as Hy.
  destruct (shl_align mx ex ez) as [mx' ex'], (shl_align my ey ez) as [my' ey'].
  cbn [fst]. destruct Hx as (Hdx & Hex & Hvx). clear Hy.
  assert (E : ex' = ez) by (unfold ez in *; lia). rewrite E in *. clear E Hex.
  change (Z.add (Zpos mx') (Zpos my')) with (Zpos (mx' + my')).
  set (S := (mx' + my')%positive).
  cbn [binary_normalize].
  destruct (valid_finite _ _ _ Vx) as [Hcx Hrx].
  pose proof (binary_round_shape false S ez) as H. cbv zeta in H.
  set (t := fexp 53 1024 (Zpos (digits2_pos S) + ez)) in *.
  assert (HD : Zpos (digits2_pos mx) + ex <= Zpos (digits2_pos S) + ez).
  { rewrite <- Hdx.
    assert (Zpos (digits2_pos mx') <= Zpos (digits2_pos S)); [|lia].
    apply (Zdigits2_ge (Zpos S)); [lia|].
    pose proof (digits2_lower mx') as [Hlo _]. unfold S. lia. }
  assert (Ht : ex <= t) by (unfold t, fexp, emin in *; lia).
  destruct (binary_round 53 1024 false S ez) as [s'|s'| |s' m3 e3].
  - destruct H as [_ H]. exfalso. pose proof (Pos2Z.is_pos (digits2_pos mx)). lia.
  - subst s'. repeat split.
  - contradiction.
  - destruct H as (-> & Hb & Hle & Hm3).
    split; [exact Hb|]. split; [reflexivity|].
    unfold le, SFleb, SFcompare.
    destruct (Z.compare_spec ex e3) as [E|Hlt|Hgt]; [|reflexivity|lia].
    subst e3. assert (Et : t = ex) by lia.
    assert (Hez : ez <= t) by (unfold ez; lia).
    specialize (Hm3 Hez (eq_sym Et)).
    assert (Zpos mx <= Zpos S / 2 ^ (t - ez)).
    { apply Z.div_le_lower_bound; [apply Z.pow_pos_nonneg; lia|].
      rewrite Et, Z.mul_comm, <- Hvx. unfold S. lia. }
    rewrite Pos.compare_cont_spec. cbn [Pos.switch_Eq].
    destruct (Pos.compare_spec mx m3); try reflexivity. lia.
Qed.

Lemma ofNat_shape (n : nat) :
  valid (ofNat n) = true /\ nonneg (ofNat n) = true.
Proof.
  unfold ofNat, ofZ. destruct (Z.of_nat n) as [|p|p] eqn:E; try lia.
  - split; reflexivity.
  - cbn [binary_normalize].
    pose proof (binary_round_shape false p 0) as H. cbv zeta in H.
    destruct (binary_round 53 1024 false p 0) as [s'|s'| |s' m3 e3].
    + destruct H as [-> _]. split; reflexivity.
    + subst s'. split; reflexivity.
    + contradiction.
    + destruct H as (-> & Hb & _). split; [exact Hb|reflexivity].
Qed.

(** The quotient by a positive finite number of a number that is not
    negative. *)
Lemma div_nonneg (x y : number) :
  nonneg x = true -> isFinite y = true -> lt zero y = true ->
  valid (div x y) = true /\ nonneg (div x y) = true.
Proof.
  intros Nx Fy Py.
  destruct y as [sy|sy| |[|] my ey]; try discriminate Fy; try discriminate Py.
  destruct x as [sx|[|]| |[|] mx ex]; try discriminate Nx;
    try (split; reflexivity).
  unfold div, SFdiv. cbn [xorb].
  unfold SFdiv_core_binary. cbn [Zdigits2].
  set (d1 := Zpos (digits2_pos mx)). set (d2 := Zpos (digits2_pos my)).
  change (Z.sub (Z.add d1 ex) (Z.add d2 ey)) with (d1 + ex - (d2 + ey)).
  change (Z.sub ex ey) with (ex - ey).
  set (e' := Z.min (fexp 53 1024 (d1 + ex - (d2 + ey))) (ex - ey)).
  change (Z.sub (ex - ey) e') with (ex - ey - e').
  set (sh := ex - ey - e').
  assert (Hsh : 0 <= sh) by (unfold sh, e'; lia).
  set (m' := match sh with
             | 0 => Zpos mx
             | Zpos _ => Z.shiftl (Zpos mx) sh
             | Zneg _ => 0
             end).
  assert (Hm' : m' = Zpos mx * 2 ^ sh).
  { unfold m'. destruct sh as [|p|p] eqn:E; try lia.
    rewrite Z.shiftl_mul_pow2 by lia. reflexivity. }
  pose proof (Z.div_eucl_eq m' (Zpos my) ltac:(lia)) as Heq.
  pose proof (Z.mod_pos_bound m' (Zpos my) ltac:(lia)) as Hrem.
  unfold Z.modulo in Hrem.
  destruct (Z.div_eucl m' (Zpos my)) as [q r].
  pose proof (digits2_lower mx) as [Hlx Hux]. fold d1 in Hlx, Hux.
  pose proof (digits2_lower my) as [Hly Huy]. fold d2 in Hly, Huy.
  assert (Hd1 : 0 < d1) by (unfold d1; lia).
  assert (Hd2 : 0 < d2) by (unfold d2; lia).
  assert (Hml : 2 ^ (d1 + sh - 1) <= m').
  { rewrite Hm'. replace (d1 + sh - 1) with (d1 - 1 + sh) by lia.
    rewrite Z.pow_add_r by lia.
    apply Z.mul_le_mono_nonneg_r; [apply Z.pow_nonneg; lia|exact Hlx]. }
  assert (Hq : 0 <= q) by nia.
  assert (Hpre : e' <= fexp 53 1024 (Zdigits2 q + e')).
  { destruct (Z.eq_dec q 0) as [->|Hnz].
    - cbn [Zdigits2].
      assert (m' < Zpos my) by lia.
      assert (d1 + sh - 1 < d2).
      { apply (Z.pow_lt_mono_r_iff 2); lia. }
      unfold e', sh in *. unfold fexp, emin in *. lia.
    - assert (Hpq : 0 < q) by lia.
      assert (d1 + sh - d2 <= Zdigits2 q).
      { destruct (Z.le_gt_cases (d1 + sh - d2) 0) as [?|Hj].
        - pose proof (Zdigits2_pos q Hpq). lia.
        - apply Zdigits2_ge; [exact Hpq|].
          assert (Zpos my * 2 ^ (d1 + sh - d2 - 1) <= m').
          { apply Z.le_trans with (2 ^ d2 * 2 ^ (d1 + sh - d2 - 1)).
            - apply Z.mul_le_mono_nonneg_r; [apply Z.pow_nonneg; lia|lia].
            - rewrite <- Z.pow_add_r by lia.
              replace (d2 + (d1 + sh - d2 - 1)) with (d1 + sh - 1) by lia.
              exact Hml. }
          assert (2 ^ (d1 + sh - d2 - 1) <= m' / Zpos my)
            by (apply Z.div_le_lower_bound; lia).
          assert (m' / Zpos my = q); [|lia].
          symmetry. apply Z.div_unique with r; lia. }
      unfold e', sh in *. unfold fexp, emin in *. lia. }
  pose proof (binary_round_aux_shape false q e' (new_location (Zpos my) r)
                Hq Hpre) as H.
  cbv zeta in H.
  destruct (binary_round_aux 53 1024 false q e' (new_location (Zpos my) r))
    as [s'|s'| |s' m3 e3].
  - destruct H as [-> _]. split; reflexivity.
  - subst s'. split; reflexivity.
  - contradiction.
  - destruct H as (-> & Hb & _). split; [exact Hb|reflexivity].
Qed.

(** [Math.max] of two numbers, when it is a number. *)
Lemma max_shape (x y : number) :
  isNaN (Math.max x y) = false ->
  isNaN x = false /\ isNaN y = false /\
  (Math.max x y = x \/ Math.max x y = y) /\
  le x (Math.max x y) = true /\ le y (Math.max x y) = true.
Proof.
  unfold Math.max. intros H.
  destruct (isNaN x) eqn:Hx; [discriminate H|].
  destruct (isNaN y) eqn:Hy; [discriminate H|].
  cbn [orb] in *. split; [reflexivity|]. split; [reflexivity|].
  destruct (lt x y) eqn:Hxy.
  { split; [right; reflexivity|]. split; [apply number_lt_le; exact Hxy|].
    apply number_le_refl; exact Hy. }
  destruct (lt y x) eqn:Hyx.
  { split; [left; reflexivity|]. split; [apply number_le_refl; exact Hx|].
    apply number_lt_le; exact Hyx. }
  pose proof (number_le_total x y Hx Hy Hyx). pose proof (number_le_total y x Hy Hx Hxy).
  destruct (signBit x); (split; [auto|]); split;
    auto using number_le_refl.
Qed.

End NumberFacts.
(** ** The resampler over numbers *)

Section ResamplerRounded.

Import Number Hook.

Variable allocates : Z -> bool.

Lemma downsample_loop_rounded (input : list spec_float) (ratio : number)
    (n : nat) :
  forall (i : nat) (output : list spec_float),
    (i + n <= length output)%nat ->
    let result := downsample_loop input ratio n i output in
    length result = length output /\
    (forall j, (i <= j < i + n)%nat ->
               result !! j = Some (fround (interpolate input ratio j))) /\
    (forall j, (j < i)%nat \/ (i + n <= j)%nat -> result !! j = output !! j).
Proof.
  induction n as [|n IH]; intros i output Hlen.
  - simpl. repeat split; auto. intros j Hj. lia.
  - destruct (IH (S i) (<[i:=fround (interpolate input ratio i)]> output))
      as (Hl & Hin & Hout).
    { rewrite length_insert. lia. }
    cbn [downsample_loop]. cbv zeta in *.
    rewrite length_insert in Hl. repeat split; auto.
    + intros j Hj. destruct (decide (j = i)) as [->|Hne].
      * rewrite Hout by lia. rewrite list_lookup_insert_eq by lia. reflexivity.
      * apply Hin. lia.
    + intros j Hj. rewrite Hout by lia. apply list_lookup_insert_ne. lia.
Qed.

(** C1.  [downsample] computes in binary64.  With [ratio = R_s / R_t] and
    [outputLength = floor (L / ratio)] so computed: when [outputLength]
    is not the length of an array the platform can allocate (an infinity
    or a negative number, as for [R_s = 0] and [L > 0]) the call throws a
    [RangeError]; otherwise it returns an output of that length (of
    length 0 for NaN) whose element [i] is the binary32 nearest to
    [input[f] * (1 - frac) + input[c] * frac], computed in binary64 with
    [p = i * ratio], [f = floor p], [c = min (f + 1) (L - 1)] and
    [frac = p - f], a read outside the input counting as NaN.  An input of
    length zero gives an output of length zero, whatever the rates. *)
Theorem downsample_in_binary64
    (input : list spec_float) (sourceRate targetRate : number) :
  let ratio := div sourceRate targetRate in
  let outputLength := Math.floor (div (ofNat (length input)) ratio) in
  (input = [] -> downsample allocates input sourceRate targetRate = Normal []) /\
  match toIndex outputLength with
  | Some n =>
      if (n =? 0)%Z || allocates n then
        exists output,
          downsample allocates input sourceRate targetRate = Normal output /\
          Z.of_nat (length output) = n /\
          forall i, (i < length output)%nat ->
            let p := mul (ofNat i) ratio in
            let f := Math.floor p in
            let c := Math.min (add f one) (sub (ofNat (length input)) one) in
            let frac := sub p f in
            output !! i
            = Some (fround (add (mul (readAt input f) (sub one frac))
                                (mul (readAt input c) frac)))
      else downsample allocates input sourceRate targetRate = Throw RangeError
  | None => downsample allocates input sourceRate targetRate = Throw RangeError
  end.
Proof.
  intros ratio outputLength. split.
  - intros ->. unfold downsample. cbn [length].
    change (ofNat 0) with (S754_zero false).
    destruct (div sourceRate targetRate) as [[|]|[|]| |[|] m e]; reflexivity.
  - unfold downsample, newFloat32Array. fold ratio. fold outputLength.
    destruct (toIndex outputLength) as [n|] eqn:Hn; [|reflexivity].
    destruct ((n =? 0)%Z || allocates n); [|reflexivity].
    assert (0 <= n)%Z.
    { unfold toIndex in Hn. destruct (truncate outputLength) as [k|]; [|discriminate].
      destruct (Z.leb_spec 0 k); [|discriminate].
      destruct (k <=? 2 ^ 53 - 1)%Z; [|discriminate].
      injection Hn as <-. assumption. }
    set (output := replicate (Z.to_nat n) zero).
    destruct (downsample_loop_rounded input ratio (length output) 0 output)
      as (Hl & Hin & _); [lia|].
    eexists. split; [reflexivity|]. rewrite Hl. split.
    + unfold output. rewrite length_replicate. lia.
    + intros i Hi. apply Hin. lia.
Qed.

End ResamplerRounded.

Section ResamplerExamples.

Import Number Hook.
Local Open Scope Q_scope.

(** The claim C1 fails: at a source rate of zero a block that is not
    empty makes [downsample] throw; nine samples from 9 Hz to 7 Hz give
    six samples, one fewer than the floor of the exact quotient; and the
    sample stored for 0, 1, 2 from 48000 Hz to 44100 Hz at index 1 is
    1.0884354114532471, the binary32 above the 1.08843537414966 that the
    formula gives. *)
Lemma downsample_throws_and_rounds :
  let allocates := fun _ : Z => true in
  let sample := S754_finite false 8388608 (-23) in
  let ramp := [zero; S754_finite false 8388608 (-23);
               S754_finite false 8388608 (-22)] in
  downsample allocates [sample] zero (ofZ 16000) = Throw RangeError /\
  (exists output,
     downsample allocates (replicate 9 sample) (ofZ 9) (ofZ 7) = Normal output /\
     length output = 6%nat) /\
  Qfloor (9 / (9 / 7)) = 7%Z /\
  (exists output stored,
     downsample allocates ramp (ofZ 48000) (ofZ 44100) = Normal output /\
     output !! 1%nat = Some stored /\
     interpolate ramp (div (ofZ 48000) (ofZ 44100)) 1
     = S754_finite false 4901877145437275 (-52) /\
     widen stored = S754_finite false 4901877313437696 (-52) /\
     lt (interpolate ramp (div (ofZ 48000) (ofZ 44100)) 1) (widen stored)
     = true).
Proof.
  split; [reflexivity|]. split; [|split; [reflexivity|]].
  - eexists. split; [vm_compute; reflexivity|reflexivity].
  - do 2 eexists. split; [vm_compute; reflexivity|].
    split; [reflexivity|]. vm_compute. repeat split; reflexivity.
Qed.

Lemma downsample_in_binary64_witness :
  let allocates := fun _ : Z => true in
  let sample := S754_finite false 8388608 (-23) in
  let input := replicate 7 sample in
  let ratio := div (ofZ 48000) (ofZ 16000) in
  exists output,
    downsample allocates input (ofZ 48000) (ofZ 16000) = Normal output /\
    Z.of_nat (length output) = 2%Z /\
    forall i, (i < length output)%nat ->
      let p := mul (ofNat i) ratio in
      let f := Math.floor p in
      let c := Math.min (add f one) (sub (ofNat (length input)) one) in
      let frac := sub p f in
      output !! i
      = Some (fround (add (mul (readAt input f) (sub one frac))
                          (mul (readAt input c) frac))).
Proof.
  intros allocates sample input ratio.
  exact (proj2 (downsample_in_binary64 allocates input (ofZ 48000)
                  (ofZ 16000))).
Defined.

End ResamplerExamples.
(** ** The scheduler over numbers *)

Section SchedulerRounded.

Import TypedArrays Audio Number Hook Schedule.

Variable allocates : Z -> bool.
Variable supportedRate : spec_float -> bool.
Variable opts : Options.

Lemma started_emit (e : Effect) (st : State) :
  started (emit e st)
  = started st ++ match e with Started s => [s] | _ => [] end.
Proof.
  unfold started, emit. cbn [effects]. rewrite omap_app.
  destruct e; reflexivity.
Qed.

Lemma signalAiSpeaking_frame (v : bool) (st : State) :
  started (signalAiSpeaking opts v st) = started st /\
  playback (signalAiSpeaking opts v st) = playback st /\
  capture (signalAiSpeaking opts v st) = capture st /\
  vad (signalAiSpeaking opts v st) = vad st.
Proof.
  unfold signalAiSpeaking. destruct (onAiSpeakingChange opts);
    [rewrite started_emit, app_nil_r|]; repeat split.
Qed.

Lemma setUserSpeaking_frame (v : bool) (st : State) :
  started (setUserSpeaking opts v st) = started st /\
  playback (setUserSpeaking opts v st) = playback st /\
  capture (setUserSpeaking opts v st) = capture st.
Proof.
  unfold setUserSpeaking. destruct (onUserSpeakingChange opts);
    [rewrite started_emit, app_nil_r|]; repeat split.
Qed.

(** What [playNextInQueue] does to the started sources and to the
    references of the scheduler. *)
Lemma playNextInQueue_effect (ctx : nat) (now : number) (st : State) :
  let p := playback st in
  let result := playNextInQueue opts ctx now st in
  capture (snd result) = capture st /\ vad (snd result) = vad st /\
  playbackContextRef (playback (snd result)) = playbackContextRef p /\
  match playbackQueueRef p with
  | [] =>
      fst result = Normal tt /\
      started (snd result) = started st /\
      playbackQueueRef (playback (snd result)) = [] /\
      isPlayingRef (playback (snd result)) = false /\
      nextPlayTimeRef (playback (snd result)) = nextPlayTimeRef p
  | buffer :: rest =>
      let start := Math.max now (nextPlayTimeRef p) in
      playbackQueueRef (playback (snd result)) = rest /\
      match startable start with
      | Normal _ =>
          fst result = Normal tt /\
          started (snd result)
          = started st ++ [{| sourceContext := ctx; sourceBuffer := buffer;
                              startTime := start |}] /\
          isPlayingRef (playback (snd result)) = true /\
          nextPlayTimeRef (playback (snd result))
          = add start (duration buffer)
      | Throw e =>
          fst result = Throw e /\
          started (snd result) = started st /\
          isPlayingRef (playback (snd result)) = isPlayingRef p /\
          nextPlayTimeRef (playback (snd result)) = nextPlayTimeRef p
      end
  end.
Proof.
  cbv zeta. unfold playNextInQueue.
  destruct (playbackQueueRef (playback st)) as [|buffer rest].
  - cbn [fst snd].
    destruct (signalAiSpeaking_frame false
                (set_playback
                   {| playbackQueueRef := []; isPlayingRef := false;
                      nextPlayTimeRef := nextPlayTimeRef (playback st);
                      playbackContextRef := playbackContextRef (playback st) |}
                   st)) as (Hs & Hp & Hc & Hv).
    rewrite Hs, Hp, Hc, Hv. repeat split.
  - cbn [create]. cbv zeta.
    destruct (startable (Math.max now (nextPlayTimeRef (playback st))))
      as [[]|e]; cbn [fst snd].
    + match goal with
      | |- context [signalAiSpeaking opts true ?s] =>
          destruct (signalAiSpeaking_frame true s) as (Hs & Hp & Hc & Hv)
      end.
      rewrite Hs, Hp, Hc, Hv. repeat split.
      unfold started. cbn [set_playback effects emit]. rewrite omap_app.
      reflexivity.
    + repeat split.
Qed.

(** [playAudioChunk] leaves the scheduler as it is, or appends a buffer of
    a supported rate to the queue while something plays, or appends it
    and calls [playNextInQueue] while nothing plays. *)
Lemma playAudioChunk_cases (data : list byte) (rate : option number)
    (now : number) (st : State) :
  let result := playAudioChunk supportedRate opts data rate now st in
  vad (snd result) = vad st /\ capture (snd result) = capture st /\
  ((started (snd result) = started st /\
    playbackQueueRef (playback (snd result)) = playbackQueueRef (playback st) /\
    isPlayingRef (playback (snd result)) = isPlayingRef (playback st) /\
    nextPlayTimeRef (playback (snd result)) = nextPlayTimeRef (playback st)) \/
   (exists buffer,
      supportedRate (sampleRate buffer) = true /\
      isPlayingRef (playback st) = true /\
      started (snd result) = started st /\
      playbackQueueRef (playback (snd result))
      = playbackQueueRef (playback st) ++ [buffer] /\
      isPlayingRef (playback (snd result)) = true /\
      nextPlayTimeRef (playback (snd result)) = nextPlayTimeRef (playback st)) \/
   (exists buffer ctx st2,
      supportedRate (sampleRate buffer) = true /\
      isPlayingRef (playback st) = false /\
      started st2 = started st /\ vad st2 = vad st /\
      capture st2 = capture st /\
      playbackQueueRef (playback st2) = playbackQueueRef (playback st) ++ [buffer] /\
      isPlayingRef (playback st2) = false /\
      nextPlayTimeRef (playback st2) = nextPlayTimeRef (playback st) /\
      result = playNextInQueue opts ctx now st2)).
Proof.
  cbv zeta. unfold playAudioChunk.
  set (chosen :=
         match audioContextRef (capture st) with
         | Some c => (c, st)
         | None =>
             match playbackContextRef (playback st) with
             | Some c => (c, st)
             | None =>
                 let '(c, st0) := create st in
                 (c, set_playback
                       {| playbackQueueRef := playbackQueueRef (playback st0);
                          isPlayingRef := isPlayingRef (playback st0);
                          nextPlayTimeRef := nextPlayTimeRef (playback st0);
                          playbackContextRef := Some c |} st0)
             end
         end).
  assert (Hch : started (snd chosen) = started st /\
                vad (snd chosen) = vad st /\
                capture (snd chosen) = capture st /\
                playbackQueueRef (playback (snd chosen))
                = playbackQueueRef (playback st) /\
                isPlayingRef (playback (snd chosen))
                = isPlayingRef (playback st) /\
                nextPlayTimeRef (playback (snd chosen))
                = nextPlayTimeRef (playback st)).
  { unfold chosen. destruct (audioContextRef (capture st));
      [|destruct (playbackContextRef (playback st))]; repeat split. }
  destruct chosen as [ctx st1]. cbn [snd] in Hch.
  destruct Hch as (Hs & Hv & Hc & Hq & Hp & Hn).
  destruct (ofTyped (decodeSamples data)) as [[samples|]|e]; cbn [fst snd].
  2:{ rewrite started_emit, app_nil_r. repeat split; auto; left; repeat split; assumption. }
  2:{ repeat split; auto; left; repeat split; assumption. }
  unfold createBuffer.
  destruct (negb (isFinite (fround (default CAPTURE_SAMPLE_RATE rate)))).
  { cbn [fst snd]. repeat split; auto; left; repeat split; assumption. }
  destruct ((1 =? 0)%nat || (length samples =? 0)%nat
            || negb (supportedRate (fround (default CAPTURE_SAMPLE_RATE rate))))
    eqn:Hbad.
  { cbn [fst snd]. repeat split; auto; left; repeat split; assumption. }
  assert (Hsup : supportedRate (fround (default CAPTURE_SAMPLE_RATE rate)) = true).
  { apply orb_false_elim in Hbad as [_ Hbad].
    destruct (supportedRate _); [reflexivity|discriminate Hbad]. }
  cbn [channelData Hook.sampleRate].
  destruct (ofTyped (typedArraySet (replicate (length samples) zero) samples))
    as [filled|e]; cbn [fst snd].
  2:{ repeat split; auto; left; repeat split; assumption. }
  destruct (isPlayingRef (playback st1)) eqn:Hplay; cbn [fst snd].
  - repeat split; auto. right. left.
    exists {| channelData := filled;
              sampleRate := fround (default CAPTURE_SAMPLE_RATE rate) |}.
    split; [exact Hsup|].
    repeat split; try assumption; try congruence.
    cbn. rewrite Hq. reflexivity.
  - match goal with
    | |- context [signalAiSpeaking opts true ?s] =>
        destruct (signalAiSpeaking_frame true s) as (Hs3 & Hp3 & Hc3 & Hv3)
    end.
    match goal with
    | |- context [playNextInQueue opts ctx now ?s] => set (st2 := s) in *
    end.
    destruct (playNextInQueue_effect ctx now st2) as (Hc2 & Hv2 & _).
    rewrite Hc2, Hv2, Hc3, Hv3. cbn [set_playback capture vad].
    repeat split; auto. right. right.
    exists {| channelData := filled;
              sampleRate := fround (default CAPTURE_SAMPLE_RATE rate) |},
      ctx, st2.
    rewrite Hs3, Hp3, Hc3, Hv3. cbn [set_playback started playback capture vad
      playbackQueueRef isPlayingRef nextPlayTimeRef Hook.sampleRate effects].
    rewrite Hq, Hn. repeat split; auto; congruence.
Qed.

Lemma nonneg_not_NaN (x : number) : nonneg x = true -> isNaN x = false.
Proof. destruct x as [|[|]| |[|]]; intros H; try discriminate H; reflexivity. Qed.

Lemma startable_nonneg (when : number) :
  startable when = Normal tt -> isFinite when = true /\ nonneg when = true.
Proof.
  unfold startable. destruct when as [s|s| |[|] m e]; cbn; intros H;
    try discriminate H; split; reflexivity.
Qed.

Lemma duration_time (b : AudioBuffer) :
  positiveRate (sampleRate b) = true ->
  valid (duration b) = true /\ nonneg (duration b) = true.
Proof.
  unfold positiveRate, duration. intros H. apply andb_prop in H as [Hp Hf].
  apply div_nonneg; [apply ofNat_shape|exact Hf|exact Hp].
Qed.

Lemma ordered_initial : scheduledInOrder initial.
Proof.
  split; cbn.
  - split; reflexivity.
  - intros a Ha. inversion Ha.
  - intros i j a b _ Ha. discriminate Ha.
  - intros b Hb. inversion Hb.
Qed.

Lemma ordered_start (sources : list ScheduledSource) (cursor now : number)
    (buffer : AudioBuffer) (rest : list AudioBuffer) (ctx : nat) :
  ordered sources cursor (buffer :: rest) ->
  clockReading now = true ->
  startable (Math.max now cursor) = Normal tt ->
  ordered (sources ++ [{| sourceContext := ctx; sourceBuffer := buffer;
                          startTime := Math.max now cursor |}])
          (add (Math.max now cursor) (duration buffer)) rest.
Proof.
  intros [[Vc Nc] Hends Hord Hq] Hnow Hst.
  set (start := Math.max now cursor) in *.
  destruct (startable_nonneg start Hst) as [Fs Ns].
  destruct (max_shape now cursor (nonneg_not_NaN _ Ns))
    as (_ & _ & Hm & _ & Hle). fold start in Hm, Hle.
  assert (Vs : valid start = true).
  { apply andb_prop in Hnow as [Vn _]. destruct Hm as [->| ->]; assumption. }
  destruct (duration_time buffer) as [Vd Nd].
  { apply Hq. left. }
  destruct (add_nonneg start (duration buffer) Vs Ns Vd Nd) as (Va & Na & Hla).
  set (src := {| sourceContext := ctx; sourceBuffer := buffer;
                 startTime := start |}).
  assert (Hold : forall a, a ∈ sources -> le (endTime a) start = true).
  { intros a Ha. eapply number_le_trans; [apply Hends; exact Ha|exact Hle]. }
  split.
  - split; assumption.
  - intros a Ha. apply elem_of_app in Ha as [Ha|Ha].
    + eapply number_le_trans; [apply Hold; exact Ha|exact Hla].
    + apply list_elem_of_singleton in Ha. subst a.
      apply number_le_refl, nonneg_not_NaN, Na.
  - intros i j a b Hij Ha Hb.
    destruct (decide (j < length sources)%nat) as [Hj|Hj].
    + rewrite lookup_app_l in Ha, Hb by lia. exact (Hord i j a b Hij Ha Hb).
    + rewrite lookup_app_r in Hb by lia.
      destruct (j - length sources)%nat as [|k] eqn:E; [|destruct k; discriminate Hb].
      injection Hb as <-. cbn [startTime src].
      assert (i < length sources)%nat by lia.
      rewrite lookup_app_l in Ha by lia.
      apply Hold. eapply list_elem_of_lookup_2. exact Ha.
  - intros b Hb. apply Hq. right. exact Hb.
Qed.

Lemma ordered_queue (sources : list ScheduledSource) (cursor : number)
    (queue queue' : list AudioBuffer) :
  ordered sources cursor queue ->
  (forall b, b ∈ queue' -> positiveRate (sampleRate b) = true) ->
  ordered sources cursor queue'.
Proof. intros [? ? ? ?] H. split; assumption. Qed.

(** The stages of [stopCapture] that release the capture references. *)
Lemma release_scheduler (st : State) :
  (started (disconnectProcessor st) = started st /\
   playback (disconnectProcessor st) = playback st) /\
  (started (disconnectSource st) = started st /\
   playback (disconnectSource st) = playback st) /\
  (started (stopStream st) = started st /\
   playback (stopStream st) = playback st) /\
  (started (closeCaptureContext st) = started st /\
   playback (closeCaptureContext st) = playback st).
Proof.
  unfold disconnectProcessor, disconnectSource, stopStream,
    closeCaptureContext.
  destruct (processorRef (capture st)), (sourceRef (capture st)),
    (streamRef (capture st)), (audioContextRef (capture st));
    unfold started; cbn [set_capture emit effects playback];
    rewrite ?omap_app, ?app_nil_r; repeat split; reflexivity.
Qed.

Lemma stopCapture_scheduler (st : State) :
  started (stopCapture opts st) = started st /\
  playbackQueueRef (playback (stopCapture opts st)) = [] /\
  isPlayingRef (playback (stopCapture opts st)) = isPlayingRef (playback st) /\
  nextPlayTimeRef (playback (stopCapture opts st))
  = nextPlayTimeRef (playback st).
Proof.
  unfold stopCapture. cbv zeta.
  set (s1 := disconnectProcessor st).
  set (s2 := disconnectSource s1).
  set (s3 := stopStream s2).
  set (s4 := closeCaptureContext s3).
  destruct (release_scheduler st) as ((A1 & B1) & _).
  destruct (release_scheduler s1) as (_ & (A2 & B2) & _).
  destruct (release_scheduler s2) as (_ & _ & (A3 & B3) & _).
  destruct (release_scheduler s3) as (_ & _ & _ & (A4 & B4)).
  fold s1 in A1, B1. fold s2 in A2, B2. fold s3 in A3, B3. fold s4 in A4, B4.
  assert (Hs : started s4 = started st) by congruence.
  assert (Hp : playback s4 = playback st) by congruence.
  clearbody s4. clear - Hs Hp.
  destruct (setUserSpeaking_frame false (closePlaybackContext (clearQueue s4)))
    as (-> & -> & _).
  unfold closePlaybackContext, clearQueue.
  cbn [set_playback playback playbackContextRef].
  destruct (playbackContextRef (playback s4));
    unfold started; cbn [set_playback emit effects playback playbackQueueRef
                         isPlayingRef nextPlayTimeRef];
    rewrite ?omap_app, ?app_nil_r; fold (started s4);
    rewrite Hs, Hp; repeat split; reflexivity.
Qed.

Lemma startCapture_scheduler (outcome : CaptureOutcome) (st : State) :
  started (snd (startCapture outcome st)) = started st /\
  playback (snd (startCapture outcome st)) = playback st.
Proof.
  destruct outcome; unfold startCapture, captureFailed, started; cbn;
    rewrite ?omap_app; cbn; rewrite ?app_nil_r; split; reflexivity.
Qed.

Lemma onaudioprocess_scheduler (input : list spec_float) (now : Z)
    (st : State) :
  started (onaudioprocess allocates opts input now st) = started st /\
  playback (onaudioprocess allocates opts input now st) = playback st.
Proof.
  unfold onaudioprocess.
  set (st1 := if lt volumeThreshold (rms input) then _ else st).
  assert (H1 : started st1 = started st /\ playback st1 = playback st).
  { unfold st1. destruct (lt volumeThreshold (rms input)); [|split; reflexivity].
    cbn [set_vad vad isUserSpeakingRef].
    destruct (isUserSpeakingRef (vad st)); [split; reflexivity|].
    match goal with
    | |- context [setUserSpeaking opts true ?s] =>
        destruct (setUserSpeaking_frame true s) as (Hs & Hp & _)
    end.
    rewrite Hs, Hp. split; reflexivity. }
  destruct H1 as [Hs Hp].
  destruct (isConnected opts); [|split; assumption].
  destruct (downsample allocates input captureContextRate CAPTURE_SAMPLE_RATE);
    [|split; assumption].
  rewrite started_emit, app_nil_r. split; assumption.
Qed.

Lemma checkSilence_scheduler (now : Z) (st : State) :
  started (checkSilence opts now st) = started st /\
  playback (checkSilence opts now st) = playback st.
Proof.
  unfold checkSilence.
  destruct (silenceTimeoutMs <? now - lastSpeakTimeRef (vad st))%Z;
    [|split; reflexivity].
  destruct (isUserSpeakingRef (vad st)); [|split; reflexivity].
  destruct (setUserSpeaking_frame false st) as (Hs & Hp & _).
  split; assumption.
Qed.

(** What a step does to the started sources and to the cursor: nothing,
    or it starts one source at the later of the clock reading and the
    cursor, and moves the cursor to the end of that source. *)
Lemma step_starts (st : State) (a : Action) :
  let st' := step allocates supportedRate opts st a in
  (started st' = started st /\
   nextPlayTimeRef (playback st') = nextPlayTimeRef (playback st)) \/
  (exists now src,
     clockOf a = Some now /\
     started st' = started st ++ [src] /\
     startTime src = Math.max now (nextPlayTimeRef (playback st)) /\
     nextPlayTimeRef (playback st') = endTime src).
Proof.
  assert (P : forall ctx now s,
            (started (snd (playNextInQueue opts ctx now s)) = started s /\
             nextPlayTimeRef (playback (snd (playNextInQueue opts ctx now s)))
             = nextPlayTimeRef (playback s)) \/
            (exists src,
               started (snd (playNextInQueue opts ctx now s))
               = started s ++ [src] /\
               startTime src = Math.max now (nextPlayTimeRef (playback s)) /\
               nextPlayTimeRef (playback (snd (playNextInQueue opts ctx now s)))
               = endTime src)).
  { intros ctx now s.
    destruct (playNextInQueue_effect ctx now s) as (_ & _ & _ & H).
    destruct (playbackQueueRef (playback s)) as [|buffer rest].
    - left. destruct H as (_ & Hs & _ & _ & Hn). split; assumption.
    - cbv zeta in H. destruct H as [_ H].
      destruct (startable (Math.max now (nextPlayTimeRef (playback s))))
        as [[]|e].
      + right. destruct H as (_ & Hs & _ & Hn).
        eexists. split; [exact Hs|]. split; [reflexivity|exact Hn].
      + left. destruct H as (_ & Hs & _ & Hn). split; assumption. }
  cbv zeta. destruct a as [data rate now|k now|outcome| |input now|now];
    cbn [step clockOf].
  - destruct (playAudioChunk_cases data rate now st) as (_ & _ & H).
    destruct H as [(Hs & _ & _ & Hn)|[(b & _ & _ & Hs & _ & _ & Hn)|
                   (b & ctx & st2 & _ & _ & Hs & _ & _ & _ & _ & Hn & ->)]].
    + left. split; assumption.
    + left. split; assumption.
    + destruct (P ctx now st2) as [[H1 H2]|(src & H1 & H2 & H3)].
      * left. rewrite H1, H2. split; assumption.
      * right. exists now, src. rewrite H1, H3, H2, Hs, Hn. auto.
  - destruct (started st !! k) as [s|]; [|left; split; reflexivity].
    destruct (P (sourceContext s) now st) as [?|(src & ?)]; [left; assumption|].
    right. exists now, src. auto.
  - left. destruct (startCapture_scheduler outcome st) as [-> ->].
    split; reflexivity.
  - left. destruct (stopCapture_scheduler st) as (-> & _ & _ & ->).
    split; reflexivity.
  - left. destruct (onaudioprocess_scheduler input now st) as [-> ->].
    split; reflexivity.
  - left. destruct (checkSilence_scheduler now st) as [-> ->].
    split; reflexivity.
Qed.

Hypothesis supported_positive :
  forall r, supportedRate r = true -> positiveRate r = true.

Lemma playNextInQueue_ordered (ctx : nat) (now : number) (st : State) :
  clockReading now = true ->
  scheduledInOrder st ->
  scheduledInOrder (snd (playNextInQueue opts ctx now st)).
Proof.
  intros Hnow H. unfold scheduledInOrder in *.
  destruct (playNextInQueue_effect ctx now st) as (_ & _ & _ & E).
  destruct (playbackQueueRef (playback st)) as [|buffer rest].
  - destruct E as (_ & -> & -> & _ & ->).
    eapply ordered_queue; [exact H|]. intros b Hb. inversion Hb.
  - cbv zeta in E. destruct E as [-> E].
    destruct (startable (Math.max now (nextPlayTimeRef (playback st))))
      as [[]|e] eqn:Hst.
    + destruct E as (_ & -> & _ & ->). apply ordered_start; assumption.
    + destruct E as (_ & -> & _ & ->).
      eapply ordered_queue; [exact H|]. intros b Hb.
      apply (queued_rates _ _ _ H). right. exact Hb.
Qed.

Lemma ordered_step (st : State) (a : Action) :
  match clockOf a with
  | Some now => clockReading now = true
  | None => True
  end ->
  scheduledInOrder st ->
  scheduledInOrder (step allocates supportedRate opts st a).
Proof.
  intros Hclock H.
  destruct a as [data rate now|k now|outcome| |input now|now];
    cbn [step clockOf] in *.
  - destruct (playAudioChunk_cases data rate now st) as (_ & _ & E).
    destruct E as [(Hs & Hq & _ & Hn)|[(b & Hb & _ & Hs & Hq & _ & Hn)|
                   (b & ctx & st2 & Hb & _ & Hs & _ & _ & Hq & _ & Hn & ->)]].
    + unfold scheduledInOrder. rewrite Hs, Hq, Hn. exact H.
    + unfold scheduledInOrder. rewrite Hs, Hq, Hn.
      eapply ordered_queue; [exact H|]. intros b' Hb'.
      apply elem_of_app in Hb' as [Hb'|Hb'].
      * apply (queued_rates _ _ _ H). exact Hb'.
      * apply list_elem_of_singleton in Hb'. subst b'.
        apply supported_positive, Hb.
    + apply playNextInQueue_ordered; [exact Hclock|].
      unfold scheduledInOrder. rewrite Hs, Hq, Hn.
      eapply ordered_queue; [exact H|]. intros b' Hb'.
      apply elem_of_app in Hb' as [Hb'|Hb'].
      * apply (queued_rates _ _ _ H). exact Hb'.
      * apply list_elem_of_singleton in Hb'. subst b'.
        apply supported_positive, Hb.
  - destruct (started st !! k) as [s|]; [|exact H].
    apply playNextInQueue_ordered; assumption.
  - unfold scheduledInOrder.
    destruct (startCapture_scheduler outcome st) as [-> ->]. exact H.
  - unfold scheduledInOrder.
    destruct (stopCapture_scheduler st) as (-> & -> & _ & ->).
    eapply ordered_queue; [exact H|]. intros b Hb. inversion Hb.
  - unfold scheduledInOrder.
    destruct (onaudioprocess_scheduler input now st) as [-> ->]. exact H.
  - unfold scheduledInOrder.
    destruct (checkSilence_scheduler now st) as [-> ->]. exact H.
Qed.

Lemma ordered_run (actions : list Action) : forall st,
  clocksRead actions ->
  scheduledInOrder st ->
  scheduledInOrder (run allocates supportedRate opts actions st).
Proof.
  induction actions as [|a actions IH]; intros st Hc H; [exact H|].
  apply Forall_cons in Hc as [Ha Hc].
  cbn [run fold_left]. apply IH; [exact Hc|].
  apply ordered_step; assumption.
Qed.

Lemma cursor_end_step (st : State) (a : Action) :
  cursorAtEnd st -> cursorAtEnd (step allocates supportedRate opts st a).
Proof.
  unfold cursorAtEnd. intros H.
  destruct (step_starts st a) as [[-> ->]|(now & src & _ & -> & _ & ->)];
    [exact H|].
  rewrite last_snoc. reflexivity.
Qed.

Lemma cursor_end_run (actions : list Action) : forall st,
  cursorAtEnd st -> cursorAtEnd (run allocates supportedRate opts actions st).
Proof.
  induction actions as [|a actions IH]; intros st H; [exact H|].
  cbn [run fold_left]. apply IH, cursor_end_step, H.
Qed.

End SchedulerRounded.
Section SchedulerClaims.

Import TypedArrays Audio Number Hook Schedule.

Lemma between_positive (lo hi w : number) :
  lt zero lo = true -> isFinite hi = true ->
  le lo w = true -> le w hi = true ->
  lt zero w = true /\ isFinite w = true.
Proof.
  destruct lo as [?|[|]| |[|] ? ?]; try discriminate;
    destruct hi as [?|?| |[|] ? ?]; try discriminate;
    destruct w as [?|[|]| |[|] ? ?]; try discriminate;
    intros; split; reflexivity.
Qed.

Lemma max_of_lt (x y : number) :
  (lt x y = true -> Math.max x y = y) /\
  (lt y x = true -> Math.max x y = x).
Proof.
  unfold Math.max. split; intros H.
  - pose proof H as H'. apply number_lt_key in H' as (-> & -> & _).
    cbn [orb]. rewrite H. reflexivity.
  - pose proof H as H'. apply number_lt_key in H' as (-> & -> & _).
    cbn [orb]. rewrite (number_le_not_lt y x (number_lt_le y x H)), H.
    reflexivity.
Qed.

(** C3.  Every source the hook starts, in [playNextInQueue] and so also
    in [playAudioChunk] while nothing plays, starts at
    [Math.max(now, nextPlayTimeRef)], and [nextPlayTimeRef] then becomes
    the binary64 sum of that start and the duration of the buffer; when
    that start is not a time [source.start] accepts, nothing is started
    and the cursor stays.  Among the sources started in a run, each starts
    no earlier than the one before it ends, and no two overlap, the end of
    a source being that sum. *)
Theorem scheduled_in_order
    (allocates : Z -> bool) (supportedRate : spec_float -> bool)
    (opts : Options) (actions : list Action) (a : Action) :
  (forall r, supportedRate r = true -> positiveRate r = true) ->
  clocksRead actions ->
  let st := run allocates supportedRate opts actions initial in
  let st' := step allocates supportedRate opts st a in
  (forall ctx now buffer rest,
     playbackQueueRef (playback st) = buffer :: rest ->
     let start := Math.max now (nextPlayTimeRef (playback st)) in
     let result := playNextInQueue opts ctx now st in
     match startable start with
     | Normal _ =>
         fst result = Normal tt /\
         started (snd result)
         = started st ++ [{| sourceContext := ctx; sourceBuffer := buffer;
                             startTime := start |}] /\
         nextPlayTimeRef (playback (snd result)) = add start (duration buffer)
     | Throw e =>
         fst result = Throw e /\
         started (snd result) = started st /\
         nextPlayTimeRef (playback (snd result))
         = nextPlayTimeRef (playback st)
     end) /\
  ((started st' = started st /\
    nextPlayTimeRef (playback st') = nextPlayTimeRef (playback st)) \/
   (exists now src,
      clockOf a = Some now /\
      started st' = started st ++ [src] /\
      startTime src = Math.max now (nextPlayTimeRef (playback st)) /\
      nextPlayTimeRef (playback st') = endTime src)) /\
  (forall i x y,
     started st !! i = Some x -> started st !! S i = Some y ->
     le (endTime x) (startTime y) = true) /\
  (forall i j x y,
     i <> j -> started st !! i = Some x -> started st !! j = Some y ->
     overlap x y = false).
Proof.
  intros Hrate Hclock st st'.
  assert (H : scheduledInOrder st).
  { apply ordered_run; [exact Hrate|exact Hclock|].
    apply ordered_initial. }
  destruct H as [_ _ Hord _].
  split; [|split; [|split]].
  - intros ctx now buffer rest Hq. cbv zeta.
    destruct (playNextInQueue_effect opts ctx now st) as (_ & _ & _ & E).
    rewrite Hq in E. cbv zeta in E. destruct E as [_ E].
    destruct (startable (Math.max now (nextPlayTimeRef (playback st))))
      as [[]|e].
    + destruct E as (? & ? & _ & ?). auto.
    + destruct E as (? & ? & _ & ?). auto.
  - apply step_starts.
  - intros i x y Hx Hy. apply (Hord i (S i)); auto.
  - intros i j x y Hij Hx Hy. unfold overlap.
    destruct (Nat.lt_total i j) as [Hlt|[Heq|Hlt]]; [|contradiction|].
    + rewrite (number_le_not_lt _ _ (Hord i j x y Hlt Hx Hy)).
      apply andb_false_r.
    + rewrite (number_le_not_lt _ _ (Hord j i y x Hlt Hy Hx)). reflexivity.
Qed.

(** X10.  In every state the hook reaches, [nextPlayTimeRef] is the end
    of the source started last, and zero before the first.  So every
    source the hook starts, in whatever step, starts at the later of the
    clock reading and that end: at the end of the source before it while
    the clock is behind that end, and at the clock reading once the clock
    has passed it. *)
Theorem cursor_is_last_end
    (allocates : Z -> bool) (supportedRate : spec_float -> bool)
    (opts : Options) (actions : list Action) (a : Action) :
  let st := run allocates supportedRate opts actions initial in
  let st' := step allocates supportedRate opts st a in
  let previousEnd := match last (started st) with
                     | Some s => endTime s
                     | None => zero
                     end in
  nextPlayTimeRef (playback st) = previousEnd /\
  forall src,
    started st' = started st ++ [src] ->
    exists now,
      clockOf a = Some now /\
      startTime src = Math.max now previousEnd /\
      (lt now previousEnd = true -> startTime src = previousEnd) /\
      (lt previousEnd now = true -> startTime src = now) /\
      nextPlayTimeRef (playback st') = endTime src.
Proof.
  intros st st' previousEnd.
  assert (H : nextPlayTimeRef (playback st) = previousEnd).
  { apply (cursor_end_run allocates supportedRate opts actions initial).
    reflexivity. }
  split; [exact H|]. intros src Hsrc.
  destruct (step_starts allocates supportedRate opts st a)
    as [[E _]|(now & src' & Hc & E & Hs & Hn)]; fold st' in E, Hsrc |- *.
  - rewrite E in Hsrc. apply (f_equal length) in Hsrc.
    rewrite length_app in Hsrc. simpl in Hsrc. lia.
  - rewrite E in Hsrc. apply app_inj_tail in Hsrc as [_ <-].
    rewrite H in Hs. exists now.
    destruct (max_of_lt now previousEnd) as [M1 M2].
    repeat split; auto.
    + intros L. rewrite Hs. apply M1, L.
    + intros L. rewrite Hs. apply M2, L.
Qed.

End SchedulerClaims.
Section SchedulerExamples.

Import TypedArrays Audio Number Hook Schedule.
Open Scope Z_scope.

Lemma scheduled_in_order_witness :
  let allocates := fun _ : Z => true in
  let supportedRate := fun r : spec_float =>
    le (ofZ 3000) (widen r) && le (widen r) (ofZ 768000) in
  let opts := {| onUserSpeakingChange := true; onAiSpeakingChange := true;
                 isConnected := true |} in
  let tenth := S754_finite false 7205759403792794 (-56) in
  let half := S754_finite false 4503599627370496 (-53) in
  let frame := [Byte.x00; Byte.x00; Byte.x80; Byte.x3f] in
  let actions := [PlayAudioChunk frame None tenth;
                  PlayAudioChunk frame None tenth;
                  SourceEnded 0 tenth] in
  let a := SourceEnded 1 half in
  let st := run allocates supportedRate opts actions initial in
  let st' := step allocates supportedRate opts st a in
  (forall r, supportedRate r = true -> positiveRate r = true) /\
  clocksRead actions /\
  length (started st) = 2%nat /\
  ((started st' = started st /\
    nextPlayTimeRef (playback st') = nextPlayTimeRef (playback st)) \/
   (exists now src,
      clockOf a = Some now /\
      started st' = started st ++ [src] /\
      startTime src = Math.max now (nextPlayTimeRef (playback st)) /\
      nextPlayTimeRef (playback st') = endTime src)) /\
  (forall i x y,
     started st !! i = Some x -> started st !! S i = Some y ->
     le (endTime x) (startTime y) = true) /\
  (forall i j x y,
     i <> j -> started st !! i = Some x -> started st !! j = Some y ->
     overlap x y = false).
Proof.
  intros allocates supportedRate opts tenth half frame actions a st st'.
  assert (Hrate : forall r, supportedRate r = true -> positiveRate r = true).
  { intros r H. apply andb_prop in H as [H1 H2]. unfold positiveRate.
    destruct (between_positive (ofZ 3000) (ofZ 768000) (widen r)
                eq_refl eq_refl H1 H2) as [-> ->]. reflexivity. }
  assert (Hclock : clocksRead actions).
  { repeat constructor. }
  split; [exact Hrate|]. split; [exact Hclock|].
  split; [vm_compute; reflexivity|].
  exact (proj2 (scheduled_in_order allocates supportedRate opts actions a
                  Hrate Hclock)).
Defined.

(** The cursor is a binary64 sum: a buffer of 7 samples at 10 Hz started
    at 0.1 ends at 0.7999999999999999, and the next source starts there. *)
Lemma cursor_is_rounded_sum :
  let allocates := fun _ : Z => true in
  let supportedRate := fun r : spec_float => positiveRate r in
  let opts := {| onUserSpeakingChange := true; onAiSpeakingChange := true;
                 isConnected := true |} in
  let tenth := S754_finite false 7205759403792794 (-56) in
  let frame := replicate 28 Byte.x00 in
  let st := run allocates supportedRate opts
              [PlayAudioChunk frame (Some (ofZ 10)) tenth;
               PlayAudioChunk frame (Some (ofZ 10)) tenth;
               SourceEnded 0 tenth] initial in
  map startTime (started st)
  = [tenth; S754_finite false 7205759403792793 (-53)] /\
  map (fun s => duration (sourceBuffer s)) (started st)
  = [S754_finite false 6305039478318694 (-53);
     S754_finite false 6305039478318694 (-53)] /\
  nextPlayTimeRef (playback st) = S754_finite false 6755399441055744 (-52).
Proof. vm_compute. repeat split; reflexivity. Qed.

End SchedulerExamples.
Section DetectorRounded.

Import TypedArrays Audio Number Hook Schedule.
Open Scope Z_scope.

Variable allocates : Z -> bool.
Variable supportedRate : spec_float -> bool.
Variable opts : Options.

Lemma notifications_emit (e : Effect) (st : State) :
  Hook.notifications (emit e st)
  = Hook.notifications st ++ match e with Notified n => [n] | _ => [] end.
Proof.
  unfold Hook.notifications, emit. cbn [effects]. rewrite omap_app.
  destruct e; reflexivity.
Qed.

(** The test of line 169 is the comparison the specification words. *)
Lemma sumOfSquares_sum (input : list spec_float) :
  sumOfSquares input
  = Loudness.sum (map Loudness.square (map widen input)).
Proof.
  unfold sumOfSquares, Loudness.sum. generalize zero.
  induction input as [|s input IH]; intros acc; [reflexivity|].
  cbn [fold_left map]. apply IH.
Qed.

Lemma rms_loudness (input : list spec_float) :
  lt volumeThreshold (rms input) = Loudness.exceedsThreshold input.
Proof.
  unfold Loudness.exceedsThreshold, Loudness.rootMeanSquare, Loudness.mean,
    rms.
  rewrite sumOfSquares_sum, !length_map.
  replace Loudness.threshold with volumeThreshold by (vm_compute; reflexivity).
  reflexivity.
Qed.

Lemma setUserSpeaking_effect (v : bool) (st : State) :
  let st' := setUserSpeaking opts v st in
  vad st' = {| lastSpeakTimeRef := lastSpeakTimeRef (vad st);
               isUserSpeakingRef := v |} /\
  view st' = {| micPermission := micPermission (view st);
                isUserSpeaking := v;
                isAiSpeaking := isAiSpeaking (view st) |} /\
  Hook.notifications st' = Hook.notifications st ++ told opts v.
Proof.
  cbv zeta. unfold setUserSpeaking, told.
  destruct (onUserSpeakingChange opts);
    [rewrite notifications_emit|rewrite app_nil_r]; repeat split.
Qed.

Lemma onaudioprocess_detector (input : list spec_float) (now : Z)
    (st : State) :
  let st' := onaudioprocess allocates opts input now st in
  if Loudness.exceedsThreshold input then
    vad st' = {| lastSpeakTimeRef := now; isUserSpeakingRef := true |} /\
    if isUserSpeakingRef (vad st) then
      view st' = view st /\ Hook.notifications st' = Hook.notifications st
    else
      view st' = {| micPermission := micPermission (view st);
                    isUserSpeaking := true;
                    isAiSpeaking := isAiSpeaking (view st) |} /\
      Hook.notifications st' = Hook.notifications st ++ told opts true
  else
    vad st' = vad st /\ view st' = view st /\
    Hook.notifications st' = Hook.notifications st.
Proof.
  cbv zeta. unfold onaudioprocess. rewrite rms_loudness.
  set (st1 := if Loudness.exceedsThreshold input then _ else st).
  assert (H : vad (if isConnected opts
                   then match downsample allocates input captureContextRate
                                  CAPTURE_SAMPLE_RATE with
                        | Normal downsampled => emit (Sent downsampled) st1
                        | Throw _ => st1
                        end
                   else st1) = vad st1 /\
              view (if isConnected opts
                    then match downsample allocates input captureContextRate
                                   CAPTURE_SAMPLE_RATE with
                         | Normal downsampled => emit (Sent downsampled) st1
                         | Throw _ => st1
                         end
                    else st1) = view st1 /\
              Hook.notifications
                (if isConnected opts
                 then match downsample allocates input captureContextRate
                                CAPTURE_SAMPLE_RATE with
                      | Normal downsampled => emit (Sent downsampled) st1
                      | Throw _ => st1
                      end
                 else st1) = Hook.notifications st1).
  { destruct (isConnected opts); [|repeat split].
    destruct (downsample allocates input captureContextRate
                CAPTURE_SAMPLE_RATE); [|repeat split].
    rewrite notifications_emit, app_nil_r. repeat split. }
  destruct H as (-> & -> & ->). unfold st1. clear st1.
  destruct (Loudness.exceedsThreshold input); [|repeat split].
  cbn [set_vad vad isUserSpeakingRef].
  destruct (isUserSpeakingRef (vad st)) eqn:Hs.
  - cbn [vad view set_vad]. rewrite <- Hs. destruct (vad st); repeat split.
  - match goal with
    | |- context [setUserSpeaking opts true ?s] =>
        destruct (setUserSpeaking_effect true s) as (-> & -> & ->)
    end.
    repeat split.
Qed.

Lemma checkSilence_detector (now : Z) (st : State) :
  let st' := checkSilence opts now st in
  if isUserSpeakingRef (vad st)
     && (silenceTimeoutMs <? now - lastSpeakTimeRef (vad st)) then
    vad st' = {| lastSpeakTimeRef := lastSpeakTimeRef (vad st);
                 isUserSpeakingRef := false |} /\
    view st' = {| micPermission := micPermission (view st);
                  isUserSpeaking := false;
                  isAiSpeaking := isAiSpeaking (view st) |} /\
    Hook.notifications st' = Hook.notifications st ++ told opts false
  else
    vad st' = vad st /\ view st' = view st /\
    Hook.notifications st' = Hook.notifications st.
Proof.
  cbv zeta. unfold checkSilence.
  destruct (silenceTimeoutMs <? now - lastSpeakTimeRef (vad st));
    destruct (isUserSpeakingRef (vad st)); cbn [andb]; try (repeat split).
  all: apply setUserSpeaking_effect.
Qed.

(** The stages of [stopCapture] before its last line leave the detector,
    the React state and the notifications alone. *)
Lemma release_detector (st : State) :
  let quiet (f : State -> State) :=
    vad (f st) = vad st /\ view (f st) = view st /\
    Hook.notifications (f st) = Hook.notifications st in
  quiet disconnectProcessor /\ quiet disconnectSource /\ quiet stopStream /\
  quiet closeCaptureContext /\ quiet clearQueue /\ quiet closePlaybackContext.
Proof.
  cbv zeta.
  unfold disconnectProcessor, disconnectSource, stopStream,
    closeCaptureContext, clearQueue, closePlaybackContext.
  destruct (processorRef (capture st)), (sourceRef (capture st)),
    (streamRef (capture st)), (audioContextRef (capture st)),
    (playbackContextRef (playback st));
    unfold Hook.notifications;
    cbn [set_capture set_playback emit effects vad view];
    rewrite ?omap_app, ?app_nil_r; repeat split; reflexivity.
Qed.

Lemma stopCapture_detector (st : State) :
  let st' := stopCapture opts st in
  vad st' = {| lastSpeakTimeRef := lastSpeakTimeRef (vad st);
               isUserSpeakingRef := false |} /\
  view st' = {| micPermission := micPermission (view st);
                isUserSpeaking := false;
                isAiSpeaking := isAiSpeaking (view st) |} /\
  Hook.notifications st' = Hook.notifications st ++ told opts false.
Proof.
  cbv zeta. unfold stopCapture. cbv zeta.
  set (s1 := disconnectProcessor st).
  set (s2 := disconnectSource s1).
  set (s3 := stopStream s2).
  set (s4 := closeCaptureContext s3).
  set (s5 := clearQueue s4).
  set (s6 := closePlaybackContext s5).
  destruct (release_detector st) as ((A1 & B1 & C1) & _).
  destruct (release_detector s1) as (_ & (A2 & B2 & C2) & _).
  destruct (release_detector s2) as (_ & _ & (A3 & B3 & C3) & _).
  destruct (release_detector s3) as (_ & _ & _ & (A4 & B4 & C4) & _).
  destruct (release_detector s4) as (_ & _ & _ & _ & (A5 & B5 & C5) & _).
  destruct (release_detector s5) as (_ & _ & _ & _ & _ & (A6 & B6 & C6)).
  fold s1 in A1, B1, C1. fold s2 in A2, B2, C2. fold s3 in A3, B3, C3.
  fold s4 in A4, B4, C4. fold s5 in A5, B5, C5. fold s6 in A6, B6, C6.
  assert (Hv : vad s6 = vad st) by congruence.
  assert (Hw : view s6 = view st) by congruence.
  assert (Hn : Hook.notifications s6 = Hook.notifications st) by congruence.
  clearbody s6. clear - Hv Hw Hn.
  destruct (setUserSpeaking_effect false s6) as (-> & -> & ->).
  rewrite Hv, Hw, Hn. repeat split.
Qed.

Lemma startCapture_detector (outcome : CaptureOutcome) (st : State) :
  vad (snd (startCapture outcome st)) = vad st /\
  Hook.notifications (snd (startCapture outcome st)) = Hook.notifications st.
Proof.
  destruct outcome; unfold startCapture, captureFailed, Hook.notifications;
    cbn; rewrite ?omap_app; cbn; rewrite ?app_nil_r; split; reflexivity.
Qed.

Lemma step_last_loud (st : State) (a : Action) :
  lastSpeakTimeRef (vad (step allocates supportedRate opts st a))
  = loudAt (lastSpeakTimeRef (vad st)) a.
Proof.
  destruct a as [data rate now|k now|outcome| |input now|now];
    cbn [step loudAt].
  - destruct (playAudioChunk_cases supportedRate opts data rate now st)
      as (-> & _). reflexivity.
  - destruct (started st !! k); [|reflexivity].
    destruct (playNextInQueue_effect opts (sourceContext s) now st)
      as (_ & -> & _). reflexivity.
  - destruct (startCapture_detector outcome st) as (-> & _). reflexivity.
  - destruct (stopCapture_detector st) as (-> & _). reflexivity.
  - pose proof (onaudioprocess_detector input now st) as H. cbv zeta in H.
    destruct (Loudness.exceedsThreshold input).
    + destruct H as (-> & _). reflexivity.
    + destruct H as (-> & _). reflexivity.
  - pose proof (checkSilence_detector now st) as H. cbv zeta in H.
    destruct (isUserSpeakingRef (vad st)
              && (silenceTimeoutMs <? now - lastSpeakTimeRef (vad st)));
      destruct H as (-> & _); reflexivity.
Qed.

Lemma run_last_loud (actions : list Action) : forall st,
  lastSpeakTimeRef (vad (run allocates supportedRate opts actions st))
  = fold_left loudAt actions (lastSpeakTimeRef (vad st)).
Proof.
  induction actions as [|a actions IH]; intros st; [reflexivity|].
  change (run allocates supportedRate opts (a :: actions) st)
    with (run allocates supportedRate opts actions
            (step allocates supportedRate opts st a)).
  rewrite IH, step_last_loud. reflexivity.
Qed.

End DetectorRounded.
Section DetectorClaims.

Import TypedArrays Audio Number Hook Schedule.
Open Scope Z_scope.

(** C6.  In every state the hook reaches, [lastSpeakTimeRef] is the time
    of the last block whose loudness, the square root of the mean of the
    squared samples in binary64, exceeded 0.01.  Such a block records the
    current time and, when the detector is silent, makes it speaking and
    notifies; any other block changes nothing.  A periodic check makes a
    speaking detector silent, and notifies, exactly when more than 300 ms
    have passed since that time.  [stopCapture] makes the detector silent
    and notifies at once; no other step makes a speaking detector
    silent. *)
Theorem vad_transitions_or_teardown
    (allocates : Z -> bool) (supportedRate : spec_float -> bool)
    (opts : Options) (actions : list Action) (a : Action) :
  let st := run allocates supportedRate opts actions initial in
  let st' := step allocates supportedRate opts st a in
  let speaking (s : State) := isUserSpeakingRef (vad s) in
  lastSpeakTimeRef (vad st) = lastLoud actions /\
  (forall input now, a = AudioProcess input now ->
     if Loudness.exceedsThreshold input then
       lastSpeakTimeRef (vad st') = now /\ speaking st' = true /\
       if speaking st then
         view st' = view st /\
         Hook.notifications st' = Hook.notifications st
       else
         isUserSpeaking (view st') = true /\
         Hook.notifications st' = Hook.notifications st ++ told opts true
     else
       vad st' = vad st /\ view st' = view st /\
       Hook.notifications st' = Hook.notifications st) /\
  (forall now, a = CheckSilence now ->
     if speaking st && (silenceTimeoutMs <? now - lastLoud actions) then
       speaking st' = false /\ isUserSpeaking (view st') = false /\
       Hook.notifications st' = Hook.notifications st ++ told opts false
     else
       vad st' = vad st /\ view st' = view st /\
       Hook.notifications st' = Hook.notifications st) /\
  (a = StopCapture ->
     speaking st' = false /\ isUserSpeaking (view st') = false /\
     Hook.notifications st' = Hook.notifications st ++ told opts false) /\
  (speaking st = true -> speaking st' = false ->
     a = StopCapture \/
     exists now, a = CheckSilence now /\
                 silenceTimeoutMs < now - lastLoud actions).
Proof.
  intros st st' speaking.
  assert (Hlast : lastSpeakTimeRef (vad st) = lastLoud actions).
  { apply (run_last_loud allocates supportedRate opts actions initial). }
  split; [exact Hlast|]. split; [|split; [|split]].
  - intros input now ->.
    pose proof (onaudioprocess_detector allocates opts input now st) as H.
    cbv zeta in H. subst st'. cbn [step]. unfold speaking.
    destruct (Loudness.exceedsThreshold input); [|exact H].
    destruct H as [-> H]. split; [reflexivity|]. split; [reflexivity|].
    destruct (isUserSpeakingRef (vad st)); [exact H|].
    destruct H as [-> ->]. split; reflexivity.
  - intros now ->.
    pose proof (checkSilence_detector opts now st) as H.
    cbv zeta in H. subst st'. cbn [step]. unfold speaking.
    rewrite Hlast in H.
    destruct (isUserSpeakingRef (vad st)
              && (silenceTimeoutMs <? now - lastLoud actions)); [|exact H].
    destruct H as (-> & -> & ->). repeat split.
  - intros ->. subst st'. cbn [step]. unfold speaking.
    destruct (stopCapture_detector opts st) as (-> & -> & ->). repeat split.
  - unfold speaking. intros Hs Hs'. subst st'.
    destruct a as [data rate now|k now|outcome| |input now|now];
      cbn [step] in Hs'.
    + destruct (playAudioChunk_cases supportedRate opts data rate now st)
        as (E & _). rewrite E in Hs'. congruence.
    + destruct (started st !! k);
        [|congruence].
      destruct (playNextInQueue_effect opts (sourceContext s) now st)
        as (_ & E & _). rewrite E in Hs'. congruence.
    + destruct (startCapture_detector outcome st) as (E & _).
      rewrite E in Hs'. congruence.
    + left. reflexivity.
    + pose proof (onaudioprocess_detector allocates opts input now st) as H.
      cbv zeta in H.
      destruct (Loudness.exceedsThreshold input).
      * destruct H as (E & _). rewrite E in Hs'. discriminate Hs'.
      * destruct H as (E & _). rewrite E in Hs'. congruence.
    + right. exists now. split; [reflexivity|].
      pose proof (checkSilence_detector opts now st) as H. cbv zeta in H.
      rewrite Hlast, Hs in H. cbn [andb] in H.
      destruct (silenceTimeoutMs <? now - lastLoud actions) eqn:Ht.
      * apply Z.ltb_lt in Ht. exact Ht.
      * destruct H as (E & _). rewrite E in Hs'. congruence.
Qed.

Lemma vad_transitions_or_teardown_witness :
  let allocates := fun _ : Z => true in
  let supportedRate := fun r : spec_float => positiveRate r in
  let opts := {| onUserSpeakingChange := true; onAiSpeakingChange := true;
                 isConnected := true |} in
  let half := S754_finite false 8388608 (-24) in
  let loud := [half; zero; half; zero] in
  let actions := [AudioProcess loud 1000] in
  let a := CheckSilence 1301 in
  let st := run allocates supportedRate opts actions initial in
  let st' := step allocates supportedRate opts st a in
  (Loudness.exceedsThreshold loud = true /\
   isUserSpeakingRef (vad st) = true /\
   lastLoud actions = 1000 /\
   isUserSpeakingRef (vad st') = false) /\
  (a = StopCapture \/
   exists now, a = CheckSilence now /\
               silenceTimeoutMs < now - lastLoud actions).
Proof.
  intros allocates supportedRate opts half loud actions a st st'.
  assert (H : Loudness.exceedsThreshold loud = true /\
              isUserSpeakingRef (vad st) = true /\
              lastLoud actions = 1000 /\
              isUserSpeakingRef (vad st') = false).
  { vm_compute. repeat split; reflexivity. }
  split; [exact H|].
  destruct H as (_ & Hs & _ & Hs').
  exact (proj2 (proj2 (proj2 (proj2
           (vad_transitions_or_teardown allocates supportedRate opts
              actions a)))) Hs Hs').
Defined.

(** The claim C6 fails: [stopCapture] right after a loud block makes the
    detector silent and notifies, and the check 1 ms after the block
    finds it silent, long before the 300 ms have passed. *)
Lemma stopCapture_silences_at_once :
  let allocates := fun _ : Z => true in
  let supportedRate := fun r : spec_float => positiveRate r in
  let opts := {| onUserSpeakingChange := true; onAiSpeakingChange := true;
                 isConnected := true |} in
  let half := S754_finite false 8388608 (-24) in
  let loud := [half; zero; half; zero] in
  let actions := [AudioProcess loud 1000] in
  let st := run allocates supportedRate opts actions initial in
  let st' := step allocates supportedRate opts st StopCapture in
  let st'' := step allocates supportedRate opts st' (CheckSilence 1001) in
  Loudness.exceedsThreshold loud = true /\
  isUserSpeakingRef (vad st) = true /\
  lastLoud actions = 1000 /\
  isUserSpeakingRef (vad st') = false /\
  isUserSpeaking (view st') = false /\
  Hook.notifications st'
  = [UserSpeakingChange true; UserSpeakingChange false] /\
  ~ (exists now, StopCapture = CheckSilence now /\
                 silenceTimeoutMs < now - lastLoud actions) /\
  lastLoud (actions ++ [StopCapture]) = 1000 /\
  isUserSpeakingRef (vad st'') = false /\
  1001 - lastLoud (actions ++ [StopCapture]) <= silenceTimeoutMs.
Proof.
  cbv zeta. repeat split; try (vm_compute; reflexivity).
  - intros (now & H & _). discriminate H.
  - vm_compute. discriminate.
Qed.

End DetectorClaims.
Section CaptureRounded.

Import TypedArrays Audio Number Hook Schedule.

Variable allocates : Z -> bool.
Variable supportedRate : spec_float -> bool.
Variable opts : Options.

Lemma known_emit (e : Effect) (st : State) :
  known (emit e st) = known st ++ named e.
Proof.
  unfold known, emit, held. cbn [effects capture playback].
  rewrite flat_map_app. cbn [flat_map]. rewrite app_nil_r, !app_assoc.
  reflexivity.
Qed.

Ltac kept_stage E :=
  unfold known, held;
  cbn [set_capture set_playback emit effects capture playback objects
       audioContextRef sourceRef processorRef streamRef playbackContextRef];
  rewrite ?flat_map_app; cbn [flat_map named]; rewrite ?E;
  cbn [option_list option_rect];
  rewrite ?Forall_app, ?Forall_cons, ?Forall_nil;
  split; [reflexivity|tauto].

(** The stages of [stopCapture] create nothing and come to know
    nothing. *)
Lemma release_numbered (P : nat -> Prop) (st : State) :
  let kept (f : State -> State) :=
    objects (f st) = objects st /\
    (Forall P (known st) -> Forall P (known (f st))) in
  kept disconnectProcessor /\ kept disconnectSource /\ kept stopStream /\
  kept closeCaptureContext /\ kept clearQueue /\ kept closePlaybackContext.
Proof.
  cbv zeta. refine (conj _ (conj _ (conj _ (conj _ (conj _ _))))).
  - unfold disconnectProcessor.
    destruct (processorRef (capture st)) eqn:E; [kept_stage E|split; [reflexivity|tauto]].
  - unfold disconnectSource.
    destruct (sourceRef (capture st)) eqn:E; [kept_stage E|split; [reflexivity|tauto]].
  - unfold stopStream.
    destruct (streamRef (capture st)) eqn:E; [kept_stage E|split; [reflexivity|tauto]].
  - unfold closeCaptureContext.
    destruct (audioContextRef (capture st)) eqn:E; [kept_stage E|split; [reflexivity|tauto]].
  - unfold clearQueue. split; [reflexivity|]. unfold known, held. tauto.
  - unfold closePlaybackContext.
    destruct (playbackContextRef (playback st)) eqn:E; [kept_stage E|split; [reflexivity|tauto]].
Qed.

Lemma setUserSpeaking_numbered (P : nat -> Prop) (v : bool) (st : State) :
  objects (setUserSpeaking opts v st) = objects st /\
  known (setUserSpeaking opts v st) = known st.
Proof.
  unfold setUserSpeaking. destruct (onUserSpeakingChange opts);
    [rewrite known_emit, app_nil_r|]; split; reflexivity.
Qed.

Lemma signalAiSpeaking_numbered (v : bool) (st : State) :
  objects (signalAiSpeaking opts v st) = objects st /\
  known (signalAiSpeaking opts v st) = known st.
Proof.
  unfold signalAiSpeaking. destruct (onAiSpeakingChange opts);
    [rewrite known_emit, app_nil_r|]; split; reflexivity.
Qed.

Lemma stopCapture_numbered (st : State) :
  numbered st -> numbered (stopCapture opts st).
Proof.
  unfold numbered, stopCapture. cbv zeta. intros H.
  set (s1 := disconnectProcessor st).
  set (s2 := disconnectSource s1).
  set (s3 := stopStream s2).
  set (s4 := closeCaptureContext s3).
  set (s5 := clearQueue s4).
  set (s6 := closePlaybackContext s5).
  set (P := fun k => (k < objects st)%nat) in *.
  destruct (release_numbered P st) as ((A1 & B1) & _).
  destruct (release_numbered P s1) as (_ & (A2 & B2) & _).
  destruct (release_numbered P s2) as (_ & _ & (A3 & B3) & _).
  destruct (release_numbered P s3) as (_ & _ & _ & (A4 & B4) & _).
  destruct (release_numbered P s4) as (_ & _ & _ & _ & (A5 & B5) & _).
  destruct (release_numbered P s5) as (_ & _ & _ & _ & _ & (A6 & B6)).
  fold s1 in A1, B1. fold s2 in A2, B2. fold s3 in A3, B3.
  fold s4 in A4, B4. fold s5 in A5, B5. fold s6 in A6, B6.
  assert (Ho : objects s6 = objects st) by congruence.
  assert (Hk : Forall P (known s6)) by auto 10.
  clearbody s6. clear - Ho Hk.
  destruct (setUserSpeaking_numbered P false s6) as (-> & ->).
  rewrite Ho. exact Hk.
Qed.

Lemma startCapture_numbered (outcome : CaptureOutcome) (st : State) :
  numbered st -> numbered (snd (startCapture outcome st)).
Proof.
  unfold numbered, known, held. intros H.
  rewrite !Forall_app in H. destruct H as ((Ha & Hs & Hp & Ht & Hc) & He).
  assert (W : forall l d,
             Forall (fun k => (k < objects st)%nat) l ->
             Forall (fun k => (k < d + objects st)%nat) l).
  { intros l d Hl. eapply Forall_impl; [exact Hl|]. cbv beta. intros k Hk. lia. }
  destruct outcome; unfold startCapture, captureFailed;
    cbn [create fst snd setMicPermission set_view set_capture emit effects
         capture playback objects audioContextRef sourceRef processorRef
         streamRef playbackContextRef];
    rewrite ?flat_map_app; cbn [flat_map named option_list option_rect];
    rewrite ?Forall_app, ?Forall_cons, ?Forall_nil;
    repeat split;
    first [assumption | lia
          | apply (W _ 1%nat); assumption | apply (W _ 2%nat); assumption
          | apply (W _ 3%nat); assumption | apply (W _ 4%nat); assumption
          | apply (W _ 5%nat); assumption].
Qed.

Lemma numbered_same (st st' : State) :
  objects st' = objects st -> known st' = known st ->
  numbered st -> numbered st'.
Proof. unfold numbered. intros -> ->. auto. Qed.

Lemma playNextInQueue_numbered (ctx : nat) (now : number) (st : State) :
  numbered st -> (ctx < objects st)%nat ->
  numbered (snd (playNextInQueue opts ctx now st)).
Proof.
  intros H Hctx. unfold playNextInQueue.
  destruct (playbackQueueRef (playback st)) as [|buffer rest].
  - cbn [snd].
    match goal with
    | |- context [signalAiSpeaking opts false ?s] =>
        destruct (signalAiSpeaking_numbered false s) as (Ho & Hk);
        apply (numbered_same st); [rewrite Ho; reflexivity
                                   |rewrite Hk; reflexivity|exact H]
    end.
  - cbn [create]. cbv zeta.
    assert (W : forall l,
               Forall (fun k => (k < objects st)%nat) l ->
               Forall (fun k => (k < S (objects st))%nat) l).
    { intros l Hl. eapply Forall_impl; [exact Hl|]. cbv beta. intros k Hk.
      lia. }
    destruct (startable (Math.max now (nextPlayTimeRef (playback st))))
      as [[]|e]; cbn [snd].
    + match goal with
      | |- context [signalAiSpeaking opts true ?s] =>
          destruct (signalAiSpeaking_numbered true s) as (Ho & Hk)
      end.
      unfold numbered. rewrite Ho, Hk. unfold known, held.
      cbn [set_playback emit effects capture playback objects
           playbackContextRef].
      rewrite flat_map_app. cbn [flat_map named sourceContext].
      unfold numbered, known, held in H.
      rewrite !Forall_app in H. rewrite !Forall_app, Forall_cons, Forall_nil.
      destruct H as ((Ha & Hs & Hp & Ht & Hc) & He).
      repeat split; first [apply W; assumption | lia].
    + unfold numbered. apply W. exact H.
Qed.

Lemma playAudioChunk_numbered (data : list byte) (rate : option number)
    (now : number) (st : State) :
  numbered st ->
  numbered (snd (playAudioChunk supportedRate opts data rate now st)).
Proof.
  intros H. unfold playAudioChunk.
  set (chosen :=
         match audioContextRef (capture st) with
         | Some c => (c, st)
         | None =>
             match playbackContextRef (playback st) with
             | Some c => (c, st)
             | None =>
                 let '(c, st0) := create st in
                 (c, set_playback
                       {| playbackQueueRef := playbackQueueRef (playback st0);
                          isPlayingRef := isPlayingRef (playback st0);
                          nextPlayTimeRef := nextPlayTimeRef (playback st0);
                          playbackContextRef := Some c |} st0)
             end
         end).
  assert (Hch : numbered (snd chosen) /\
                (fst chosen < objects (snd chosen))%nat).
  { unfold chosen. pose proof H as H'. unfold numbered, known, held in H'.
    rewrite !Forall_app in H'. destruct H' as ((Ha & Hs & Hp & Ht & Hc) & He).
    destruct (audioContextRef (capture st)) as [c|] eqn:E1.
    - cbn [fst snd]. split; [exact H|].
      cbn [option_list option_rect] in Ha. apply Forall_cons in Ha as [Ha _].
      exact Ha.
    - destruct (playbackContextRef (playback st)) as [c|] eqn:E2.
      + cbn [fst snd]. split; [exact H|].
        cbn [option_list option_rect] in Hc.
        apply Forall_cons in Hc as [Hc _]. exact Hc.
      + cbn [create fst snd set_playback objects]. split; [|lia].
        unfold numbered, known, held.
        cbn [set_playback capture playback effects objects
             playbackContextRef].
        rewrite E1. cbn [option_list option_rect].
        rewrite !Forall_app, Forall_cons, Forall_nil.
        assert (W : forall l,
                   Forall (fun k => (k < objects st)%nat) l ->
                   Forall (fun k => (k < S (objects st))%nat) l).
        { intros l Hl. eapply Forall_impl; [exact Hl|]. cbv beta.
          intros k Hk. lia. }
        repeat split; first [apply W; assumption | lia | constructor]. }
  destruct chosen as [ctx st1]. cbn [fst snd] in Hch.
  destruct Hch as [H1 Hctx].
  destruct (ofTyped (decodeSamples data)) as [[samples|]|e]; cbn [snd].
  2:{ apply (numbered_same st1); [reflexivity| |exact H1].
      rewrite known_emit, app_nil_r. reflexivity. }
  2:{ exact H1. }
  destruct (createBuffer supportedRate 1 (length samples)
              (default CAPTURE_SAMPLE_RATE rate)) as [buffer|e];
    [|exact H1].
  destruct (ofTyped (typedArraySet (channelData buffer) samples))
    as [filled|e]; [|exact H1].
  match goal with
  | |- context [set_playback ?p st1] =>
      assert (H2 : numbered (set_playback p st1))
        by (apply (numbered_same st1); [reflexivity|reflexivity|exact H1]);
      set (st2 := set_playback p st1) in *
  end.
  assert (Ho2 : objects st2 = objects st1) by reflexivity.
  clearbody st2.
  destruct (isPlayingRef (playback st1)); [exact H2|].
  destruct (signalAiSpeaking_numbered true st2) as (Ho & Hk).
  apply playNextInQueue_numbered.
  - apply (numbered_same st2); assumption.
  - rewrite Ho, Ho2. exact Hctx.
Qed.

Lemma onaudioprocess_numbered (input : list spec_float) (now : Z)
    (st : State) :
  numbered st -> numbered (onaudioprocess allocates opts input now st).
Proof.
  intros H. unfold onaudioprocess.
  set (st1 := if lt volumeThreshold (rms input) then _ else st).
  assert (H1 : numbered st1).
  { unfold st1. destruct (lt volumeThreshold (rms input)); [|exact H].
    cbn [set_vad vad isUserSpeakingRef].
    destruct (isUserSpeakingRef (vad st)); [exact H|].
    match goal with
    | |- context [setUserSpeaking opts true ?s] =>
        destruct (setUserSpeaking_numbered (fun _ => True) true s)
          as (Ho & Hk);
        apply (numbered_same st); [rewrite Ho; reflexivity
                                   |rewrite Hk; reflexivity|exact H]
    end. }
  clearbody st1.
  destruct (isConnected opts); [|exact H1].
  destruct (downsample allocates input captureContextRate CAPTURE_SAMPLE_RATE);
    [|exact H1].
  apply (numbered_same st1); [reflexivity| |exact H1].
  rewrite known_emit, app_nil_r. reflexivity.
Qed.

Lemma checkSilence_numbered (now : Z) (st : State) :
  numbered st -> numbered (checkSilence opts now st).
Proof.
  intros H. unfold checkSilence.
  destruct (silenceTimeoutMs <? now - lastSpeakTimeRef (vad st))%Z;
    [|exact H].
  destruct (isUserSpeakingRef (vad st)); [|exact H].
  destruct (setUserSpeaking_numbered (fun _ => True) false st) as (Ho & Hk).
  apply (numbered_same st); assumption.
Qed.

Lemma numbered_step (st : State) (a : Action) :
  numbered st -> numbered (step allocates supportedRate opts st a).
Proof.
  intros H.
  destruct a as [data rate now|k now|outcome| |input now|now]; cbn [step].
  - apply playAudioChunk_numbered, H.
  - destruct (started st !! k) as [s|] eqn:E; [|exact H].
    apply playNextInQueue_numbered; [exact H|].
    pose proof H as H'. unfold numbered, known in H'.
    apply Forall_app in H' as [_ He]. rewrite Forall_forall in He.
    apply He. apply list_elem_of_In, in_flat_map.
    unfold started in E. apply list_elem_of_lookup_2 in E.
    apply list_elem_of_omap in E as (e & He1 & He2).
    exists e. split; [apply list_elem_of_In, He1|].
    destruct e; try discriminate He2. injection He2 as ->.
    left. reflexivity.
  - apply startCapture_numbered, H.
  - apply stopCapture_numbered, H.
  - apply onaudioprocess_numbered, H.
  - apply checkSilence_numbered, H.
Qed.

Lemma numbered_run (actions : list Action) : forall st,
  numbered st -> numbered (run allocates supportedRate opts actions st).
Proof.
  induction actions as [|a actions IH]; intros st H; [exact H|].
  change (run allocates supportedRate opts (a :: actions) st)
    with (run allocates supportedRate opts actions
            (step allocates supportedRate opts st a)).
  apply IH, numbered_step, H.
Qed.

End CaptureRounded.
Section CaptureEffects.

Import TypedArrays Audio Number Hook Schedule.

Variable opts : Options.

(** What [stopCapture] does, in the order in which it does it. *)
Lemma stopCapture_releases (st : State) :
  let st' := stopCapture opts st in
  effects st'
  = effects st
    ++ map DisconnectedNode (option_list (processorRef (capture st)))
    ++ map DisconnectedNode (option_list (sourceRef (capture st)))
    ++ map StoppedStream (option_list (streamRef (capture st)))
    ++ map ClosedContext (option_list (audioContextRef (capture st)))
    ++ map ClosedContext (option_list (playbackContextRef (playback st)))
    ++ map Notified (told opts false) /\
  capture st' = {| audioContextRef := None; sourceRef := None;
                   processorRef := None; streamRef := None |} /\
  playbackContextRef (playback st') = None /\
  objects st' = objects st.
Proof.
  destruct opts as [c [|] a];
    destruct st as [[[?|] [?|] [?|] [?|]] [? ? ? [?|]] ? ? ? es];
    cbv zeta; unfold stopCapture, told; cbn;
    rewrite <- ?app_assoc, ?app_nil_r; repeat split; reflexivity.
Qed.

(** What [startCapture] does for each way its [try] block can end: the
    objects it creates are numbered from [objects st] on, and the
    references assigned before the exception keep them. *)
Lemma startCapture_stages (outcome : CaptureOutcome) (st : State) :
  let result := startCapture outcome st in
  let st1 := snd result in
  let n := objects st in
  let assigned := match outcome with
                  | Rejected => 0
                  | AudioContextThrows => 1
                  | MediaStreamSourceThrows => 2
                  | ScriptProcessorThrows => 3
                  | GainThrows | ConnectThrows | Completed => 4
                  end in
  let ref k old := if k <? assigned then Some (k + n) else old in
  fst result = match outcome with Completed => true | _ => false end /\
  micPermission (view st1) = (if fst result then granted else denied) /\
  effects st1
  = effects st
    ++ (if fst result then []
        else [Logged (ConsoleError "Failed to start audio capture:")]) /\
  capture st1
  = {| audioContextRef := ref 1 (audioContextRef (capture st));
       sourceRef := ref 2 (sourceRef (capture st));
       processorRef := ref 3 (processorRef (capture st));
       streamRef := ref 0 (streamRef (capture st)) |} /\
  playback st1 = playback st /\ vad st1 = vad st.
Proof.
  destruct st as [[? ? ? ?] ? ? ? n es].
  destruct outcome; cbn; rewrite ?app_nil_r; repeat split; reflexivity.
Qed.

End CaptureEffects.

Section CaptureClaims.

Import TypedArrays Audio Number Hook Schedule.

(** X14.  In every state the hook reaches, the objects the state knows are
    numbered below [objects].  [startCapture] returns [true] only when no
    call of its [try] block throws; it then has set [micPermission] to
    [granted] and stored a stream, a context, a source and a processor
    that are new, and the [stopCapture] after it disconnects both nodes,
    stops that stream and closes that context, and empties the four
    references.  When [getUserMedia] rejects or a later call throws,
    [startCapture] logs the error, sets [micPermission] to [denied] and
    returns [false]; it stops and closes nothing, so the references
    assigned before the exception keep their new objects. *)
Theorem capture_outcomes
    (allocates : Z -> bool) (supportedRate : spec_float -> bool)
    (opts : Options) (actions : list Action) (outcome : CaptureOutcome) :
  let st := run allocates supportedRate opts actions initial in
  let result := startCapture outcome st in
  let st1 := snd result in
  let st2 := stopCapture opts st1 in
  let n := objects st in
  let assigned := match outcome with
                  | Rejected => 0
                  | AudioContextThrows => 1
                  | MediaStreamSourceThrows => 2
                  | ScriptProcessorThrows => 3
                  | GainThrows | ConnectThrows | Completed => 4
                  end in
  let ref k old := if k <? assigned then Some (k + n) else old in
  (forall k, k ∈ known st -> k < n) /\
  (fst result = true <-> outcome = Completed) /\
  micPermission (view st1) = (if fst result then granted else denied) /\
  effects st1
  = effects st
    ++ (if fst result then []
        else [Logged (ConsoleError "Failed to start audio capture:")]) /\
  capture st1
  = {| audioContextRef := ref 1 (audioContextRef (capture st));
       sourceRef := ref 2 (sourceRef (capture st));
       processorRef := ref 3 (processorRef (capture st));
       streamRef := ref 0 (streamRef (capture st)) |} /\
  (outcome = Completed ->
   capture st1
   = {| audioContextRef := Some (1 + n); sourceRef := Some (2 + n);
        processorRef := Some (3 + n); streamRef := Some n |} /\
   disconnectedNodes st2 = disconnectedNodes st ++ [3 + n; 2 + n] /\
   stoppedStreams st2 = stoppedStreams st ++ [n] /\
   closedContexts st2
   = closedContexts st ++ [1 + n]
     ++ option_list (playbackContextRef (playback st)) /\
   capture st2 = {| audioContextRef := None; sourceRef := None;
                    processorRef := None; streamRef := None |}).
Proof.
  intros st result st1 st2 n assigned ref.
  assert (Hn : numbered st).
  { apply numbered_run. constructor. }
  pose proof (startCapture_stages outcome st) as H. cbv zeta in H.
  fold result st1 n assigned ref in H.
  destruct H as (Hr & Hm & He & Hc & Hp & _).
  split; [|split; [|split; [|split; [|split]]]].
  - intros k Hk. unfold numbered in Hn. rewrite Forall_forall in Hn.
    apply Hn, Hk.
  - rewrite Hr. destruct outcome; split; intros; congruence.
  - exact Hm.
  - exact He.
  - exact Hc.
  - intros ->. change (fst result = true) in Hr.
    destruct (stopCapture_releases opts st1) as (E & Ec & _).
    fold st2 in E, Ec. rewrite Hc, Hp, He, Hr in E. rewrite Hc.
    unfold ref, assigned. cbn [Nat.ltb Nat.leb Nat.add].
    split; [reflexivity|].
    unfold ref, assigned in E.
    cbn [Nat.ltb Nat.leb Nat.add option_list option_rect map
         audioContextRef sourceRef processorRef streamRef] in E.
    rewrite app_nil_r in E.
    unfold disconnectedNodes, stoppedStreams, closedContexts.
    unfold told in E. rewrite E, !omap_app.
    destruct (playbackContextRef (playback st));
      destruct (onUserSpeakingChange opts);
      simpl; rewrite ?app_nil_r;
      repeat split; try exact Ec; try reflexivity.
Qed.

End CaptureClaims.
Section CaptureExamples.

Import TypedArrays Audio Number Hook Schedule.

Lemma capture_outcomes_witness :
  let allocates := fun _ : Z => true in
  let supportedRate := fun r : spec_float => positiveRate r in
  let opts := {| onUserSpeakingChange := true; onAiSpeakingChange := true;
                 isConnected := true |} in
  let tenth := S754_finite false 7205759403792794 (-56) in
  let frame := [Byte.x00; Byte.x00; Byte.x80; Byte.x3f] in
  let actions := [PlayAudioChunk frame None tenth] in
  let st := run allocates supportedRate opts actions initial in
  let st1 := snd (startCapture Completed st) in
  let st2 := stopCapture opts st1 in
  let n := objects st in
  (n = 2 /\ known st = [0; 0]) /\
  capture st1
  = {| audioContextRef := Some (1 + n); sourceRef := Some (2 + n);
       processorRef := Some (3 + n); streamRef := Some n |} /\
  disconnectedNodes st2 = disconnectedNodes st ++ [3 + n; 2 + n] /\
  stoppedStreams st2 = stoppedStreams st ++ [n] /\
  closedContexts st2
  = closedContexts st ++ [1 + n]
    ++ option_list (playbackContextRef (playback st)) /\
  capture st2 = {| audioContextRef := None; sourceRef := None;
                   processorRef := None; streamRef := None |}.
Proof.
  intros allocates supportedRate opts tenth frame actions st st1 st2 n.
  split; [vm_compute; split; reflexivity|].
  exact (proj2 (proj2 (proj2 (proj2 (proj2
           (capture_outcomes allocates supportedRate opts actions
              Completed))))) eq_refl).
Defined.

Lemma cursor_is_last_end_witness :
  let allocates := fun _ : Z => true in
  let supportedRate := fun r : spec_float => positiveRate r in
  let opts := {| onUserSpeakingChange := true; onAiSpeakingChange := true;
                 isConnected := true |} in
  let tenth := S754_finite false 7205759403792794 (-56) in
  let frame := replicate 28 Byte.x00 in
  let actions := [PlayAudioChunk frame (Some (ofZ 10)) tenth;
                  PlayAudioChunk frame (Some (ofZ 10)) tenth] in
  let a := SourceEnded 0 tenth in
  let st := run allocates supportedRate opts actions initial in
  let st' := step allocates supportedRate opts st a in
  let previousEnd := match last (started st) with
                     | Some s => endTime s
                     | None => zero
                     end in
  previousEnd = S754_finite false 7205759403792793 (-53) /\
  exists src,
    started st' = started st ++ [src] /\
    exists now,
      clockOf a = Some now /\
      startTime src = Math.max now previousEnd /\
      (lt now previousEnd = true -> startTime src = previousEnd) /\
      (lt previousEnd now = true -> startTime src = now) /\
      nextPlayTimeRef (playback st') = endTime src.
Proof.
  intros allocates supportedRate opts tenth frame actions a st st'
    previousEnd.
  split; [vm_compute; reflexivity|].
  assert (E : exists src, started st' = started st ++ [src]).
  { vm_compute. eexists. reflexivity. }
  destruct E as [src E]. exists src. split; [exact E|].
  exact (proj2 (cursor_is_last_end allocates supportedRate opts actions a)
           src E).
Defined.

End CaptureExamples.
